(** * AMfe solvers: a shallow embedding of [amfe/solver.py]

    Python floats are idealised as real numbers, Python ints as [Z],
    one-dimensional arrays as lists of reals and matrices as lists of rows.
    In-place array updates ([q += ...]) are written as explicit state
    passing; exceptions are values of an error type. *)

From Stdlib Require Import Reals Lra Lia ZArith List String Bool Sorted.
Import ListNotations.
Local Open Scope string_scope.
Local Open Scope list_scope.
Local Open Scope R_scope.

(** ** Exceptions and fallible results *)

Inductive exn : Type :=
| TypeError
| KeyError
| ValueError
| ZeroDivisionError.

Inductive result (A : Type) : Type :=
| Ok (a : A)
| Raise (e : exn).

Arguments Ok {A} a.
Arguments Raise {A} e.

Definition rbind {A B : Type} (r : result A) (k : A -> result B) : result B :=
  match r with
  | Ok a => k a
  | Raise e => Raise e
  end.

Notation "x <- r ;; k" := (rbind r (fun x => k))
  (at level 61, r at next level, right associativity).

(** ** Arrays *)

Definition Vec : Type := list R.
Definition Mat : Type := list (list R).

Module LinAlg.

Fixpoint zip_with (f : R -> R -> R) (x y : Vec) : Vec :=
  match x, y with
  | a :: x', b :: y' => f a b :: zip_with f x' y'
  | _, _ => []
  end.

Definition zeros (n : nat) : Vec := repeat 0 n.
Definition vadd (x y : Vec) : Vec := zip_with Rplus x y.
Definition vsub (x y : Vec) : Vec := zip_with Rminus x y.
Definition vopp (x : Vec) : Vec := map Ropp x.
Definition vscale (c : R) (x : Vec) : Vec := map (Rmult c) x.

Fixpoint dot (x y : Vec) : R :=
  match x, y with
  | a :: x', b :: y' => a * b + dot x' y'
  | _, _ => 0
  end.

Fixpoint mzip_with (f : R -> R -> R) (A B : Mat) : Mat :=
  match A, B with
  | r :: A', s :: B' => zip_with f r s :: mzip_with f A' B'
  | _, _ => []
  end.

Definition msub (A B : Mat) : Mat := mzip_with Rminus A B.
Definition mopp (A : Mat) : Mat := map vopp A.
Definition mscale (c : R) (A : Mat) : Mat := map (vscale c) A.
Definition matvec (A : Mat) (x : Vec) : Vec := map (fun r => dot r x) A.

End LinAlg.
Import LinAlg.

(** [norm_of_vector]: [np.sqrt(array.T.dot(array))]. *)
Definition norm_of_vector (array : Vec) : R := sqrt (dot array array).

(** ** The mechanical system, as the solvers use it *)

Module MechanicalSystem.

(** Modelled from the spec: the mechanical system as [solver.py] uses it.
    The class [MechanicalSystem] among the sources has [M()],
    [K_and_f(u,t)], [f_ext(u,du,t)], [write_timestep(t,u)] and
    [no_of_dofs], but neither [clear_timesteps()] nor the cached attributes
    [M_constr] and [D_constr] that the solvers read; those follow sections
    3, 6 and 9 of the specification.  [assemble_M] is what [M()] computes
    and caches, [timesteps] is the sequence of pairs handed to
    [write_timestep]. *)
Record system : Type := {
  no_of_dofs : nat;
  assemble_M : Mat;
  M_constr : option Mat;
  D_constr : option Mat;
  K_and_f : option Vec -> R -> Mat * Vec;
  f_ext : Vec -> Vec -> R -> Vec;
  timesteps : list (R * Vec)
}.

Definition set_M_constr (ms : system) (m : option Mat) : system :=
  {| no_of_dofs := no_of_dofs ms; assemble_M := assemble_M ms;
     M_constr := m; D_constr := D_constr ms;
     K_and_f := K_and_f ms; f_ext := f_ext ms; timesteps := timesteps ms |}.

Definition set_timesteps (ms : system) (l : list (R * Vec)) : system :=
  {| no_of_dofs := no_of_dofs ms; assemble_M := assemble_M ms;
     M_constr := M_constr ms; D_constr := D_constr ms;
     K_and_f := K_and_f ms; f_ext := f_ext ms; timesteps := l |}.

(** [mechanical_system.M()] *)
Definition M (ms : system) : system :=
  set_M_constr ms (Some (assemble_M ms)).

Definition clear_timesteps (ms : system) : system :=
  set_timesteps ms [].

Definition write_timestep (ms : system) (t : R) (u : Vec) : system :=
  set_timesteps ms (timesteps ms ++ [(t, u)]).

(** The value of [M_constr] once [M()] has been called if it was [None]. *)
Definition ensure_M (ms : system) : system :=
  match M_constr ms with
  | None => M ms
  | Some _ => ms
  end.

Definition the_M (ms : system) : Mat :=
  match M_constr ms with
  | Some m => m
  | None => []
  end.

End MechanicalSystem.

(** ** Generalized-alpha scheme *)

Module GeneralizedAlpha.

Record Params : Type := {
  alpha_m : R;
  alpha_f : R;
  beta : R;
  gamma : R
}.

(** [GeneralizedAlphaNonlinearDynamicsSolver.set_parameters] (body) *)
Definition set_parameters (rho_inf : R) : Params :=
  let alpha_m := (2 * rho_inf - 1) / (rho_inf + 1) in
  let alpha_f := rho_inf / (rho_inf + 1) in
  {| alpha_m := alpha_m;
     alpha_f := alpha_f;
     beta := 0.25 * (1 - alpha_m + alpha_f) ^ 2;
     gamma := 0.5 - alpha_m + alpha_f |}.

(** [predict(q, dq, v, ddq)]: the arrays are updated in place, in the
    order written; the new arrays are returned. *)
Definition predict (p : Params) (dt : R) (q dq v ddq : Vec) : Vec * Vec * Vec * Vec :=
  let q1 := vadd q (vadd (vscale dt dq) (vscale (dt ^ 2 * (0.5 - beta p)) ddq)) in
  let dq1 := vadd dq (vscale (dt * (1 - gamma p)) ddq) in
  let ddq1 := vscale 0 ddq in
  (q1, dq1, v, ddq1).

(** [newton_raphson(q, dq, v, ddq, t, q_old, dq_old, v_old, ddq_old, t_old)] *)
Definition newton_raphson (p : Params) (dt : R) (ms0 : MechanicalSystem.system)
    (q dq v ddq : Vec) (t : R) (q_old dq_old v_old ddq_old : Vec) (t_old : R)
  : MechanicalSystem.system * (Mat * Vec * Vec) :=
  let ms := MechanicalSystem.ensure_M ms0 in
  let ddq_m := vadd (vscale (1 - alpha_m p) ddq) (vscale (alpha_m p) ddq_old) in
  let q_f := vadd (vscale (1 - alpha_f p) q) (vscale (alpha_f p) q_old) in
  let dq_f := vadd (vscale (1 - alpha_f p) dq) (vscale (alpha_f p) dq_old) in
  let t_f := (1 - alpha_f p) * t + alpha_f p * t_old in
  let '(K_f, f_f) := MechanicalSystem.K_and_f ms (Some q_f) t_f in
  let f_ext_f := MechanicalSystem.f_ext ms q_f dq_f t_f in
  match MechanicalSystem.D_constr ms with
  | None =>
      let Jac := msub (mscale (- (1 - alpha_m p) / (beta p * dt ^ 2)) (MechanicalSystem.the_M ms))
                      (mscale (1 - alpha_f p) K_f) in
      let res := vsub (vsub f_ext_f (matvec (MechanicalSystem.the_M ms) ddq_m)) f_f in
      (ms, (Jac, res, f_ext_f))
  | Some D =>
      let Jac := msub (msub (mscale (- (1 - alpha_m p) / (beta p * dt ^ 2)) (MechanicalSystem.the_M ms))
                            (mscale ((1 - alpha_f p) * gamma p / (beta p * dt)) D))
                      (mscale (1 - alpha_f p) K_f) in
      let res := vsub (vsub (vsub f_ext_f (matvec (MechanicalSystem.the_M ms) ddq_m))
                            (matvec D dq_f)) f_f in
      (ms, (Jac, res, f_ext_f))
  end.

(** [correct(q, dq, v, ddq, delta_q)] *)
Definition correct (p : Params) (dt : R) (q dq v ddq delta_q : Vec)
  : Vec * Vec * Vec * Vec :=
  let q1 := vadd q delta_q in
  let dq1 := vadd dq (vscale (gamma p / (beta p * dt)) delta_q) in
  let ddq1 := vadd ddq (vscale (1 / (beta p * dt ^ 2)) delta_q) in
  (q1, dq1, v, ddq1).

End GeneralizedAlpha.

(** ** JWH-alpha scheme *)

Module JWHAlpha.

(** The JWH-alpha solver sets no [beta] attribute. *)
Record Params : Type := {
  alpha_m : R;
  alpha_f : R;
  gamma : R
}.

(** [JWHAlphaNonlinearDynamicsSolver.set_parameters] (body) *)
Definition set_parameters (rho_inf : R) : Params :=
  let alpha_m := (3 - rho_inf) / (2 * (1 + rho_inf)) in
  let alpha_f := 1 / (1 + rho_inf) in
  {| alpha_m := alpha_m;
     alpha_f := alpha_f;
     gamma := 0.5 + alpha_m - alpha_f |}.

(** [predict(q, dq, v, ddq)] *)
Definition predict (p : Params) (dt : R) (q dq v ddq : Vec) : Vec * Vec * Vec * Vec :=
  let q1 := vadd q
              (vadd (vadd (vscale (dt * (alpha_m p - gamma p) / alpha_m p) dq)
                          (vscale (dt * gamma p / alpha_m p) v))
                    (vscale (alpha_f p * dt ^ 2 * gamma p * (1 - gamma p) / alpha_m p) ddq)) in
  let dq1 := vadd dq
               (vadd (vscale (1 / alpha_m p) (vsub v dq))
                     (vscale (alpha_f p * dt * (1 - gamma p) / alpha_m p) ddq)) in
  let v1 := vadd v (vscale (dt * (1 - gamma p)) ddq) in
  let ddq1 := vscale 0 ddq in
  (q1, dq1, v1, ddq1).

(** [newton_raphson(q, dq, v, ddq, t, q_old, dq_old, v_old, ddq_old, t_old)] *)
Definition newton_raphson (p : Params) (dt : R) (ms0 : MechanicalSystem.system)
    (q dq v ddq : Vec) (t : R) (q_old dq_old v_old ddq_old : Vec) (t_old : R)
  : MechanicalSystem.system * (Mat * Vec * Vec) :=
  let ms := MechanicalSystem.ensure_M ms0 in
  let ddq_m := vadd (vscale (alpha_m p) ddq) (vscale (1 - alpha_m p) ddq_old) in
  let q_f := vadd (vscale (alpha_f p) q) (vscale (1 - alpha_f p) q_old) in
  let v_f := vadd (vscale (alpha_f p) v) (vscale (1 - alpha_f p) v_old) in
  let t_f := alpha_f p * t + (1 - alpha_f p) * t_old in
  let '(K_f, f_f) := MechanicalSystem.K_and_f ms (Some q_f) t_f in
  let f_ext_f := MechanicalSystem.f_ext ms q_f v_f t_f in
  let c_M := - alpha_m p ^ 2 / (alpha_f p * gamma p ^ 2 * dt ^ 2) in
  match MechanicalSystem.D_constr ms with
  | None =>
      let Jac := msub (mscale c_M (MechanicalSystem.the_M ms))
                      (mscale (alpha_f p) K_f) in
      let res := vsub (vsub f_ext_f (matvec (MechanicalSystem.the_M ms) ddq_m)) f_f in
      (ms, (Jac, res, f_ext_f))
  | Some D =>
      let Jac := msub (msub (mscale c_M (MechanicalSystem.the_M ms))
                            (mscale (alpha_m p / (gamma p * dt)) D))
                      (mscale (alpha_f p) K_f) in
      let res := vsub (vsub (vsub f_ext_f (matvec (MechanicalSystem.the_M ms) ddq_m))
                            (matvec D v_f)) f_f in
      (ms, (Jac, res, f_ext_f))
  end.

(** [correct(q, dq, v, ddq, delta_q)] *)
Definition correct (p : Params) (dt : R) (q dq v ddq delta_q : Vec)
  : Vec * Vec * Vec * Vec :=
  let q1 := vadd q delta_q in
  let dq1 := vadd dq (vscale (1 / (gamma p * dt)) delta_q) in
  let v1 := vadd v (vscale (alpha_m p / (alpha_f p * gamma p * dt)) delta_q) in
  let ddq1 := vadd ddq (vscale (alpha_m p / (alpha_f p * gamma p ^ 2 * dt ^ 2)) delta_q) in
  (q1, dq1, v1, ddq1).

End JWHAlpha.

(** ** Python calls: binding arguments to a signature *)

Module PyCall.

(** A [def] with positional-or-keyword parameters without defaults and,
    possibly, a trailing [**options]. *)
Record signature : Type := {
  params : list string;
  var_keyword : bool
}.

Definition mem (k : string) (l : list string) : bool := existsb (String.eqb k) l.

(** Keywords are bound one by one: a keyword naming a parameter fills it
    (twice is an error), any other keyword goes to [**options] when the
    signature has one and is an error otherwise. *)
Fixpoint bind_keywords (sig : signature) (filled kws : list string) : result (list string) :=
  match kws with
  | [] => Ok filled
  | k :: rest =>
      if mem k (params sig) then
        if mem k filled then Raise TypeError
        else bind_keywords sig (k :: filled) rest
      else if var_keyword sig then bind_keywords sig filled rest
      else Raise TypeError
  end.

(** [call sig npos kws]: a call with [npos] positional arguments and the
    keyword arguments [kws].  Too many positional arguments, an unexpected
    or repeated keyword and a missing argument all raise [TypeError]. *)
Definition call (sig : signature) (npos : nat) (kws : list string) : result unit :=
  if (List.length (params sig) <? npos)%nat then Raise TypeError
  else
    filled <- bind_keywords sig (firstn npos (params sig)) kws ;;
    if forallb (fun p => mem p filled) (params sig) then Ok tt else Raise TypeError.

End PyCall.

(** ** The options dictionary *)

(** [{'q0': ..., 'dq0': ...}], either key optional. *)
Record InitialConditions : Type := {
  ic_q0 : option Vec;
  ic_dq0 : option Vec
}.

(** The linear-solve adapter: [set_A(A)] followed by [solve(rhs)]. *)
Definition LinSolver : Type := Mat -> Vec -> Vec.

(** The keyword dictionary [**options] with the recognised keys typed as
    documented; [None] is an absent key.  [opt_other] lists the further
    keys present ('linsolveroptions', ...). *)
Record Options : Type := {
  opt_linsolver : option LinSolver;
  opt_no_of_load_steps : option Z;
  opt_newton_damping : option R;
  opt_n_max_iter : option Z;
  opt_smplfd_nwtn_itr : option Z;
  opt_save : option bool;
  opt_initial_conditions : option InitialConditions;
  opt_t0 : option R;
  opt_t_end : option R;
  opt_dt : option R;
  opt_dt_output : option R;
  opt_rtol : option R;
  opt_atol : option R;
  opt_n_iter_max : option Z;
  opt_conv_abort : option bool;
  opt_verbose : option bool;
  opt_write_iter : option bool;
  opt_track_niter : option bool;
  opt_use_v : option bool;
  opt_rho_inf : option R;
  opt_t : option R;
  opt_other : list string
}.

Definition key {A : Type} (name : string) (o : option A) : list string :=
  match o with
  | Some _ => [name]
  | None => []
  end.

(** The keys of the dictionary, as [**options] expands them. *)
Definition keys (o : Options) : list string :=
  key "linsolver" (opt_linsolver o) ++
  key "no_of_load_steps" (opt_no_of_load_steps o) ++
  key "newton_damping" (opt_newton_damping o) ++
  key "n_max_iter" (opt_n_max_iter o) ++
  key "smplfd_nwtn_itr" (opt_smplfd_nwtn_itr o) ++
  key "save" (opt_save o) ++
  key "initial_conditions" (opt_initial_conditions o) ++
  key "t0" (opt_t0 o) ++ key "t_end" (opt_t_end o) ++
  key "dt" (opt_dt o) ++ key "dt_output" (opt_dt_output o) ++
  key "rtol" (opt_rtol o) ++ key "atol" (opt_atol o) ++
  key "n_iter_max" (opt_n_iter_max o) ++
  key "conv_abort" (opt_conv_abort o) ++ key "verbose" (opt_verbose o) ++
  key "write_iter" (opt_write_iter o) ++ key "track_niter" (opt_track_niter o) ++
  key "use_v" (opt_use_v o) ++ key "rho_inf" (opt_rho_inf o) ++
  key "t" (opt_t o) ++ opt_other o.

Definition get {A : Type} (o : option A) (default : A) : A :=
  match o with
  | Some a => a
  | None => default
  end.

(** [Solver.__init__(self, mechanical_system, **options)] *)
Definition Solver_init_sig : PyCall.signature :=
  {| PyCall.params := ["self"; "mechanical_system"]; PyCall.var_keyword := true |}.

(** ** Comparisons of floats *)

Definition Rgtb (a b : R) : bool := if Rgt_dec a b then true else false.
Definition Rgeb (a b : R) : bool := if Rge_dec a b then true else false.

(** ** [np.arange] *)

(** Ceiling: [up x] is the integer with [x < up x <= x + 1]. *)
Definition Rceil (x : R) : Z := (1 - up (- x))%Z.

(** [np.arange(start, stop, step)] has [ceil((stop - start)/step)] entries
    [start + i*step]; a zero step is an error. *)
Definition arange (start stop step : R) : result (list R) :=
  if Req_dec_T step 0 then Raise ZeroDivisionError
  else Ok (map (fun i => start + INR i * step)
               (seq 0 (Z.to_nat (Rceil ((stop - start) / step))))).

(** ** [NonlinearStaticsSolver] *)

Module NonlinearStaticsSolver.

Record solver : Type := {
  mechanical_system : MechanicalSystem.system;
  linsolver : LinSolver;
  no_of_load_steps : Z;
  rtol : R;
  atol : R;
  newton_damping : R;
  n_max_iter : Z;
  smplfd_nwtn_itr : Z;
  verbose : bool;
  track_niter : bool;
  write_iter : bool;
  conv_abort : bool;
  save : bool
}.

(** [__init__(self, mechanical_system, **options)]; [PardisoSolver] is the
    default adapter. *)
Definition init (ms : MechanicalSystem.system) (PardisoSolver : LinSolver) (o : Options)
  : result solver :=
  _ <- PyCall.call Solver_init_sig 2 (keys o) ;;
  Ok {| mechanical_system := ms;
        linsolver := get (opt_linsolver o) PardisoSolver;
        no_of_load_steps := get (opt_no_of_load_steps o) 10%Z;
        rtol := get (opt_rtol o) 1.0E-9;
        atol := get (opt_atol o) 1.0E-6;
        newton_damping := get (opt_newton_damping o) 1.0;
        n_max_iter := get (opt_n_max_iter o) 1000%Z;
        smplfd_nwtn_itr := get (opt_smplfd_nwtn_itr o) 1%Z;
        verbose := get (opt_verbose o) false;
        track_niter := get (opt_track_niter o) false;
        write_iter := get (opt_write_iter o) false;
        conv_abort := get (opt_conv_abort o) true;
        save := get (opt_save o) true |}.

(** The variables of [solve] that the Newton loop reads and writes. *)
Record Iterate : Type := {
  ms : MechanicalSystem.system;
  u : Vec;
  K : Mat;
  f_int : Vec;
  f_ext : Vec;
  res : Vec;
  abs_res : R;
  abs_f_ext : R;
  n_iter : Z
}.

(** The [while] condition of the Newton loop. *)
Definition continues (s : solver) (x : Iterate) : bool :=
  Rgtb (abs_res x) (rtol s * abs_f_ext x + atol s) && (n_max_iter s >? n_iter x)%Z.

(** One pass through the body of the Newton loop, up to and including the
    optional [write_timestep]; [du] and [t] are fixed during the loop. *)
Definition newton_iteration (s : solver) (du : Vec) (t : R) (x : Iterate) : result Iterate :=
  let delta_u := linsolver s (K x) (res x) in
  let u1 := vadd (u x) (vscale (newton_damping s) delta_u) in
  if (smplfd_nwtn_itr s =? 0)%Z then Raise ZeroDivisionError
  else
    let '(K1, f_int1, f_ext1) :=
      if (n_iter x mod smplfd_nwtn_itr s =? 0)%Z
      then (MechanicalSystem.K_and_f (ms x) (Some u1) t, MechanicalSystem.f_ext (ms x) u1 du t)
      else (K x, f_int x, f_ext x) in
    let res1 := vadd (vopp f_int1) f_ext1 in
    let abs_f_ext1 := norm_of_vector f_ext1 in
    let abs_res1 := norm_of_vector res1 in
    let n_iter1 := (n_iter x + 1)%Z in
    let ms1 := if write_iter s
               then MechanicalSystem.write_timestep (ms x) (t + IZR n_iter1 * 0.000001) u1
               else ms x in
    Ok {| ms := ms1; u := u1; K := K1; f_int := f_int1; f_ext := f_ext1;
          res := res1; abs_res := abs_res1; abs_f_ext := abs_f_ext1;
          n_iter := n_iter1 |}.

Inductive NewtonExit : Type :=
| LoopEnd      (* the [while] condition became false *)
| AbortReturn  (* the [return] inside the loop *)
| OutOfFuel.

Fixpoint newton_loop (s : solver) (du : Vec) (t : R) (fuel : nat) (x : Iterate)
  : result (NewtonExit * Iterate) :=
  if continues s x then
    match fuel with
    | O => Ok (OutOfFuel, x)
    | S fuel' =>
        x1 <- newton_iteration s du t x ;;
        if (n_iter x1 >=? n_max_iter s)%Z && conv_abort s
        then Ok (AbortReturn, x1)
        else newton_loop s du t fuel' x1
    end
  else Ok (LoopEnd, x).

Inductive Exit : Type :=
| Finished
| Aborted
| Diverging.

Record Output : Type := {
  exit : Exit;
  u_output : list Vec;
  final_system : MechanicalSystem.system;
  iteration_info : list (R * Z * R)
}.

(** The state of a load step before its Newton loop. *)
Definition enter_step (m : MechanicalSystem.system) (u0 du : Vec) (t : R) : Iterate :=
  let '(K0, f_int0) := MechanicalSystem.K_and_f m (Some u0) t in
  let f_ext0 := MechanicalSystem.f_ext m u0 du t in
  let res0 := vadd (vopp f_int0) f_ext0 in
  {| ms := m; u := u0; K := K0; f_int := f_int0; f_ext := f_ext0;
     res := res0; abs_res := norm_of_vector res0;
     abs_f_ext := norm_of_vector f_ext0; n_iter := 0%Z |}.

(** The load step loop, over the remaining load factors [ts]. *)
Fixpoint load_steps (s : solver) (du : Vec) (ts : list R) (m : MechanicalSystem.system)
    (u0 : Vec) (out : list Vec) (info : list (R * Z * R)) : result Output :=
  match ts with
  | [] => Ok {| exit := Finished; u_output := out; final_system := m;
                iteration_info := info |}
  | t :: ts' =>
      r <- newton_loop s du t (Z.to_nat (n_max_iter s)) (enter_step m u0 du t) ;;
      match r with
      | (AbortReturn, x) =>
          Ok {| exit := Aborted; u_output := out; final_system := ms x;
                iteration_info := [] |}
      | (OutOfFuel, x) =>
          Ok {| exit := Diverging; u_output := out; final_system := ms x;
                iteration_info := info |}
      | (LoopEnd, x) =>
          let m1 := if save s then MechanicalSystem.write_timestep (ms x) t (u x) else ms x in
          load_steps s du ts' m1 (u x) (out ++ [u x])
            (if track_niter s then info ++ [(t, n_iter x, abs_res x)] else info)
      end
  end.

(** [solve(self)] *)
Definition solve (s : solver) : result Output :=
  let m0 := MechanicalSystem.clear_timesteps (mechanical_system s) in
  if (no_of_load_steps s =? 0)%Z then Raise ZeroDivisionError
  else
    let stepwidth := 1 / IZR (no_of_load_steps s) in
    let '(K0, _) := MechanicalSystem.K_and_f m0 None 0 in
    let ndof := List.length K0 in
    let u0 := zeros ndof in
    let du := zeros ndof in
    let m1 := MechanicalSystem.write_timestep m0 0.0 u0 in
    ts <- arange stepwidth (1.0 + stepwidth) stepwidth ;;
    load_steps s du ts m1 u0 [] [].

End NonlinearStaticsSolver.

(** ** [NonlinearDynamicsSolver] and its subclasses *)

Module NonlinearDynamicsSolver.

(** The methods a subclass overrides, once [set_parameters] has run. *)
Record Hooks : Type := {
  predict : Vec -> Vec -> Vec -> Vec -> Vec * Vec * Vec * Vec;
  newton_raphson :
    MechanicalSystem.system -> Vec -> Vec -> Vec -> Vec -> R ->
    Vec -> Vec -> Vec -> Vec -> R -> MechanicalSystem.system * (Mat * Vec * Vec);
  correct : Vec -> Vec -> Vec -> Vec -> Vec -> Vec * Vec * Vec * Vec
}.

(** A subclass: how its [set_parameters] is declared, what it computes
    from [rho_inf] (the methods then read the parameters and [self.dt]),
    and the value its [__init__] gives [use_v]. *)
Record SolverClass : Type := {
  set_parameters_sig : PyCall.signature;
  set_parameters : R -> R -> Hooks;
  class_use_v : bool
}.

Record solver : Type := {
  cls : SolverClass;
  mechanical_system : MechanicalSystem.system;
  linsolver : LinSolver;
  options : Options;
  initial_conditions : Vec * Vec;
  t0 : R;
  t_end : R;
  dt : R;
  dt_output : R;
  rtol : R;
  atol : R;
  n_iter_max : Z;
  conv_abort : bool;
  verbose : bool;
  write_iter : bool;
  track_niter : bool;
  use_v : bool;
  rho_inf : R
}.

(** [set_initial_conditions(self, **options)] *)
Definition set_initial_conditions_sig : PyCall.signature :=
  {| PyCall.params := ["self"]; PyCall.var_keyword := true |}.

Definition initial_vector (n : nat) (given : option Vec) : result Vec :=
  match given with
  | Some x => if (List.length x =? n)%nat then Ok x else Raise ValueError
  | None => Ok (zeros n)
  end.

Definition set_initial_conditions (ms : MechanicalSystem.system) (o : Options)
  : result (Vec * Vec) :=
  _ <- PyCall.call set_initial_conditions_sig 1 (keys o) ;;
  let ic := get (opt_initial_conditions o) {| ic_q0 := None; ic_dq0 := None |} in
  q0 <- initial_vector (MechanicalSystem.no_of_dofs ms) (ic_q0 ic) ;;
  dq0 <- initial_vector (MechanicalSystem.no_of_dofs ms) (ic_dq0 ic) ;;
  Ok (q0, dq0).

(** [__init__(self, mechanical_system, **options)] of a subclass [c]:
    the base-class constructor, then [use_v] and [rho_inf]. *)
Definition init (c : SolverClass) (ms : MechanicalSystem.system)
    (PardisoSolver : LinSolver) (o : Options) : result solver :=
  _ <- PyCall.call Solver_init_sig 2 (keys o) ;;
  ic <- set_initial_conditions ms o ;;
  match opt_dt o with
  | None => Raise ValueError
  | Some dt0 =>
      Ok {| cls := c;
            mechanical_system := ms;
            linsolver := get (opt_linsolver o) PardisoSolver;
            options := o;
            initial_conditions := ic;
            t0 := get (opt_t0 o) 0.0;
            t_end := get (opt_t_end o) 1.0;
            dt := dt0;
            dt_output := get (opt_dt_output o) dt0;
            rtol := get (opt_rtol o) 1.0E-9;
            atol := get (opt_atol o) 1.0E-6;
            n_iter_max := get (opt_n_iter_max o) 30%Z;
            conv_abort := get (opt_conv_abort o) true;
            verbose := get (opt_verbose o) false;
            write_iter := get (opt_write_iter o) false;
            track_niter := get (opt_track_niter o) false;
            use_v := class_use_v c;
            rho_inf := get (opt_rho_inf o) 0.9 |}
  end.

(** The variables of [solve] that live across time steps. *)
Record State : Type := {
  ms : MechanicalSystem.system;
  iteration_info : list (R * Z * R);
  t : R;
  q : Vec;
  dq : Vec;
  v : Vec;
  ddq : Vec;
  f_ext : Vec;
  abs_f_ext : R;
  time_index : nat
}.

(** The variables saved at the start of a time step. *)
Record Old : Type := {
  q_old : Vec;
  dq_old : Vec;
  v_old : Vec;
  ddq_old : Vec;
  f_ext_old : Vec;
  t_old : R
}.

Definition eps : R := 1E-13.

Inductive NewtonExit : Type :=
| Converged    (* the [while] condition became false *)
| RolledBack   (* old variables restored, then [break] *)
| AbortReturn  (* the [return] inside the loop *)
| OutOfFuel.

(** The Newton-Raphson iteration loop.  [Jac], [res], [res_abs] and
    [n_iter] are its further variables; the result also carries the final
    [n_iter] and [res_abs]. *)
Fixpoint newton_loop (s : solver) (h : Hooks) (old : Old) (fuel : nat)
    (st : State) (Jac : Mat) (res : Vec) (res_abs : R) (n_iter : Z)
  : NewtonExit * State * Z * R :=
  if Rgtb res_abs (rtol s * abs_f_ext st + atol s) then
    match fuel with
    | O => (OutOfFuel, st, n_iter, res_abs)
    | S fuel' =>
        let delta_q := vopp (linsolver s Jac res) in
        let '(q1, dq1, v1, ddq1) := correct h (q st) (dq st) (v st) (ddq st) delta_q in
        let '(ms1, (Jac1, res1, f_ext1)) :=
          newton_raphson h (ms st) q1 dq1 v1 ddq1 (t st)
            (q_old old) (dq_old old) (v_old old) (ddq_old old) (t_old old) in
        let res_abs1 := norm_of_vector res1 in
        let n_iter1 := (n_iter + 1)%Z in
        let ms2 := if write_iter s
                   then MechanicalSystem.write_timestep ms1
                          (t st + dt s / 1000000 * IZR n_iter1) q1
                   else ms1 in
        if (n_iter1 >? n_iter_max s)%Z then
          if conv_abort s then
            (AbortReturn,
             {| ms := ms2; iteration_info := iteration_info st; t := t st;
                q := q1; dq := dq1; v := v1; ddq := ddq1; f_ext := f_ext1;
                abs_f_ext := abs_f_ext st; time_index := time_index st |},
             n_iter1, res_abs1)
          else
            (RolledBack,
             {| ms := ms2; iteration_info := iteration_info st; t := t_old old;
                q := q_old old; dq := dq_old old; v := v_old old; ddq := ddq1;
                f_ext := f_ext_old old;
                abs_f_ext := abs_f_ext st; time_index := time_index st |},
             n_iter1, res_abs1)
        else
          newton_loop s h old fuel'
            {| ms := ms2; iteration_info := iteration_info st; t := t st;
               q := q1; dq := dq1; v := v1; ddq := ddq1; f_ext := f_ext1;
               abs_f_ext := abs_f_ext st; time_index := time_index st |}
            Jac1 res1 res_abs1 n_iter1
    end
  else (Converged, st, n_iter, res_abs).

(** The output test at the top of the time step loop: the state after it
    and whether the loop is left by [break]. *)
Definition write_output (time_range : list R) (st : State) : State * bool :=
  if Rgeb (t st + eps) (nth (time_index st) time_range 0) then
    ({| ms := MechanicalSystem.write_timestep (ms st) (t st) (q st);
        iteration_info := iteration_info st; t := t st;
        q := q st; dq := dq st; v := v st; ddq := ddq st; f_ext := f_ext st;
        abs_f_ext := abs_f_ext st; time_index := S (time_index st) |},
     (S (time_index st) =? List.length time_range)%nat)
  else (st, false).

Definition save_old (st : State) : Old :=
  {| q_old := q st; dq_old := dq st; v_old := v st; ddq_old := ddq st;
     f_ext_old := f_ext st; t_old := t st |}.

(** From "predict new variables" to the end of the time step: the Newton
    exit, the state, and [n_iter], [res_abs]. *)
Definition advance (s : solver) (h : Hooks) (st : State) : NewtonExit * State * Z * R :=
  let old := save_old st in
  let t1 := t st + dt s in
  let '(q1, dq1, v1, ddq1) := predict h (q st) (dq st) (v st) (ddq st) in
  let '(ms1, (Jac, res, f_ext1)) :=
    newton_raphson h (ms st) q1 dq1 v1 ddq1 t1
      (q_old old) (dq_old old) (v_old old) (ddq_old old) (t_old old) in
  let abs_f_ext1 := Rmax (abs_f_ext st) (norm_of_vector f_ext1) in
  let res_abs := norm_of_vector res in
  newton_loop s h old (S (Z.to_nat (n_iter_max s)))
    {| ms := ms1; iteration_info := iteration_info st; t := t1;
       q := q1; dq := dq1; v := v1; ddq := ddq1; f_ext := f_ext1;
       abs_f_ext := abs_f_ext1; time_index := time_index st |}
    Jac res res_abs 0%Z.

Definition track (s : solver) (st : State) (n_iter : Z) (res_abs : R) : State :=
  {| ms := ms st;
     iteration_info := if track_niter s
                       then iteration_info st ++ [(t st, n_iter, res_abs)]
                       else iteration_info st;
     t := t st; q := q st; dq := dq st; v := v st; ddq := ddq st;
     f_ext := f_ext st; abs_f_ext := abs_f_ext st; time_index := time_index st |}.

Inductive StepExit : Type :=
| Continue  (* on to the next test of the [while] condition *)
| Break     (* the last output was written *)
| Return    (* convergence abort *)
| Stuck.    (* Newton loop out of fuel *)

(** One pass through the body of the time step loop. *)
Definition time_step (s : solver) (h : Hooks) (time_range : list R) (st : State)
  : StepExit * State :=
  let '(st1, brk) := write_output time_range st in
  if brk then (Break, st1)
  else
    match advance s h st1 with
    | (AbortReturn, st2, _, _) => (Return, st2)
    | (OutOfFuel, st2, _, _) => (Stuck, st2)
    | (_, st2, n_iter, res_abs) => (Continue, track s st2 n_iter res_abs)
    end.

Inductive Exit : Type :=
| Finished   (* the time step loop ended *)
| Aborted    (* [return] after the abort statement *)
| Running    (* the fuel given to the time step loop ran out *)
| Diverging.

(** The time step loop. *)
Fixpoint time_loop (s : solver) (h : Hooks) (time_range : list R) (fuel : nat)
    (st : State) : Exit * State :=
  if (time_index st <? List.length time_range)%nat then
    match fuel with
    | O => (Running, st)
    | S fuel' =>
        match time_step s h time_range st with
        | (Continue, st1) => time_loop s h time_range fuel' st1
        | (Break, st1) => (Finished, st1)
        | (Return, st1) => (Aborted, st1)
        | (Stuck, st1) => (Diverging, st1)
        end
    end
  else (Finished, st).

(** The state before the call of [set_parameters]. *)
Definition initial_state (s : solver) : State :=
  let q0 := fst (initial_conditions s) in
  let dq0 := snd (initial_conditions s) in
  {| ms := MechanicalSystem.clear_timesteps (mechanical_system s);
     iteration_info := [];
     t := t0 s;
     q := q0;
     dq := dq0;
     v := if use_v s then dq0 else [];
     ddq := zeros (List.length q0);
     f_ext := zeros (List.length q0);
     abs_f_ext := atol s;
     time_index := 0 |}.

(** [solve(self)]; [fuel] bounds the number of time steps taken. *)
Definition solve (s : solver) (fuel : nat) : result (Exit * State) :=
  time_range <- arange (t0 s) (t_end s) (dt_output s) ;;
  _ <- PyCall.call (set_parameters_sig (cls s)) 1 (keys (options s)) ;;
  let h := set_parameters (cls s) (rho_inf s) (dt s) in
  Ok (time_loop s h time_range fuel (initial_state s)).

End NonlinearDynamicsSolver.

(** [GeneralizedAlphaNonlinearDynamicsSolver]:
    [def set_parameters(self, options)]. *)
Definition GeneralizedAlphaNonlinearDynamicsSolver : NonlinearDynamicsSolver.SolverClass :=
  {| NonlinearDynamicsSolver.set_parameters_sig :=
       {| PyCall.params := ["self"; "options"]; PyCall.var_keyword := false |};
     NonlinearDynamicsSolver.set_parameters := fun rho_inf dt =>
       let p := GeneralizedAlpha.set_parameters rho_inf in
       {| NonlinearDynamicsSolver.predict := GeneralizedAlpha.predict p dt;
          NonlinearDynamicsSolver.newton_raphson := GeneralizedAlpha.newton_raphson p dt;
          NonlinearDynamicsSolver.correct := GeneralizedAlpha.correct p dt |};
     NonlinearDynamicsSolver.class_use_v := false |}.

(** [JWHAlphaNonlinearDynamicsSolver]: [def set_parameters(self, options)]. *)
Definition JWHAlphaNonlinearDynamicsSolver : NonlinearDynamicsSolver.SolverClass :=
  {| NonlinearDynamicsSolver.set_parameters_sig :=
       {| PyCall.params := ["self"; "options"]; PyCall.var_keyword := false |};
     NonlinearDynamicsSolver.set_parameters := fun rho_inf dt =>
       let p := JWHAlpha.set_parameters rho_inf in
       {| NonlinearDynamicsSolver.predict := JWHAlpha.predict p dt;
          NonlinearDynamicsSolver.newton_raphson := JWHAlpha.newton_raphson p dt;
          NonlinearDynamicsSolver.correct := JWHAlpha.correct p dt |};
     NonlinearDynamicsSolver.class_use_v := true |}.

(** ** Constructors of the linear solvers *)

Module LinearStaticsSolver.

Record solver : Type := {
  mechanical_system : MechanicalSystem.system;
  linsolver : LinSolver;
  t : R
}.

(** [__init__(self, mechanical_system, **options)], which starts with
    [super().__init__(mechanical_system, options)]: three positional
    arguments ([self] included) and no keyword. *)
Definition init (ms : MechanicalSystem.system) (PardisoSolver : LinSolver)
    (o : Options) : result solver :=
  _ <- PyCall.call Solver_init_sig 3 [] ;;
  Ok {| mechanical_system := ms;
        linsolver := PardisoSolver;
        t := get (opt_t o) 1.0 |}.

End LinearStaticsSolver.

Module LinearDynamicsSolver.

Record solver : Type := {
  mechanical_system : MechanicalSystem.system;
  linsolver : LinSolver;
  options : Options;
  initial_conditions : Vec * Vec;
  t0 : R;
  t_end : R;
  dt : R;
  dt_output : R;
  verbose : bool;
  use_v : bool
}.

(** [set_initial_conditions(self, **options)] *)
Definition set_initial_conditions_sig : PyCall.signature :=
  {| PyCall.params := ["self"]; PyCall.var_keyword := true |}.

(** The call [self.set_initial_conditions(options['initial_conditions'])]:
    the subscript is evaluated first, its value is then passed as a second
    positional argument. *)
Definition set_initial_conditions_call (ms : MechanicalSystem.system) (o : Options)
  : result (Vec * Vec) :=
  match opt_initial_conditions o with
  | None => Raise KeyError
  | Some _ =>
      _ <- PyCall.call set_initial_conditions_sig 2 [] ;;
      Ok (zeros (MechanicalSystem.no_of_dofs ms), zeros (MechanicalSystem.no_of_dofs ms))
  end.

(** [__init__(self, mechanical_system, **options)] *)
Definition init (ms : MechanicalSystem.system) (PardisoSolver : LinSolver)
    (o : Options) : result solver :=
  _ <- PyCall.call Solver_init_sig 2 (keys o) ;;
  ic <- set_initial_conditions_call ms o ;;
  match opt_dt o with
  | None => Raise ValueError
  | Some dt0 =>
      Ok {| mechanical_system := ms;
            linsolver := get (opt_linsolver o) PardisoSolver;
            options := o;
            initial_conditions := ic;
            t0 := get (opt_t0 o) 0.0;
            t_end := get (opt_t_end o) 1.0;
            dt := dt0;
            dt_output := get (opt_dt_output o) dt0;
            verbose := get (opt_verbose o) false;
            use_v := get (opt_use_v o) false |}
  end.

(** The subclasses' [__init__]: [super().__init__(mechanical_system,
    **options)], then [use_v] and [rho_inf]. *)
Definition subclass_init (class_use_v : bool) (ms : MechanicalSystem.system)
    (PardisoSolver : LinSolver) (o : Options) : result (solver * R) :=
  s <- init ms PardisoSolver o ;;
  Ok ({| mechanical_system := mechanical_system s; linsolver := linsolver s;
         options := options s; initial_conditions := initial_conditions s;
         t0 := t0 s; t_end := t_end s; dt := dt s; dt_output := dt_output s;
         verbose := verbose s; use_v := class_use_v |},
      get (opt_rho_inf o) 0.9).

End LinearDynamicsSolver.

Definition GeneralizedAlphaLinearDynamicsSolver_init :=
  LinearDynamicsSolver.subclass_init false.

Definition JWHAlphaLinearDynamicsSolver_init :=
  LinearDynamicsSolver.subclass_init true.

(** ** The generalized-alpha Jacobian and residual, as the specification words them *)

Module GeneralizedAlphaSpec.

(** [(1 - a) x + a x_old] *)
Definition blend (a : R) (x x_old : Vec) : Vec :=
  vadd (vscale (1 - a) x) (vscale a x_old).

(** [-[(1-alpha_m)/(beta dt^2)] M - (1-alpha_f) [gamma/(beta dt)] D - (1-alpha_f) K],
    without the [D] term when there is no damping operator. *)
Definition Jacobian (p : GeneralizedAlpha.Params) (dt : R)
    (M : Mat) (D : option Mat) (K : Mat) : Mat :=
  let c_M := (1 - GeneralizedAlpha.alpha_m p) / (GeneralizedAlpha.beta p * dt ^ 2) in
  let c_D := GeneralizedAlpha.gamma p / (GeneralizedAlpha.beta p * dt) in
  match D with
  | Some D =>
      msub (msub (mopp (mscale c_M M))
                 (mscale ((1 - GeneralizedAlpha.alpha_f p) * c_D) D))
           (mscale (1 - GeneralizedAlpha.alpha_f p) K)
  | None =>
      msub (mopp (mscale c_M M)) (mscale (1 - GeneralizedAlpha.alpha_f p) K)
  end.

(** [f_ext_f - M ddq_m - D dq_f - f_int_f], without the [D] term when there
    is no damping operator. *)
Definition residual (M : Mat) (D : option Mat) (f_ext_f ddq_m dq_f f_int_f : Vec) : Vec :=
  match D with
  | Some D => vsub (vsub (vsub f_ext_f (matvec M ddq_m)) (matvec D dq_f)) f_int_f
  | None => vsub (vsub f_ext_f (matvec M ddq_m)) f_int_f
  end.

End GeneralizedAlphaSpec.

(** ** A one-degree-of-freedom system, for the examples *)

Module Example.

(** The adapter for one-by-one matrices. *)
Definition scalar_solver : LinSolver :=
  fun A b =>
    match A, b with
    | (a :: _) :: _, [r] => [r / a]
    | _, _ => b
    end.

(** Unit mass, unit linear stiffness, constant external force [force],
    no damping operator. *)
Definition spring (force : R) : MechanicalSystem.system :=
  {| MechanicalSystem.no_of_dofs := 1;
     MechanicalSystem.assemble_M := [[1]];
     MechanicalSystem.M_constr := None;
     MechanicalSystem.D_constr := None;
     MechanicalSystem.K_and_f := fun u _ => ([[1]], get u [0]);
     MechanicalSystem.f_ext := fun _ _ _ => [force];
     MechanicalSystem.timesteps := [] |}.

(** The options [dt], [rtol], [atol], [n_iter_max] and [conv_abort] of a
    dynamics solver, [n_max_iter] and [no_of_load_steps] of a statics
    solver; every other key is absent. *)
Definition some_options (dt rtol atol : option R) (n_iter_max n_max_iter : option Z)
    (conv_abort : option bool) (no_of_load_steps : option Z) : Options :=
  {| opt_linsolver := None;
     opt_no_of_load_steps := no_of_load_steps;
     opt_newton_damping := None;
     opt_n_max_iter := n_max_iter;
     opt_smplfd_nwtn_itr := None;
     opt_save := None;
     opt_initial_conditions := None;
     opt_t0 := None;
     opt_t_end := None;
     opt_dt := dt;
     opt_dt_output := None;
     opt_rtol := rtol;
     opt_atol := atol;
     opt_n_iter_max := n_iter_max;
     opt_conv_abort := conv_abort;
     opt_verbose := None;
     opt_write_iter := None;
     opt_track_niter := None;
     opt_use_v := None;
     opt_rho_inf := None;
     opt_t := None;
     opt_other := [] |}.

End Example.

(** ** Vocabulary for the Newton loop of the statics solver *)

Module StaticsNewton.

Import NonlinearStaticsSolver.

(** [k] passes through the body of the Newton loop, one after the other. *)
Fixpoint iterate (s : solver) (du : Vec) (t : R) (k : nat) (x : Iterate) : result Iterate :=
  match k with
  | O => Ok x
  | S k' => x1 <- newton_iteration s du t x ;; iterate s du t k' x1
  end.

(** The convergence test fails. *)
Definition unconverged (s : solver) (x : Iterate) : Prop :=
  abs_res x > rtol s * abs_f_ext x + atol s.

(** The stiffness, the forces and the residual held in [x] are those of
    the displacement [u_r]. *)
Definition evaluated_at (du : Vec) (t : R) (u_r : Vec) (x : Iterate) : Prop :=
  (K x, f_int x) = MechanicalSystem.K_and_f (ms x) (Some u_r) t /\
  f_ext x = MechanicalSystem.f_ext (ms x) u_r du t /\
  res x = vadd (vopp (f_int x)) (f_ext x).

End StaticsNewton.

(** ** Linear examples for the statics solver *)

Module StaticsExample.

(** [f_int(u) = Kmat u] with constant stiffness [Kmat] and constant
    external force [f]. *)
Definition linear (Kmat : Mat) (f : Vec) : MechanicalSystem.system :=
  {| MechanicalSystem.no_of_dofs := List.length Kmat;
     MechanicalSystem.assemble_M := [];
     MechanicalSystem.M_constr := None;
     MechanicalSystem.D_constr := None;
     MechanicalSystem.K_and_f := fun u _ =>
       (Kmat, matvec Kmat (get u (zeros (List.length Kmat))));
     MechanicalSystem.f_ext := fun _ _ _ => f;
     MechanicalSystem.timesteps := [] |}.

(** Stiffness 2 and force 1 on one degree of freedom, one load step, the
    default tolerances and damping. *)
Definition solver (n_max_iter smplfd_nwtn_itr : Z) (conv_abort : bool)
  : NonlinearStaticsSolver.solver :=
  {| NonlinearStaticsSolver.mechanical_system := linear [[2]] [1];
     NonlinearStaticsSolver.linsolver := Example.scalar_solver;
     NonlinearStaticsSolver.no_of_load_steps := 1;
     NonlinearStaticsSolver.rtol := 1.0E-9;
     NonlinearStaticsSolver.atol := 1.0E-6;
     NonlinearStaticsSolver.newton_damping := 1;
     NonlinearStaticsSolver.n_max_iter := n_max_iter;
     NonlinearStaticsSolver.smplfd_nwtn_itr := smplfd_nwtn_itr;
     NonlinearStaticsSolver.verbose := false;
     NonlinearStaticsSolver.track_niter := false;
     NonlinearStaticsSolver.write_iter := false;
     NonlinearStaticsSolver.conv_abort := conv_abort;
     NonlinearStaticsSolver.save := true |}.

(** The variables of a Newton loop of that system whose counter is
    [n_iter], whose displacement is [u] and whose stiffness and forces
    were evaluated at [u_r]. *)
Definition iterate_at (u_r u : Vec) (n_iter : Z) : NonlinearStaticsSolver.Iterate :=
  let m := linear [[2]] [1] in
  let f_int := snd (MechanicalSystem.K_and_f m (Some u_r) 1) in
  let f_ext := MechanicalSystem.f_ext m u_r [0] 1 in
  {| NonlinearStaticsSolver.ms := m;
     NonlinearStaticsSolver.u := u;
     NonlinearStaticsSolver.K := fst (MechanicalSystem.K_and_f m (Some u_r) 1);
     NonlinearStaticsSolver.f_int := f_int;
     NonlinearStaticsSolver.f_ext := f_ext;
     NonlinearStaticsSolver.res := vadd (vopp f_int) f_ext;
     NonlinearStaticsSolver.abs_res := norm_of_vector (vadd (vopp f_int) f_ext);
     NonlinearStaticsSolver.abs_f_ext := norm_of_vector f_ext;
     NonlinearStaticsSolver.n_iter := n_iter |}.

End StaticsExample.

(** ** The linear static problem *)

Module LinearStatics.

Import NonlinearStaticsSolver.

(** [f_int(u) = Kmat u] with constant [Kmat], a constant external force
    [f] that is not zero and fails the convergence test, one load step, no
    damping of the Newton step, and an adapter that solves exactly:
    [Kinv] is the inverse of [Kmat]. *)
Definition linear_static_problem (s : solver) (Kmat Kinv : Mat) (f : Vec) : Prop :=
  (forall u t, MechanicalSystem.K_and_f (mechanical_system s) u t =
               (Kmat, matvec Kmat (get u (zeros (List.length Kmat))))) /\
  (forall u du t, MechanicalSystem.f_ext (mechanical_system s) u du t = f) /\
  List.length f = List.length Kmat /\
  List.length Kinv = List.length Kmat /\
  (forall b, List.length b = List.length Kmat ->
             linsolver s Kmat b = matvec Kinv b /\ matvec Kmat (matvec Kinv b) = b) /\
  0 < norm_of_vector f /\
  norm_of_vector f > rtol s * norm_of_vector f + atol s /\
  no_of_load_steps s = 1%Z /\
  newton_damping s = 1.

(** The mechanical system and the load factor of the single load step. *)
Definition system_of_step (s : solver) (n : nat) : MechanicalSystem.system :=
  MechanicalSystem.write_timestep
    (MechanicalSystem.clear_timesteps (mechanical_system s)) 0.0 (zeros n).

Definition load_factor : R := 1 / IZR 1 + INR 0 * (1 / IZR 1).

(** The Newton loop of the single load step ends after exactly one
    iteration, and the solve returns the one column [Kinv f]. *)
Definition one_iteration_solution (s : solver) (Kmat Kinv : Mat) (f : Vec) : Prop :=
  let n := List.length Kmat in
  (exists x,
     newton_loop s (zeros n) load_factor (Z.to_nat (n_max_iter s))
       (enter_step (system_of_step s n) (zeros n) (zeros n) load_factor) = Ok (LoopEnd, x) /\
     n_iter x = 1%Z /\ u x = matvec Kinv f) /\
  (exists o, solve s = Ok o /\ exit o = Finished /\ u_output o = [matvec Kinv f]).

End LinearStatics.

(** ** Vocabulary for the time step loop *)

Module Dynamics.

Import NonlinearDynamicsSolver.

(** [newton_raphson] leaves the recorded time steps alone. *)
Definition keeps_timesteps (h : Hooks) : Prop :=
  forall m q dq v ddq t q_old dq_old v_old ddq_old t_old,
    MechanicalSystem.timesteps
      (fst (newton_raphson h m q dq v ddq t q_old dq_old v_old ddq_old t_old)) =
    MechanicalSystem.timesteps m.

(** The external force that [newton_raphson] returns after the prediction
    of the time step that starts in [st]. *)
Definition predicted_f_ext (s : solver) (h : Hooks) (st : State) : Vec :=
  let '(q1, dq1, v1, ddq1) := predict h (q st) (dq st) (v st) (ddq st) in
  let '(_, (_, _, f_ext1)) :=
    newton_raphson h (ms st) q1 dq1 v1 ddq1 (t st + dt s)
      (q st) (dq st) (v st) (ddq st) (t st) in
  f_ext1.

(** The residual that [newton_raphson] returns after that prediction. *)
Definition predicted_res (s : solver) (h : Hooks) (st : State) : Vec :=
  let '(q1, dq1, v1, ddq1) := predict h (q st) (dq st) (v st) (ddq st) in
  let '(_, (_, res, _)) :=
    newton_raphson h (ms st) q1 dq1 v1 ddq1 (t st + dt s)
      (q st) (dq st) (v st) (ddq st) (t st) in
  res.

(** The states met at the top of the time step loop. *)
Inductive reached (s : solver) (h : Hooks) (time_range : list R) : State -> Prop :=
| reached_initial : reached s h time_range (initial_state s)
| reached_next (st st1 : State) :
    reached s h time_range st ->
    (time_index st < List.length time_range)%nat ->
    time_step s h time_range st = (Continue, st1) ->
    reached s h time_range st1.

(** A time and displacement are accepted when they are the initial ones
    or those with which the Newton loop of a time step converged. *)
Definition accepted (s : solver) (h : Hooks) (time_range : list R) (p : R * Vec) : Prop :=
  p = (t (initial_state s), q (initial_state s)) \/
  exists st st1 n_iter res_abs,
    reached s h time_range st /\
    advance s h (fst (write_output time_range st)) = (Converged, st1, n_iter, res_abs) /\
    p = (t st1, q st1).

End Dynamics.

(** ** A spring under the generalized-alpha methods *)

Module DynamicsExample.

(** A subclass with the generalized-alpha methods whose [set_parameters]
    is declared as the base class declares it,
    [def set_parameters(self, **options)], so that [solve] can call it. *)
Definition GeneralizedAlphaKeywords : NonlinearDynamicsSolver.SolverClass :=
  {| NonlinearDynamicsSolver.set_parameters_sig :=
       {| PyCall.params := ["self"]; PyCall.var_keyword := true |};
     NonlinearDynamicsSolver.set_parameters :=
       NonlinearDynamicsSolver.set_parameters GeneralizedAlphaNonlinearDynamicsSolver;
     NonlinearDynamicsSolver.class_use_v := false |}.

(** Unit mass and stiffness under the constant force [force], starting at
    rest, with [dt = 1], [dt_output = 0.5], [rho_inf = 1]. *)
Definition solver (force rtol atol : R) (n_iter_max : Z) (conv_abort : bool)
  : NonlinearDynamicsSolver.solver :=
  {| NonlinearDynamicsSolver.cls := GeneralizedAlphaKeywords;
     NonlinearDynamicsSolver.mechanical_system := Example.spring force;
     NonlinearDynamicsSolver.linsolver := Example.scalar_solver;
     NonlinearDynamicsSolver.options :=
       Example.some_options (Some 1) (Some rtol) (Some atol) (Some n_iter_max) None
         (Some conv_abort) None;
     NonlinearDynamicsSolver.initial_conditions := ([0], [0]);
     NonlinearDynamicsSolver.t0 := 0;
     NonlinearDynamicsSolver.t_end := 1;
     NonlinearDynamicsSolver.dt := 1;
     NonlinearDynamicsSolver.dt_output := 0.5;
     NonlinearDynamicsSolver.rtol := rtol;
     NonlinearDynamicsSolver.atol := atol;
     NonlinearDynamicsSolver.n_iter_max := n_iter_max;
     NonlinearDynamicsSolver.conv_abort := conv_abort;
     NonlinearDynamicsSolver.verbose := false;
     NonlinearDynamicsSolver.write_iter := false;
     NonlinearDynamicsSolver.track_niter := false;
     NonlinearDynamicsSolver.use_v := false;
     NonlinearDynamicsSolver.rho_inf := 1 |}.

(** The methods after [set_parameters]. *)
Definition hooks (s : NonlinearDynamicsSolver.solver) : NonlinearDynamicsSolver.Hooks :=
  NonlinearDynamicsSolver.set_parameters (NonlinearDynamicsSolver.cls s)
    (NonlinearDynamicsSolver.rho_inf s) (NonlinearDynamicsSolver.dt s).

End DynamicsExample.

(** ** Vocabulary for the output of the statics solver *)

Module StaticsOutput.

Import NonlinearStaticsSolver.

(** [u1] is the displacement with which the Newton loop of some load step
    ended, the convergence test being satisfied. *)
Definition converged_displacement (s : solver) (du : Vec) (u1 : Vec) : Prop :=
  exists m u0 t x,
    newton_loop s du t (Z.to_nat (n_max_iter s)) (enter_step m u0 du t) = Ok (LoopEnd, x) /\
    u x = u1 /\
    ~ StaticsNewton.unconverged s x.

End StaticsOutput.

(** ** Further examples *)

Module MoreExamples.

(** The statics example with another number of load steps. *)
Definition statics_with_load_steps (n : Z) (s : NonlinearStaticsSolver.solver)
  : NonlinearStaticsSolver.solver :=
  {| NonlinearStaticsSolver.mechanical_system := NonlinearStaticsSolver.mechanical_system s;
     NonlinearStaticsSolver.linsolver := NonlinearStaticsSolver.linsolver s;
     NonlinearStaticsSolver.no_of_load_steps := n;
     NonlinearStaticsSolver.rtol := NonlinearStaticsSolver.rtol s;
     NonlinearStaticsSolver.atol := NonlinearStaticsSolver.atol s;
     NonlinearStaticsSolver.newton_damping := NonlinearStaticsSolver.newton_damping s;
     NonlinearStaticsSolver.n_max_iter := NonlinearStaticsSolver.n_max_iter s;
     NonlinearStaticsSolver.smplfd_nwtn_itr := NonlinearStaticsSolver.smplfd_nwtn_itr s;
     NonlinearStaticsSolver.verbose := NonlinearStaticsSolver.verbose s;
     NonlinearStaticsSolver.track_niter := NonlinearStaticsSolver.track_niter s;
     NonlinearStaticsSolver.write_iter := NonlinearStaticsSolver.write_iter s;
     NonlinearStaticsSolver.conv_abort := NonlinearStaticsSolver.conv_abort s;
     NonlinearStaticsSolver.save := NonlinearStaticsSolver.save s |}.

End MoreExamples.

(** ** Vocabulary for the time integration schemes *)

Module Schemes.

(** The Newmark relations between the variables at the start of a time
    step and the current ones:
    [q = q_old + dt dq_old + dt^2 ((1/2 - beta) ddq_old + beta ddq)] and
    [dq = dq_old + dt ((1 - gamma) ddq_old + gamma ddq)]. *)
Definition newmark (p : GeneralizedAlpha.Params) (dt : R)
    (q_old dq_old ddq_old q dq ddq : Vec) : Prop :=
  q = vadd q_old
        (vadd (vscale dt dq_old)
              (vscale (dt ^ 2)
                 (vadd (vscale (1 / 2 - GeneralizedAlpha.beta p) ddq_old)
                       (vscale (GeneralizedAlpha.beta p) ddq)))) /\
  dq = vadd dq_old
         (vscale dt (vadd (vscale (1 - GeneralizedAlpha.gamma p) ddq_old)
                          (vscale (GeneralizedAlpha.gamma p) ddq))).

(** The relations of the JWH-alpha scheme, which integrates [q] with its
    rate [dq] and the velocity [v] with its rate [ddq], and equates the
    rate of [q] at its intermediate point with the velocity at its own:
    [q = q_old + dt ((1 - gamma) dq_old + gamma dq)],
    [v = v_old + dt ((1 - gamma) ddq_old + gamma ddq)] and
    [alpha_m dq + (1 - alpha_m) dq_old = alpha_f v + (1 - alpha_f) v_old]. *)
Definition jwh_relations (p : JWHAlpha.Params) (dt : R)
    (q_old dq_old v_old ddq_old q dq v ddq : Vec) : Prop :=
  q = vadd q_old
        (vscale dt (vadd (vscale (1 - JWHAlpha.gamma p) dq_old)
                         (vscale (JWHAlpha.gamma p) dq))) /\
  v = vadd v_old
        (vscale dt (vadd (vscale (1 - JWHAlpha.gamma p) ddq_old)
                         (vscale (JWHAlpha.gamma p) ddq))) /\
  vadd (vscale (JWHAlpha.alpha_m p) dq) (vscale (1 - JWHAlpha.alpha_m p) dq_old) =
  vadd (vscale (JWHAlpha.alpha_f p) v) (vscale (1 - JWHAlpha.alpha_f p) v_old).

End Schemes.

(** ** Further examples for the dynamics solver *)

Module MoreDynamicsExamples.

(** An adapter for systems with one degree of freedom that divides the
    first entry of the right-hand side by the first entry of the matrix. *)
Definition first_entry_solver : LinSolver :=
  fun A b => [nth 0 b 0 / nth 0 (nth 0 A []) 0].

(** The solver [s] with another linear-solve adapter. *)
Definition with_linsolver (l : LinSolver) (s : NonlinearDynamicsSolver.solver)
  : NonlinearDynamicsSolver.solver :=
  {| NonlinearDynamicsSolver.cls := NonlinearDynamicsSolver.cls s;
     NonlinearDynamicsSolver.mechanical_system := NonlinearDynamicsSolver.mechanical_system s;
     NonlinearDynamicsSolver.linsolver := l;
     NonlinearDynamicsSolver.options := NonlinearDynamicsSolver.options s;
     NonlinearDynamicsSolver.initial_conditions := NonlinearDynamicsSolver.initial_conditions s;
     NonlinearDynamicsSolver.t0 := NonlinearDynamicsSolver.t0 s;
     NonlinearDynamicsSolver.t_end := NonlinearDynamicsSolver.t_end s;
     NonlinearDynamicsSolver.dt := NonlinearDynamicsSolver.dt s;
     NonlinearDynamicsSolver.dt_output := NonlinearDynamicsSolver.dt_output s;
     NonlinearDynamicsSolver.rtol := NonlinearDynamicsSolver.rtol s;
     NonlinearDynamicsSolver.atol := NonlinearDynamicsSolver.atol s;
     NonlinearDynamicsSolver.n_iter_max := NonlinearDynamicsSolver.n_iter_max s;
     NonlinearDynamicsSolver.conv_abort := NonlinearDynamicsSolver.conv_abort s;
     NonlinearDynamicsSolver.verbose := NonlinearDynamicsSolver.verbose s;
     NonlinearDynamicsSolver.write_iter := NonlinearDynamicsSolver.write_iter s;
     NonlinearDynamicsSolver.track_niter := NonlinearDynamicsSolver.track_niter s;
     NonlinearDynamicsSolver.use_v := NonlinearDynamicsSolver.use_v s;
     NonlinearDynamicsSolver.rho_inf := NonlinearDynamicsSolver.rho_inf s |}.

(** The spring of [DynamicsExample] with that adapter. *)
Definition solver : NonlinearDynamicsSolver.solver :=
  with_linsolver first_entry_solver (DynamicsExample.solver 1 1.0E-9 1.0E-6 30 true).

(** The spring at rest with a velocity array, as a scheme that uses [v]
    starts from. *)
Definition at_rest_with_v : NonlinearDynamicsSolver.State :=
  {| NonlinearDynamicsSolver.ms := Example.spring 1;
     NonlinearDynamicsSolver.iteration_info := [];
     NonlinearDynamicsSolver.t := 0;
     NonlinearDynamicsSolver.q := [0];
     NonlinearDynamicsSolver.dq := [0];
     NonlinearDynamicsSolver.v := [0];
     NonlinearDynamicsSolver.ddq := [0];
     NonlinearDynamicsSolver.f_ext := [0];
     NonlinearDynamicsSolver.abs_f_ext := 1.0E-6;
     NonlinearDynamicsSolver.time_index := 0 |}.

End MoreDynamicsExamples.

(** ** Linear mechanical systems *)

Module LinearSystems.

(** An [n] by [n] matrix. *)
Definition square (n : nat) (A : Mat) : Prop :=
  List.length A = n /\ Forall (fun r => List.length r = n) A.

(** A system with [n] degrees of freedom whose stiffness matrix is the
    constant [K], whose internal force is [K u] and whose external force
    [fe t] depends on the time alone. *)
Definition linear_system (n : nat) (ms : MechanicalSystem.system) (K : Mat)
    (fe : R -> Vec) : Prop :=
  square n (MechanicalSystem.the_M (MechanicalSystem.ensure_M ms)) /\
  square n K /\
  (forall D, MechanicalSystem.D_constr ms = Some D -> square n D) /\
  (forall u t, List.length u = n ->
               MechanicalSystem.K_and_f ms (Some u) t = (K, matvec K u)) /\
  (forall u du t, MechanicalSystem.f_ext ms u du t = fe t) /\
  (forall t, List.length (fe t) = n).

End LinearSystems.

(** ** [choose_solver] *)

Module ChooseSolver.

(** Reading a local variable that was never assigned raises
    [UnboundLocalError]; the other exceptions are those of the solvers. *)
Inductive error : Type :=
| UnboundLocalError
| Exception (e : exn).

Inductive outcome (A : Type) : Type :=
| Returned (a : A)
| Raised (e : error).

Arguments Returned {A} a.
Arguments Raised {A} e.

(** The keys of [solvers_available].  Each of the six classes declares
    [__init__(self, mechanical_system, **options)]. *)
Definition solvers_available : list string :=
  ["NonlinearStatics"; "LinearStatics"; "NonlinearGeneralizedAlpha";
   "NonlinearJWHAlpha"; "LinearGeneralizedAlpha"; "LinearJWHAlpha"].

Section Classes.

(** The solver objects, and the body of the constructor of the class
    stored under a key, run once the arguments of the call are bound. *)
Variable Instance : Type.
Variable construct : string -> Options -> result Instance.

(** [choose_solver(mechanical_system, **options)]:
    [type_is_MechanicalSystem] is the outcome of
    [type(mechanical_system) == MechanicalSystem], [solvertype] the entry
    ['solvertype'] of [options] and [o] its other entries.  The class is
    called with the keywords alone, [self] being its only positional
    argument. *)
Definition choose_solver (type_is_MechanicalSystem : bool) (solvertype : option string)
    (o : Options) : outcome Instance :=
  let assigned :=
    if type_is_MechanicalSystem then
      match solvertype with
      | Some name => Returned (Some name)
      | None => Raised (Exception KeyError)
      end
    else Returned None in
  match assigned with
  | Raised e => Raised e
  | Returned None => Raised UnboundLocalError
  | Returned (Some name) =>
      if PyCall.mem name solvers_available then
        match PyCall.call Solver_init_sig 1 (key "solvertype" solvertype ++ keys o) with
        | Raise e => Raised (Exception e)
        | Ok _ =>
            match construct name o with
            | Ok solver => Returned solver
            | Raise e => Raised (Exception e)
            end
        end
      else Raised (Exception KeyError)
  end.

End Classes.

End ChooseSolver.

(** ** The linear time integration schemes *)

(** The methods of [GeneralizedAlphaLinearDynamicsSolver] and
    [JWHAlphaLinearDynamicsSolver] read [alpha_m], [alpha_f], [beta],
    [gamma] and [dt] from the solver and the matrices [M_constr],
    [D_constr] and [K_constr] from the mechanical system, where
    [effective_stiffness] stores them; here they are arguments. *)

Module LinearSchemes.

Definition madd (A B : Mat) : Mat := mzip_with Rplus A B.

End LinearSchemes.

Module GeneralizedAlphaLinear.

Import GeneralizedAlpha LinearSchemes.

(** [effective_stiffness(self)] *)
Definition effective_stiffness (p : Params) (dt : R) (M D K : Mat) : Mat :=
  madd (madd (mscale ((1 - alpha_m p) / (beta p * dt ^ 2)) M)
             (mscale ((1 - alpha_f p) * gamma p / (beta p * dt)) D))
       (mscale (1 - alpha_f p) K).

(** [update(self, q, q_old, dq_old, v_old, ddq_old)], which returns
    [dq, v, ddq]. *)
Definition update (p : Params) (dt : R) (q q_old dq_old v_old ddq_old : Vec)
  : Vec * Vec * Vec :=
  let ddq := vsub (vsub (vscale (1 / (beta p * dt ^ 2)) (vsub q q_old))
                        (vscale (1 / (beta p * dt)) dq_old))
                  (vscale ((0.5 - beta p) / beta p) ddq_old) in
  let v : Vec := [] in
  let dq := vadd dq_old
              (vscale dt (vadd (vscale (1 - gamma p) ddq_old) (vscale (gamma p) ddq))) in
  (dq, v, ddq).

End GeneralizedAlphaLinear.

Module JWHAlphaLinear.

Import JWHAlpha LinearSchemes.

(** [effective_stiffness(self)] *)
Definition effective_stiffness (p : Params) (dt : R) (M D K : Mat) : Mat :=
  madd (madd (mscale (alpha_m p ^ 2 / (alpha_f p * gamma p ^ 2 * dt ^ 2)) M)
             (mscale (alpha_m p / (gamma p * dt)) D))
       (mscale (alpha_f p) K).

(** [effective_force(self, q_old, dq_old, v_old, ddq_old, t, t_old)];
    [f_ext t_f] is [mechanical_system.f_ext(None, None, t_f)]. *)
Definition effective_force (p : Params) (dt : R) (M D K : Mat) (f_ext : R -> Vec)
    (q_old dq_old v_old ddq_old : Vec) (t t_old : R) : Vec :=
  let t_f := alpha_f p * t + (1 - alpha_f p) * t_old in
  let f_ext_f := f_ext t_f in
  vadd
    (vadd
       (vadd
          (vadd
             (matvec
                (madd (madd (mscale (- (1 - alpha_f p)) K)
                            (mscale (alpha_m p / (gamma p * dt)) D))
                      (mscale (alpha_m p ^ 2 / (alpha_f p * gamma p ^ 2 * dt ^ 2)) M))
                q_old)
             (matvec
                (msub (mscale (- (gamma p - alpha_m p) / gamma p) D)
                      (mscale (alpha_m p * (gamma p - alpha_m p)
                               / (alpha_f p * gamma p ^ 2 * dt)) M))
                dq_old))
          (matvec (mscale (alpha_m p / (alpha_f p * gamma p * dt)) M) v_old))
       (matvec (mscale (- (gamma p - alpha_m p) / gamma p) M) ddq_old))
    f_ext_f.

(** [update(self, q, q_old, dq_old, v_old, ddq_old)], which returns
    [dq, v, ddq]. *)
Definition update (p : Params) (dt : R) (q q_old dq_old v_old ddq_old : Vec)
  : Vec * Vec * Vec :=
  let dq := vadd (vscale (1 / (gamma p * dt)) (vsub q q_old))
                 (vscale ((gamma p - 1) / gamma p) dq_old) in
  let v := vadd (vadd (vscale (alpha_m p / alpha_f p) dq)
                      (vscale ((1 - alpha_m p) / alpha_f p) dq_old))
                (vscale ((alpha_f p - 1) / alpha_f p) v_old) in
  let ddq := vadd (vscale (1 / (gamma p * dt)) (vsub v v_old))
                  (vscale ((gamma p - 1) / gamma p) ddq_old) in
  (dq, v, ddq).

End JWHAlphaLinear.

(** ** A damped one-degree-of-freedom system *)

Module DampedExample.

(** Unit mass, unit damping, unit linear stiffness, constant external
    force [force]. *)
Definition damped_spring (force : R) : MechanicalSystem.system :=
  {| MechanicalSystem.no_of_dofs := 1;
     MechanicalSystem.assemble_M := [[1]];
     MechanicalSystem.M_constr := None;
     MechanicalSystem.D_constr := Some [[1]];
     MechanicalSystem.K_and_f := fun u _ => ([[1]], get u [0]);
     MechanicalSystem.f_ext := fun _ _ _ => [force];
     MechanicalSystem.timesteps := [] |}.

End DampedExample.

(** ** Systems that differ in their records only *)

Module SameSystem.

(** [m'] has the matrices and forces of [m]; the recorded time steps and
    whether the mass matrix is cached may differ. *)
Definition same_system (m m' : MechanicalSystem.system) : Prop :=
  MechanicalSystem.K_and_f m' = MechanicalSystem.K_and_f m /\
  MechanicalSystem.f_ext m' = MechanicalSystem.f_ext m /\
  MechanicalSystem.D_constr m' = MechanicalSystem.D_constr m /\
  MechanicalSystem.the_M (MechanicalSystem.ensure_M m') =
  MechanicalSystem.the_M (MechanicalSystem.ensure_M m).

End SameSystem.

(** * Properties *)

(** ** Arrays *)

Section ArrayFacts.

Lemma vscale_ext (c d : R) (x : Vec) : c = d -> vscale c x = vscale d x.
Proof. intros ->; reflexivity. Qed.

Lemma vscale_opp (c : R) (x : Vec) : vscale (- c) x = vopp (vscale c x).
Proof.
  unfold vscale, vopp. rewrite map_map.
  apply map_ext; intros a; ring.
Qed.

Lemma mscale_opp (c : R) (A : Mat) : mscale (- c) A = mopp (mscale c A).
Proof.
  unfold mscale, mopp. rewrite map_map.
  apply map_ext; intros r; apply vscale_opp.
Qed.

Lemma vscale_1 (x : Vec) : vscale 1 x = x.
Proof.
  unfold vscale. rewrite <- (map_id x) at 2.
  apply map_ext; intros a; ring.
Qed.

Lemma zeros_length (n : nat) : List.length (zeros n) = n.
Proof. apply repeat_length. Qed.

Lemma vadd_zeros_l (x : Vec) : vadd (zeros (List.length x)) x = x.
Proof.
  induction x as [|a x IH]; [reflexivity|].
  unfold vadd, zeros in *; simpl. f_equal; [ring | exact IH].
Qed.

Lemma vadd_opp_self (x : Vec) : vadd (vopp x) x = zeros (List.length x).
Proof.
  induction x as [|a x IH]; [reflexivity|].
  unfold vadd, vopp, zeros in *; simpl. f_equal; [ring | exact IH].
Qed.

Lemma vopp_zeros (n : nat) : vopp (zeros n) = zeros n.
Proof.
  induction n as [|n IH]; [reflexivity|].
  unfold vopp, zeros in *; simpl. f_equal; [ring | exact IH].
Qed.

Lemma dot_zeros (n : nat) : dot (zeros n) (zeros n) = 0.
Proof.
  induction n as [|n IH]; [reflexivity|].
  unfold zeros in *; simpl. rewrite IH; ring.
Qed.

Lemma dot_self_nonneg (x : Vec) : 0 <= dot x x.
Proof.
  induction x as [|a x IH]; simpl; [lra|].
  pose proof (Rle_0_sqr a) as Ha. unfold Rsqr in Ha. lra.
Qed.

Lemma norm_of_vector_nonneg (x : Vec) : 0 <= norm_of_vector x.
Proof. apply sqrt_pos. Qed.

Lemma norm_of_vector_zeros (n : nat) : norm_of_vector (zeros n) = 0.
Proof. unfold norm_of_vector. rewrite dot_zeros. apply sqrt_0. Qed.

Lemma norm_of_vector_singleton (a : R) : norm_of_vector [a] = Rabs a.
Proof.
  unfold norm_of_vector; simpl.
  replace (a * a + 0) with (Rsqr a) by (unfold Rsqr; ring).
  apply sqrt_Rsqr_abs.
Qed.

Lemma matvec_length (A : Mat) (x : Vec) : List.length (matvec A x) = List.length A.
Proof. apply length_map. Qed.

End ArrayFacts.

Lemma Rgtb_true_iff (a b : R) : Rgtb a b = true <-> a > b.
Proof. unfold Rgtb; destruct (Rgt_dec a b); split; intros; congruence || assumption. Qed.

Lemma Rgtb_false_iff (a b : R) : Rgtb a b = false <-> ~ a > b.
Proof. unfold Rgtb; destruct (Rgt_dec a b); split; intros; congruence || tauto. Qed.

Lemma Rgeb_true_iff (a b : R) : Rgeb a b = true <-> a >= b.
Proof. unfold Rgeb; destruct (Rge_dec a b); split; intros; congruence || assumption. Qed.

Lemma Rgeb_false_iff (a b : R) : Rgeb a b = false <-> ~ a >= b.
Proof. unfold Rgeb; destruct (Rge_dec a b); split; intros; congruence || tauto. Qed.

(** ** Scheme coefficients at [rho_inf = 1] *)

Lemma generalized_alpha_parameters_1 :
  GeneralizedAlpha.set_parameters 1 =
    {| GeneralizedAlpha.alpha_m := 0.5; GeneralizedAlpha.alpha_f := 0.5;
       GeneralizedAlpha.beta := 0.25; GeneralizedAlpha.gamma := 0.5 |}.
Proof. unfold GeneralizedAlpha.set_parameters. f_equal; lra. Qed.

(** C4, as stated, fails: at [rho_inf = 1] the generalized-alpha
    [set_parameters] does not give [alpha_m = 0], [alpha_f = 0],
    [beta = 0.25], [gamma = 0.5]. *)
Lemma set_parameters_rho_1_not_newmark :
  ~ (let p := GeneralizedAlpha.set_parameters 1 in
     GeneralizedAlpha.alpha_m p = 0 /\ GeneralizedAlpha.alpha_f p = 0 /\
     GeneralizedAlpha.beta p = 0.25 /\ GeneralizedAlpha.gamma p = 0.5).
Proof.
  unfold GeneralizedAlpha.set_parameters; simpl.
  intros [H _]. lra.
Qed.

(** C4, amended: at [rho_inf = 1] both [set_parameters] give
    [alpha_m = alpha_f = 0.5] and [gamma = 0.5]; the generalized-alpha one
    gives [beta = 0.25], the JWH-alpha one sets no [beta]. *)
Theorem set_parameters_rho_1 :
  GeneralizedAlpha.set_parameters 1 =
    {| GeneralizedAlpha.alpha_m := 0.5; GeneralizedAlpha.alpha_f := 0.5;
       GeneralizedAlpha.beta := 0.25; GeneralizedAlpha.gamma := 0.5 |} /\
  JWHAlpha.set_parameters 1 =
    {| JWHAlpha.alpha_m := 0.5; JWHAlpha.alpha_f := 0.5; JWHAlpha.gamma := 0.5 |}.
Proof.
  unfold GeneralizedAlpha.set_parameters, JWHAlpha.set_parameters.
  split; f_equal; lra.
Qed.

(** ** Jacobian and residual of the generalized-alpha scheme *)

Lemma D_constr_ensure_M (ms : MechanicalSystem.system) :
  MechanicalSystem.D_constr (MechanicalSystem.ensure_M ms) = MechanicalSystem.D_constr ms.
Proof. unfold MechanicalSystem.ensure_M; destruct (MechanicalSystem.M_constr ms); reflexivity. Qed.

Lemma the_M_ensure_M (ms : MechanicalSystem.system) :
  MechanicalSystem.the_M (MechanicalSystem.ensure_M ms) =
  match MechanicalSystem.M_constr ms with
  | Some m => m
  | None => MechanicalSystem.assemble_M ms
  end.
Proof.
  unfold MechanicalSystem.ensure_M, MechanicalSystem.the_M.
  destruct (MechanicalSystem.M_constr ms) eqn:E; simpl; [rewrite E|]; reflexivity.
Qed.

(** C5: [newton_raphson] of the generalized-alpha solver evaluates the
    system at the alpha-blended state and returns the Jacobian
    [-[(1-alpha_m)/(beta dt^2)] M - (1-alpha_f)[gamma/(beta dt)] D - (1-alpha_f) K(q_f,t_f)]
    and the residual [f_ext(q_f,dq_f,t_f) - M ddq_m - D dq_f - f_int(q_f,t_f)];
    with [D_constr = None] both [D] terms are left out. *)
Theorem newton_raphson_generalized_alpha
    (p : GeneralizedAlpha.Params) (dt : R) (ms : MechanicalSystem.system)
    (q dq v ddq : Vec) (t : R) (q_old dq_old v_old ddq_old : Vec) (t_old : R) :
  let ms' := MechanicalSystem.ensure_M ms in
  let M := MechanicalSystem.the_M ms' in
  let D := MechanicalSystem.D_constr ms in
  let q_f := GeneralizedAlphaSpec.blend (GeneralizedAlpha.alpha_f p) q q_old in
  let dq_f := GeneralizedAlphaSpec.blend (GeneralizedAlpha.alpha_f p) dq dq_old in
  let t_f := (1 - GeneralizedAlpha.alpha_f p) * t + GeneralizedAlpha.alpha_f p * t_old in
  let ddq_m := GeneralizedAlphaSpec.blend (GeneralizedAlpha.alpha_m p) ddq ddq_old in
  let K_f := fst (MechanicalSystem.K_and_f ms' (Some q_f) t_f) in
  let f_int_f := snd (MechanicalSystem.K_and_f ms' (Some q_f) t_f) in
  let f_ext_f := MechanicalSystem.f_ext ms' q_f dq_f t_f in
  GeneralizedAlpha.newton_raphson p dt ms q dq v ddq t q_old dq_old v_old ddq_old t_old =
    (ms', (GeneralizedAlphaSpec.Jacobian p dt M D K_f,
           GeneralizedAlphaSpec.residual M D f_ext_f ddq_m dq_f f_int_f,
           f_ext_f)) /\
  (D = None ->
   GeneralizedAlphaSpec.Jacobian p dt M D K_f =
     msub (mopp (mscale ((1 - GeneralizedAlpha.alpha_m p) / (GeneralizedAlpha.beta p * dt ^ 2)) M))
          (mscale (1 - GeneralizedAlpha.alpha_f p) K_f) /\
   GeneralizedAlphaSpec.residual M D f_ext_f ddq_m dq_f f_int_f =
     vsub (vsub f_ext_f (matvec M ddq_m)) f_int_f).
Proof.
  intros ms' M D q_f dq_f t_f ddq_m K_f f_int_f f_ext_f.
  split.
  - unfold GeneralizedAlpha.newton_raphson.
    fold ms'. fold (GeneralizedAlphaSpec.blend (GeneralizedAlpha.alpha_f p) q q_old).
    fold q_f. fold (GeneralizedAlphaSpec.blend (GeneralizedAlpha.alpha_f p) dq dq_old).
    fold dq_f. fold t_f.
    fold (GeneralizedAlphaSpec.blend (GeneralizedAlpha.alpha_m p) ddq ddq_old).
    fold ddq_m. fold M.
    subst K_f f_int_f.
    destruct (MechanicalSystem.K_and_f ms' (Some q_f) t_f) as [K_f f_f]; simpl fst; simpl snd.
    unfold ms' at 1. rewrite D_constr_ensure_M. fold D. fold f_ext_f.
    assert (HM : mscale (- (1 - GeneralizedAlpha.alpha_m p) / (GeneralizedAlpha.beta p * dt ^ 2)) M =
                 mopp (mscale ((1 - GeneralizedAlpha.alpha_m p) / (GeneralizedAlpha.beta p * dt ^ 2)) M)).
    { rewrite <- mscale_opp. f_equal. unfold Rdiv; ring. }
    unfold GeneralizedAlphaSpec.Jacobian, GeneralizedAlphaSpec.residual.
    destruct D as [Dm|]; rewrite HM; [|reflexivity].
    replace ((1 - GeneralizedAlpha.alpha_f p) * GeneralizedAlpha.gamma p /
             (GeneralizedAlpha.beta p * dt))
      with ((1 - GeneralizedAlpha.alpha_f p) *
            (GeneralizedAlpha.gamma p / (GeneralizedAlpha.beta p * dt)))
      by (unfold Rdiv; ring).
    reflexivity.
  - intros HD. rewrite HD. split; reflexivity.
Qed.

(** An undamped one-degree-of-freedom system. *)
Lemma newton_raphson_generalized_alpha_witness :
  let ms := {| MechanicalSystem.no_of_dofs := 1;
               MechanicalSystem.assemble_M := [[1]];
               MechanicalSystem.M_constr := None;
               MechanicalSystem.D_constr := None;
               MechanicalSystem.K_and_f := fun u _ => ([[1]], get u [0]);
               MechanicalSystem.f_ext := fun _ _ _ => [1];
               MechanicalSystem.timesteps := [] |} in
  MechanicalSystem.D_constr ms = None /\
  snd (GeneralizedAlpha.newton_raphson (GeneralizedAlpha.set_parameters 1) 1 ms
         [0] [0] [] [0] 1 [0] [0] [] [0] 0) =
    (GeneralizedAlphaSpec.Jacobian (GeneralizedAlpha.set_parameters 1) 1 [[1]] None [[1]],
     GeneralizedAlphaSpec.residual [[1]] None [1]
       (GeneralizedAlphaSpec.blend (GeneralizedAlpha.alpha_m (GeneralizedAlpha.set_parameters 1)) [0] [0])
       (GeneralizedAlphaSpec.blend (GeneralizedAlpha.alpha_f (GeneralizedAlpha.set_parameters 1)) [0] [0])
       (GeneralizedAlphaSpec.blend (GeneralizedAlpha.alpha_f (GeneralizedAlpha.set_parameters 1)) [0] [0]),
     [1]).
Proof.
  intros ms. split; [reflexivity|].
  pose proof (newton_raphson_generalized_alpha (GeneralizedAlpha.set_parameters 1) 1 ms
                [0] [0] [] [0] 1 [0] [0] [] [0] 0) as [H _].
  rewrite H. reflexivity.
Defined.

(** ** Calls that cannot bind their arguments *)

Section Binding.

Import PyCall.

Lemma bind_keywords_unexpected (sig : signature) (k : string) :
  var_keyword sig = false ->
  mem k (params sig) = false ->
  forall kws filled, In k kws -> bind_keywords sig filled kws = Raise TypeError.
Proof.
  intros Hvar Hk kws.
  induction kws as [|a kws IH]; intros filled Hin; [destruct Hin|].
  simpl. destruct Hin as [->|Hin].
  - rewrite Hk, Hvar. reflexivity.
  - destruct (mem a (params sig)).
    + destruct (mem a filled); [reflexivity | apply IH, Hin].
    + rewrite Hvar. reflexivity.
Qed.

Lemma call_unexpected_keyword (sig : signature) (npos : nat) (kws : list string) (k : string) :
  var_keyword sig = false ->
  mem k (params sig) = false ->
  In k kws ->
  call sig npos kws = Raise TypeError.
Proof.
  intros Hvar Hk Hin. unfold call.
  destruct (List.length (params sig) <? npos)%nat; [reflexivity|].
  rewrite (bind_keywords_unexpected sig k Hvar Hk kws _ Hin). reflexivity.
Qed.

Lemma call_too_many_positional (sig : signature) (npos : nat) (kws : list string) :
  (List.length (params sig) < npos)%nat ->
  call sig npos kws = Raise TypeError.
Proof.
  intros H. unfold call.
  apply Nat.ltb_lt in H. rewrite H. reflexivity.
Qed.

Lemma bind_keywords_raise (sig : signature) (kws : list string) :
  forall filled e, bind_keywords sig filled kws = Raise e -> e = TypeError.
Proof.
  induction kws as [|a kws IH]; intros filled e; simpl; [discriminate|].
  destruct (mem a (params sig)); [destruct (mem a filled)|destruct (var_keyword sig)];
    intros H; try (eapply IH; eassumption); congruence.
Qed.

Lemma call_raise (sig : signature) (npos : nat) (kws : list string) (e : exn) :
  call sig npos kws = Raise e -> e = TypeError.
Proof.
  unfold call. destruct (_ <? _)%nat; [congruence|].
  destruct (bind_keywords _ _ _) as [filled|e'] eqn:E'; simpl.
  - destruct (forallb _ (params sig)); congruence.
  - intros [= <-]. eapply bind_keywords_raise, E'.
Qed.

Lemma dt_in_keys (o : Options) (x : R) : opt_dt o = Some x -> In "dt" (keys o).
Proof.
  intros E. unfold keys. rewrite E. rewrite !in_app_iff. simpl. tauto.
Qed.

End Binding.

Lemma init_Ok_inv (c : NonlinearDynamicsSolver.SolverClass) (ms : MechanicalSystem.system)
    (P : LinSolver) (o : Options) (s : NonlinearDynamicsSolver.solver) :
  NonlinearDynamicsSolver.init c ms P o = Ok s ->
  NonlinearDynamicsSolver.cls s = c /\
  NonlinearDynamicsSolver.options s = o /\
  opt_dt o = Some (NonlinearDynamicsSolver.dt s).
Proof.
  unfold NonlinearDynamicsSolver.init.
  destruct (PyCall.call Solver_init_sig 2 (keys o)); simpl; [|discriminate].
  destruct (NonlinearDynamicsSolver.set_initial_conditions ms o); simpl; [|discriminate].
  destruct (opt_dt o) as [dt0|]; [|discriminate].
  intros [= <-]. simpl. auto.
Qed.



(** ** The linear solvers *)

(** C9: no linear solver can be constructed.  [LinearStaticsSolver.__init__]
    raises [TypeError]; [LinearDynamicsSolver.__init__], and with it the
    constructors of its two subclasses, raises [TypeError] when
    ['initial_conditions'] is among the options and [KeyError] when it is
    not. *)
Theorem linear_solvers_cannot_be_constructed
    (ms : MechanicalSystem.system) (P : LinSolver) (o : Options) :
  LinearStaticsSolver.init ms P o = Raise TypeError /\
  (forall s, LinearDynamicsSolver.init ms P o <> Ok s) /\
  (forall r, GeneralizedAlphaLinearDynamicsSolver_init ms P o <> Ok r) /\
  (forall r, JWHAlphaLinearDynamicsSolver_init ms P o <> Ok r) /\
  (opt_initial_conditions o <> None ->
   LinearDynamicsSolver.init ms P o = Raise TypeError) /\
  (opt_initial_conditions o = None ->
   PyCall.call Solver_init_sig 2 (keys o) = Ok tt ->
   LinearDynamicsSolver.init ms P o = Raise KeyError).
Proof.
  assert (Hdyn : forall s, LinearDynamicsSolver.init ms P o <> Ok s).
  { intros s. unfold LinearDynamicsSolver.init, LinearDynamicsSolver.set_initial_conditions_call.
    destruct (PyCall.call Solver_init_sig 2 (keys o)); simpl; [|discriminate].
    destruct (opt_initial_conditions o); simpl; discriminate. }
  assert (Hsub : forall b r, LinearDynamicsSolver.subclass_init b ms P o <> Ok r).
  { intros b r. unfold LinearDynamicsSolver.subclass_init.
    destruct (LinearDynamicsSolver.init ms P o) as [s|e] eqn:E; simpl; [|discriminate].
    exfalso. exact (Hdyn s eq_refl). }
  split; [reflexivity|].
  split; [exact Hdyn|].
  split; [apply Hsub|].
  split; [apply Hsub|].
  split.
  - intros Hic. unfold LinearDynamicsSolver.init, LinearDynamicsSolver.set_initial_conditions_call.
    destruct (PyCall.call Solver_init_sig 2 (keys o)) as [[]|e] eqn:E; simpl.
    + destruct (opt_initial_conditions o); [reflexivity | contradiction].
    + rewrite (call_raise _ _ _ _ E). reflexivity.
  - intros Hic Hcall. unfold LinearDynamicsSolver.init, LinearDynamicsSolver.set_initial_conditions_call.
    rewrite Hcall, Hic. reflexivity.
Qed.

(** No keyword at all: [KeyError]. *)
Lemma linear_solvers_cannot_be_constructed_witness :
  let o := Example.some_options None None None None None None None in
  LinearDynamicsSolver.init (Example.spring 1) Example.scalar_solver o = Raise KeyError.
Proof.
  intros o.
  apply (linear_solvers_cannot_be_constructed (Example.spring 1) Example.scalar_solver o);
    reflexivity.
Defined.

(** ** The Newton loop of the statics solver *)

Section StaticsNewtonFacts.

Import NonlinearStaticsSolver StaticsNewton.

Variable s : solver.
Variable du : Vec.
Variable t : R.

Lemma newton_iteration_n_iter (x x1 : Iterate) :
  newton_iteration s du t x = Ok x1 -> n_iter x1 = (n_iter x + 1)%Z.
Proof.
  unfold newton_iteration.
  destruct (smplfd_nwtn_itr s =? 0)%Z; [discriminate|].
  destruct (n_iter x mod smplfd_nwtn_itr s =? 0)%Z;
    [destruct (MechanicalSystem.K_and_f _ _ _)|]; intros [= <-]; reflexivity.
Qed.

Lemma iterate_n_iter (k : nat) :
  forall x xk, iterate s du t k x = Ok xk -> n_iter xk = (n_iter x + Z.of_nat k)%Z.
Proof.
  induction k as [|k IH]; intros x xk; simpl.
  - intros [= <-]. lia.
  - destruct (newton_iteration s du t x) as [x1|] eqn:E1; simpl; [|discriminate].
    intros Hk. rewrite (IH _ _ Hk), (newton_iteration_n_iter _ _ E1). lia.
Qed.

Lemma iterate_S_r (k : nat) :
  forall x xk xk1,
    iterate s du t k x = Ok xk -> newton_iteration s du t xk = Ok xk1 ->
    iterate s du t (S k) x = Ok xk1.
Proof.
  induction k as [|k IH]; intros x xk xk1; simpl.
  - intros [= <-] ->. reflexivity.
  - destruct (newton_iteration s du t x) as [x1|]; simpl; [|discriminate].
    intros Hk H1. apply (IH _ _ _ Hk H1).
Qed.

(** An iteration that does not refresh keeps stiffness, forces and
    residual, and adds the correction solved from them. *)
Lemma stale_iteration (u_r : Vec) (x : Iterate) :
  (smplfd_nwtn_itr s <> 0)%Z ->
  (n_iter x mod smplfd_nwtn_itr s <> 0)%Z ->
  evaluated_at du t u_r x ->
  exists x1,
    newton_iteration s du t x = Ok x1 /\
    evaluated_at du t u_r x1 /\
    K x1 = K x /\ f_int x1 = f_int x /\ f_ext x1 = f_ext x /\ res x1 = res x /\
    abs_res x1 = norm_of_vector (res x) /\
    u x1 = vadd (u x) (vscale (newton_damping s) (linsolver s (K x) (res x))).
Proof.
  intros HN Hmod (HKf & Hfe & Hres).
  unfold newton_iteration.
  apply Z.eqb_neq in HN. rewrite HN.
  apply Z.eqb_neq in Hmod. rewrite Hmod.
  eexists. split; [reflexivity|]. simpl.
  rewrite <- Hres.
  repeat split; try reflexivity; try assumption;
    destruct (write_iter s); simpl; assumption.
Qed.

(** An iteration that refreshes evaluates at the corrected displacement. *)
Lemma refresh_iteration (x x1 : Iterate) :
  (n_iter x mod smplfd_nwtn_itr s = 0)%Z ->
  newton_iteration s du t x = Ok x1 ->
  evaluated_at du t (u x1) x1.
Proof.
  intros Hmod. unfold newton_iteration.
  destruct (smplfd_nwtn_itr s =? 0)%Z; [discriminate|].
  apply Z.eqb_eq in Hmod. rewrite Hmod.
  destruct (MechanicalSystem.K_and_f (ms x) _ t) as [K1 f1] eqn:EK.
  intros [= <-]. unfold evaluated_at; simpl.
  destruct (write_iter s); simpl; rewrite EK; auto.
Qed.

Lemma enter_step_evaluated (m : MechanicalSystem.system) (u0 : Vec) :
  evaluated_at du t u0 (enter_step m u0 du t).
Proof.
  unfold enter_step, evaluated_at.
  destruct (MechanicalSystem.K_and_f m (Some u0) t) as [K0 f0] eqn:EK; simpl.
  rewrite EK. auto.
Qed.

(** C10: with [smplfd_nwtn_itr = N > 1], along any run of [m] iterations
    whose counters are not divisible by [N], stiffness, internal and
    external force are not re-evaluated: they and the residual tested for
    convergence stay those of the displacement [u_r] of the last refresh,
    while the displacement receives [m] times the same correction. *)
Theorem simplified_newton_reuses_residual (u_r : Vec) (m : nat) :
  (1 < smplfd_nwtn_itr s)%Z ->
  forall x,
    evaluated_at du t u_r x ->
    (forall j, (j < m)%nat -> ((n_iter x + Z.of_nat j) mod smplfd_nwtn_itr s <> 0)%Z) ->
    exists xm,
      iterate s du t m x = Ok xm /\
      evaluated_at du t u_r xm /\
      K xm = K x /\ f_int xm = f_int x /\ f_ext xm = f_ext x /\ res xm = res x /\
      ((0 < m)%nat -> abs_res xm = norm_of_vector (res x)) /\
      u xm = Nat.iter m
               (fun w => vadd w (vscale (newton_damping s) (linsolver s (K x) (res x))))
               (u x).
Proof.
  intros HN. induction m as [|m IH]; intros x Hev Hmod.
  - exists x. simpl. split; [reflexivity|]. split; [assumption|].
    do 4 (split; [reflexivity|]).
    split; [intros H; inversion H | reflexivity].
  - destruct (IH x Hev) as (xm & Hit & Hevm & HK & Hfi & Hfe & Hr & _ & Hu).
    { intros j Hj. apply Hmod. lia. }
    destruct (stale_iteration u_r xm) as (x1 & H1 & Hev1 & HK1 & Hfi1 & Hfe1 & Hr1 & Ha1 & Hu1);
      [lia | | exact Hevm |].
    { rewrite (iterate_n_iter _ _ _ Hit). apply Hmod. lia. }
    exists x1. split; [eapply iterate_S_r; eassumption|].
    split; [exact Hev1|].
    do 4 (split; [congruence|]).
    split; [intros _; congruence|].
    simpl. rewrite Hu1, Hu, HK, Hr. reflexivity.
Qed.

End StaticsNewtonFacts.

(** With [smplfd_nwtn_itr = 2], the iteration whose counter is 1. *)
Lemma simplified_newton_reuses_residual_witness :
  let s := StaticsExample.solver 1000 2 true in
  let x := StaticsExample.iterate_at [0] [0.5] 1 in
  exists xm,
    StaticsNewton.iterate s [0] 1 1 x = Ok xm /\
    StaticsNewton.evaluated_at [0] 1 [0] xm /\
    NonlinearStaticsSolver.K xm = NonlinearStaticsSolver.K x /\
    NonlinearStaticsSolver.f_int xm = NonlinearStaticsSolver.f_int x /\
    NonlinearStaticsSolver.f_ext xm = NonlinearStaticsSolver.f_ext x /\
    NonlinearStaticsSolver.res xm = NonlinearStaticsSolver.res x /\
    ((0 < 1)%nat ->
     NonlinearStaticsSolver.abs_res xm = norm_of_vector (NonlinearStaticsSolver.res x)) /\
    NonlinearStaticsSolver.u xm =
      Nat.iter 1
        (fun w => vadd w (vscale (NonlinearStaticsSolver.newton_damping s)
                            (NonlinearStaticsSolver.linsolver s
                               (NonlinearStaticsSolver.K x) (NonlinearStaticsSolver.res x))))
        (NonlinearStaticsSolver.u x).
Proof.
  intros s x.
  apply (simplified_newton_reuses_residual s [0] 1 [0] 1).
  - simpl. lia.
  - unfold StaticsNewton.evaluated_at. simpl. auto.
  - intros j Hj. assert (j = 0%nat) as -> by lia. simpl. discriminate.
Defined.

(** ** The load grid *)

Lemma Rceil_IZR (z : Z) : Rceil (IZR z) = z.
Proof.
  unfold Rceil.
  assert (H : (1 - z)%Z = up (- IZR z)).
  { apply tech_up; rewrite minus_IZR; lra. }
  rewrite <- H. lia.
Qed.

(** [np.arange(stepwidth, 1.0 + stepwidth, stepwidth)] for
    [stepwidth = 1/n] has [n] entries. *)
Lemma arange_load_factors (n : Z) :
  n <> 0%Z ->
  let stepwidth := 1 / IZR n in
  arange stepwidth (1.0 + stepwidth) stepwidth =
    Ok (map (fun i => stepwidth + INR i * stepwidth) (seq 0 (Z.to_nat n))).
Proof.
  intros Hn stepwidth. unfold arange.
  assert (Hz : IZR n <> 0) by (apply not_0_IZR; exact Hn).
  assert (Hs : stepwidth <> 0).
  { unfold stepwidth. unfold Rdiv. rewrite Rmult_1_l. apply Rinv_neq_0_compat, Hz. }
  destruct (Req_dec_T stepwidth 0); [contradiction|].
  replace ((1.0 + stepwidth - stepwidth) / stepwidth) with (IZR n)
    by (unfold stepwidth; replace 1.0 with 1 by lra; field; exact Hz).
  rewrite Rceil_IZR. reflexivity.
Qed.

(** ** Abort of the statics solver *)

Section StaticsAbort.

Import NonlinearStaticsSolver StaticsNewton.

Variable s : solver.

Lemma continues_true (x : Iterate) :
  continues s x = true <-> unconverged s x /\ (n_iter x < n_max_iter s)%Z.
Proof.
  unfold continues, unconverged.
  rewrite andb_true_iff, Rgtb_true_iff, Z.gtb_lt. tauto.
Qed.

(** When the test fails before each of the first [n] iterations and
    [n_max_iter] is reached with the [n]-th, the loop is left by the
    [return] of the abort. *)
Lemma newton_loop_abort_at_cap (du : Vec) (t : R) (n : nat) :
  conv_abort s = true ->
  forall x0 xn fuel,
    n_max_iter s = (n_iter x0 + Z.of_nat n)%Z ->
    (0 < n)%nat ->
    (n <= fuel)%nat ->
    iterate s du t n x0 = Ok xn ->
    (forall j xj, (j < n)%nat -> iterate s du t j x0 = Ok xj -> unconverged s xj) ->
    newton_loop s du t fuel x0 = Ok (AbortReturn, xn).
Proof.
  intros Habort. induction n as [|n IH]; intros x0 xn fuel Hcap Hpos Hfuel Hit Hun; [lia|].
  destruct fuel as [|fuel]; [lia|].
  simpl in Hit |- *.
  assert (Hc : continues s x0 = true).
  { apply continues_true. split; [apply (Hun 0%nat x0); [lia | reflexivity] | lia]. }
  rewrite Hc.
  destruct (newton_iteration s du t x0) as [x1|] eqn:E1; simpl in Hit |- *; [|discriminate].
  pose proof (newton_iteration_n_iter s du t _ _ E1) as Hn1.
  destruct n as [|n].
  - simpl in Hit. injection Hit as <-.
    rewrite Habort, andb_true_r.
    replace (n_iter x1 >=? n_max_iter s)%Z with true; [reflexivity|].
    symmetry. apply Z.geb_le. lia.
  - replace (n_iter x1 >=? n_max_iter s)%Z with false.
    + simpl. apply (IH x1 xn fuel); try lia; try assumption.
      intros j xj Hj Hitj. apply (Hun (S j) xj); [lia|].
      simpl. rewrite E1. exact Hitj.
    + symmetry. rewrite Z.geb_leb. apply Z.leb_gt. lia.
Qed.

(** The Newton loop has fuel enough. *)
Lemma newton_loop_fuel (du : Vec) (t : R) (fuel : nat) :
  forall x r x',
    (n_max_iter s - n_iter x <= Z.of_nat fuel)%Z ->
    newton_loop s du t fuel x = Ok (r, x') -> r <> OutOfFuel.
Proof.
  induction fuel as [|fuel IH]; intros x r x' Hf; simpl.
  - destruct (continues s x) eqn:Hc.
    + apply continues_true in Hc. lia.
    + intros [= <- <-]. discriminate.
  - destruct (continues s x) eqn:Hc; [|intros [= <- <-]; discriminate].
    destruct (newton_iteration s du t x) as [x1|] eqn:E1; simpl; [|discriminate].
    destruct ((n_iter x1 >=? n_max_iter s)%Z && conv_abort s).
    + intros [= <- <-]. discriminate.
    + apply IH. rewrite (newton_iteration_n_iter s du t _ _ E1). lia.
Qed.

(** An aborted solve returns fewer columns than load factors, and the
    columns it was given come first. *)
Lemma load_steps_aborted (du : Vec) (ts : list R) :
  forall m u0 out info o,
    load_steps s du ts m u0 out info = Ok o ->
    exit o = Aborted ->
    exists more, u_output o = out ++ more /\ (List.length more < List.length ts)%nat.
Proof.
  induction ts as [|t ts IH]; intros m u0 out info o; simpl.
  - intros [= <-]. discriminate.
  - destruct (newton_loop s du t _ _) as [[r x]|] eqn:E; simpl; [|discriminate].
    destruct r.
    + intros Ho He. destruct (IH _ _ _ _ _ Ho He) as (more & Hm & Hl).
      exists (u x :: more). rewrite Hm, <- app_assoc. simpl. split; [reflexivity | lia].
    + intros [= <-] _. exists []. simpl. rewrite app_nil_r. split; [reflexivity | lia].
    + intros [= <-]. discriminate.
Qed.


End StaticsAbort.


(** ** The linear static problem *)

Lemma dot_zeros_r (r : Vec) (n : nat) : dot r (zeros n) = 0.
Proof.
  revert n. induction r as [|a r IH]; intros [|n]; simpl; try reflexivity.
  unfold zeros in IH. rewrite IH. ring.
Qed.

Lemma matvec_zeros (A : Mat) (n : nat) : matvec A (zeros n) = zeros (List.length A).
Proof.
  induction A as [|r A IH]; [reflexivity|].
  unfold matvec, zeros in *; simpl. f_equal; [apply dot_zeros_r | exact IH].
Qed.

Section LinearStaticsFacts.

Import NonlinearStaticsSolver StaticsNewton LinearStatics.

Variable s : solver.
Variables Kmat Kinv : Mat.
Variable f : Vec.
Hypothesis Hlin : linear_static_problem s Kmat Kinv f.

Let n := List.length Kmat.
Let m1 := system_of_step s n.

Lemma linear_enter_step :
  enter_step m1 (zeros n) (zeros n) load_factor =
    {| ms := m1; u := zeros n; K := Kmat; f_int := zeros n; f_ext := f;
       res := f; abs_res := norm_of_vector f; abs_f_ext := norm_of_vector f;
       n_iter := 0 |}.
Proof.
  destruct Hlin as (HK & Hf & Hlf & _).
  unfold enter_step, m1, system_of_step. simpl.
  rewrite HK, Hf. simpl. rewrite matvec_zeros. fold n.
  rewrite vopp_zeros. unfold n. rewrite <- Hlf, vadd_zeros_l. reflexivity.
Qed.

Lemma linear_first_iteration :
  smplfd_nwtn_itr s <> 0%Z ->
  exists m2,
    newton_iteration s (zeros n) load_factor
      (enter_step m1 (zeros n) (zeros n) load_factor) =
      Ok {| ms := m2; u := matvec Kinv f; K := Kmat; f_int := f; f_ext := f;
            res := zeros n; abs_res := 0; abs_f_ext := norm_of_vector f;
            n_iter := 1 |}.
Proof.
  intros HN. rewrite linear_enter_step.
  destruct Hlin as (HK & Hf & Hlf & Hli & Hsolve & _ & _ & _ & Hdamp).
  destruct (Hsolve f Hlf) as (Hs1 & Hs2).
  unfold newton_iteration. simpl.
  apply Z.eqb_neq in HN. rewrite HN. try rewrite Zmod_0_l. simpl.
  unfold m1, system_of_step. simpl. rewrite HK, Hf. simpl.
  rewrite Hdamp, Hs1, vscale_1.
  assert (Hu : vadd (zeros n) (matvec Kinv f) = matvec Kinv f).
  { replace n with (List.length (matvec Kinv f)); [apply vadd_zeros_l|].
    rewrite matvec_length. exact Hli. }
  rewrite Hu, Hs2, vadd_opp_self, Hlf. fold n. rewrite norm_of_vector_zeros.
  eexists. reflexivity.
Qed.


(** With an iteration cap of 1 and [conv_abort = true] the solve of the
    linear static problem is aborted after its one iteration. *)
Lemma linear_problem_cap_1 :
  smplfd_nwtn_itr s <> 0%Z ->
  n_max_iter s = 1%Z ->
  conv_abort s = true ->
  exists m2,
    solve s = Ok {| exit := Aborted; u_output := []; final_system := m2;
                    iteration_info := [] |}.
Proof.
  intros HN Hcap Hab.
  destruct (linear_first_iteration HN) as (m2 & H1).
  pose proof linear_enter_step as H0.
  destruct Hlin as (HK & Hf & Hlf & Hli & Hsolve & Hpos & Hgt & Hsteps & Hdamp).
  exists m2.
  unfold solve. rewrite Hsteps. simpl (_ =? _)%Z. cbv iota.
  change (MechanicalSystem.K_and_f
            (MechanicalSystem.clear_timesteps (mechanical_system s)) None 0)
    with (MechanicalSystem.K_and_f (mechanical_system s) None 0).
  rewrite HK.
  rewrite (arange_load_factors 1) by discriminate.
  change (load_steps s (zeros n) [load_factor] m1 (zeros n) [] [] =
          Ok {| exit := Aborted; u_output := []; final_system := m2;
                iteration_info := [] |}).
  assert (Hc0 : continues s (enter_step m1 (zeros n) (zeros n) load_factor) = true).
  { rewrite H0. unfold continues; simpl.
    apply andb_true_iff. split; [apply Rgtb_true_iff; exact Hgt | apply Z.gtb_lt; lia]. }
  assert (Hloop : newton_loop s (zeros n) load_factor 1
                    (enter_step m1 (zeros n) (zeros n) load_factor) =
                  Ok (AbortReturn,
                      {| ms := m2; u := matvec Kinv f; K := Kmat; f_int := f; f_ext := f;
                         res := zeros n; abs_res := 0; abs_f_ext := norm_of_vector f;
                         n_iter := 1 |})).
  { simpl. rewrite Hc0, H1. simpl. rewrite Hcap, Hab. reflexivity. }
  unfold load_steps. rewrite Hcap.
  change (Z.to_nat 1) with 1%nat. rewrite Hloop. reflexivity.
Qed.

End LinearStaticsFacts.

Lemma example_linear_static_problem (n_max_iter smplfd : Z) (conv_abort : bool) :
  LinearStatics.linear_static_problem
    (StaticsExample.solver n_max_iter smplfd conv_abort) [[2]] [[1 / 2]] [1].
Proof.
  unfold LinearStatics.linear_static_problem.
  rewrite !norm_of_vector_singleton, Rabs_R1. simpl.
  repeat split; try reflexivity; try lra.
  - destruct b as [|r [|r' b]]; try discriminate. simpl. f_equal. lra.
  - destruct b as [|r [|r' b]]; try discriminate. simpl. f_equal. lra.
Qed.



Ltac splits := repeat match goal with |- _ /\ _ => split end.

(** ** The Newton-Raphson loop of the dynamics solver *)

Section DynamicsNewton.

Import NonlinearDynamicsSolver Dynamics.

Variable s : solver.
Variable h : Hooks.

(** What the loop leaves as it is, and what each exit tells. *)
Lemma newton_loop_exit (old : Old) (fuel : nat) :
  forall st Jac res res_abs n_iter e st1 n1 r1,
    newton_loop s h old fuel st Jac res res_abs n_iter = (e, st1, n1, r1) ->
    abs_f_ext st1 = abs_f_ext st /\
    time_index st1 = time_index st /\
    iteration_info st1 = iteration_info st /\
    (n_iter <= n1)%Z /\
    (write_iter s = false -> keeps_timesteps h ->
     MechanicalSystem.timesteps (ms st1) = MechanicalSystem.timesteps (ms st)) /\
    (e = Converged -> t st1 = t st /\ ~ r1 > rtol s * abs_f_ext st1 + atol s) /\
    (e = AbortReturn -> t st1 = t st /\ conv_abort s = true /\ (n_iter_max s < n1)%Z) /\
    (e = RolledBack ->
     t st1 = t_old old /\ q st1 = q_old old /\ dq st1 = dq_old old /\
     v st1 = v_old old /\ f_ext st1 = f_ext_old old /\
     conv_abort s = false /\ (n_iter_max s < n1)%Z).
Proof.
  induction fuel as [|fuel IH]; intros st Jac res res_abs n_iter e st1 n1 r1; simpl.
  - destruct (Rgtb res_abs _) eqn:Hg; intros [= <- <- <- <-]; splits;
      try reflexivity; try lia; try (intros; discriminate).
    intros _. split; [reflexivity | apply Rgtb_false_iff, Hg].
  - destruct (Rgtb res_abs _) eqn:Hg.
    + destruct (correct h _ _ _ _ _) as [[[q1 dq1] v1] ddq1].
      destruct (newton_raphson h _ _ _ _ _ _ _ _ _ _ _) as [ms1 [[Jac1 res1] f_ext1]] eqn:Enr.
      assert (Hts : keeps_timesteps h ->
                    MechanicalSystem.timesteps ms1 = MechanicalSystem.timesteps (ms st)).
      { intros Hk. specialize (Hk (ms st) q1 dq1 v1 ddq1 (t st)
                                 (q_old old) (dq_old old) (v_old old) (ddq_old old) (t_old old)).
        rewrite Enr in Hk. exact Hk. }
      destruct (n_iter + 1 >? n_iter_max s)%Z eqn:Hcap.
      * apply Z.gtb_lt in Hcap.
        destruct (conv_abort s) eqn:Hab; intros [= <- <- <- <-]; simpl; splits;
          try reflexivity; try lia; try (intros; discriminate);
          try (intros Hw Hk; rewrite Hw; apply Hts, Hk);
          intros _; splits; try reflexivity; lia.
      * intros Hrec. apply IH in Hrec. simpl in Hrec.
        destruct Hrec as (H1 & H2 & H3 & H4 & H5 & H6 & H7 & H8).
        splits; try assumption; try lia.
        intros Hw Hk. rewrite (H5 Hw Hk), Hw. apply Hts, Hk.
    + intros [= <- <- <- <-]. splits;
        try reflexivity; try lia; try (intros; discriminate).
      intros _. split; [reflexivity | apply Rgtb_false_iff, Hg].
Qed.

(** The loop never runs out of the fuel [solve] gives it. *)
Lemma newton_raphson_loop_fuel (old : Old) (fuel : nat) :
  forall st Jac res res_abs n_iter,
    (Z.max 0 (n_iter_max s - n_iter) < Z.of_nat fuel)%Z ->
    fst (fst (fst (newton_loop s h old fuel st Jac res res_abs n_iter))) <> OutOfFuel.
Proof.
  induction fuel as [|fuel IH]; intros st Jac res res_abs n_iter Hf; [lia|].
  simpl. destruct (Rgtb res_abs _); [|simpl; discriminate].
  destruct (correct h _ _ _ _ _) as [[[q1 dq1] v1] ddq1].
  destruct (newton_raphson h _ _ _ _ _ _ _ _ _ _ _) as [ms1 [[Jac1 res1] f_ext1]].
  destruct (n_iter + 1 >? n_iter_max s)%Z eqn:Hcap.
  - destruct (conv_abort s); simpl; discriminate.
  - apply IH. rewrite Z.gtb_ltb in Hcap. apply Z.ltb_ge in Hcap. lia.
Qed.

(** The loop is not entered exactly when the residual is within tolerance. *)
Lemma newton_loop_converged_at_once (old : Old) (fuel : nat)
    (st : State) (Jac : Mat) (res : Vec) (res_abs : R) (n_iter : Z) :
  ~ res_abs > rtol s * abs_f_ext st + atol s <->
  newton_loop s h old (S fuel) st Jac res res_abs n_iter = (Converged, st, n_iter, res_abs).
Proof.
  split.
  - intros Hn. apply Rgtb_false_iff in Hn. simpl. rewrite Hn. reflexivity.
  - intros Hl. simpl in Hl. destruct (Rgtb res_abs _) eqn:Hg; [|apply Rgtb_false_iff, Hg].
    exfalso.
    destruct (correct h _ _ _ _ _) as [[[q1 dq1] v1] ddq1].
    destruct (newton_raphson h _ _ _ _ _ _ _ _ _ _ _) as [ms1 [[Jac1 res1] f_ext1]].
    destruct (n_iter + 1 >? n_iter_max s)%Z.
    + destruct (conv_abort s); discriminate.
    + apply newton_loop_exit in Hl. lia.
Qed.

End DynamicsNewton.

(** ** One time step *)

Section DynamicsStep.

Import NonlinearDynamicsSolver Dynamics.

Variable s : solver.
Variable h : Hooks.

Lemma write_output_spec (time_range : list R) (st : State) :
  let st1 := fst (write_output time_range st) in
  t st1 = t st /\ q st1 = q st /\ dq st1 = dq st /\ v st1 = v st /\
  ddq st1 = ddq st /\ f_ext st1 = f_ext st /\ abs_f_ext st1 = abs_f_ext st /\
  MechanicalSystem.timesteps (ms st1) =
    MechanicalSystem.timesteps (ms st) ++
    (if Rgeb (t st + eps) (nth (time_index st) time_range 0) then [(t st, q st)] else []).
Proof.
  unfold write_output.
  destruct (Rgeb _ _); simpl; splits; try reflexivity.
  rewrite app_nil_r. reflexivity.
Qed.

Lemma advance_spec (st : State) (e : NewtonExit) (st1 : State) (n_iter : Z) (res_abs : R) :
  advance s h st = (e, st1, n_iter, res_abs) ->
  abs_f_ext st1 = Rmax (abs_f_ext st) (norm_of_vector (predicted_f_ext s h st)) /\
  time_index st1 = time_index st /\
  iteration_info st1 = iteration_info st /\
  (write_iter s = false -> keeps_timesteps h ->
   MechanicalSystem.timesteps (ms st1) = MechanicalSystem.timesteps (ms st)) /\
  (e = Converged ->
   t st1 = t st + dt s /\ ~ res_abs > rtol s * abs_f_ext st1 + atol s) /\
  (e = AbortReturn -> conv_abort s = true /\ (n_iter_max s < n_iter)%Z) /\
  (e = RolledBack ->
   t st1 = t st /\ q st1 = q st /\ dq st1 = dq st /\ v st1 = v st /\
   f_ext st1 = f_ext st /\ conv_abort s = false /\ (n_iter_max s < n_iter)%Z) /\
  e <> OutOfFuel.
Proof.
  unfold advance, predicted_f_ext.
  cbn [q_old dq_old v_old ddq_old t_old save_old].
  destruct (predict h _ _ _ _) as [[[q1 dq1] v1] ddq1].
  destruct (newton_raphson h _ _ _ _ _ _ _ _ _ _ _) as [ms1 [[Jac res] f_ext1]] eqn:Enr.
  intros Hl.
  pose proof (newton_raphson_loop_fuel s h (save_old st) (S (Z.to_nat (n_iter_max s)))
                {| ms := ms1; iteration_info := iteration_info st; t := t st + dt s;
                   q := q1; dq := dq1; v := v1; ddq := ddq1; f_ext := f_ext1;
                   abs_f_ext := Rmax (abs_f_ext st) (norm_of_vector f_ext1);
                   time_index := time_index st |}
                Jac res (norm_of_vector res) 0) as Hfuel.
  rewrite Hl in Hfuel. simpl in Hfuel.
  apply newton_loop_exit in Hl. simpl in Hl.
  destruct Hl as (H1 & H2 & H3 & _ & H5 & H6 & H7 & H8).
  splits; try assumption.
  - intros Hw Hk. rewrite (H5 Hw Hk).
    specialize (Hk (ms st) q1 dq1 v1 ddq1 (t st + dt s) (q st) (dq st) (v st) (ddq st) (t st)).
    rewrite Enr in Hk. exact Hk.
  - intros He. apply H7 in He. tauto.
  - apply Hfuel. lia.
Qed.

End DynamicsStep.

(** ** Rollback of a time step *)

(** C3: the code does not restore the acceleration.  For the spring under
    unit force with [n_iter_max = 0] and [conv_abort = false], the first
    time step is rolled back after one correction: [t], [q], [dq], [v] and
    [f_ext] are again those before the prediction, and the step will be
    retried with the same [dt], but [ddq], which was [0] before the
    prediction, is left at the corrected value [1.6]. *)
Theorem rollback_leaves_corrected_ddq :
  let s := DynamicsExample.solver 1 1.0E-9 1.0E-6 0 false in
  let h := DynamicsExample.hooks s in
  let st0 := NonlinearDynamicsSolver.initial_state s in
  let '(e, st1, n_iter, _) := NonlinearDynamicsSolver.advance s h st0 in
  e = NonlinearDynamicsSolver.RolledBack /\ n_iter = 1%Z /\
  NonlinearDynamicsSolver.t st1 = NonlinearDynamicsSolver.t st0 /\
  NonlinearDynamicsSolver.q st1 = NonlinearDynamicsSolver.q st0 /\
  NonlinearDynamicsSolver.dq st1 = NonlinearDynamicsSolver.dq st0 /\
  NonlinearDynamicsSolver.v st1 = NonlinearDynamicsSolver.v st0 /\
  NonlinearDynamicsSolver.f_ext st1 = NonlinearDynamicsSolver.f_ext st0 /\
  NonlinearDynamicsSolver.ddq st0 = [0] /\
  NonlinearDynamicsSolver.ddq st1 = [1.6].
Proof.
  intros s h st0. unfold NonlinearDynamicsSolver.advance.
  unfold h, DynamicsExample.hooks.
  cbn -[Rgtb norm_of_vector Rmax GeneralizedAlpha.set_parameters].
  rewrite generalized_alpha_parameters_1.
  cbn -[Rgtb norm_of_vector Rmax].
  rewrite !norm_of_vector_singleton.
  match goal with
  | |- context [Rgtb ?a ?b] => assert (Hg : Rgtb a b = true)
  end.
  { apply Rgtb_true_iff.
    rewrite !Rabs_right by lra.
    unfold Rmax. destruct (Rle_dec _ _); lra. }
  rewrite Hg. splits; try reflexivity.
  cbn. f_equal.
  replace (- (1 - 0.5) / (0.25 * (1 * (1 * 1))) * 1 - (1 - 0.5) * 1) with (-2.5) by lra.
  lra.
Qed.

(** ** The relative scale of the convergence test *)

Section RelativeScale.

Import NonlinearDynamicsSolver Dynamics.

Variable s : solver.
Variable h : Hooks.

Lemma time_step_abs_f_ext (time_range : list R) (st : State) (e : StepExit) (st1 : State) :
  time_step s h time_range st = (e, st1) ->
  abs_f_ext st <= abs_f_ext st1.
Proof.
  unfold time_step.
  pose proof (write_output_spec time_range st) as Hw. simpl in Hw.
  destruct (write_output time_range st) as [st0 brk]. simpl in Hw.
  destruct Hw as (_ & _ & _ & _ & _ & _ & Ha & _).
  destruct brk.
  - intros [= _ <-]. lra.
  - destruct (advance s h st0) as [[[ex st2] n] r] eqn:Ea.
    apply advance_spec in Ea. destruct Ea as (HS & _).
    assert (abs_f_ext st <= abs_f_ext st2).
    { rewrite HS, <- Ha. apply Rmax_l. }
    destruct ex; intros [= _ <-]; simpl; assumption.
Qed.

Lemma reached_abs_f_ext (time_range : list R) (st : State) :
  reached s h time_range st -> atol s <= abs_f_ext st.
Proof.
  induction 1 as [|st st1 _ IH _ Hstep].
  - simpl. lra.
  - apply time_step_abs_f_ext in Hstep. lra.
Qed.

(** C2, amended: the Newton loop is entered, and entered again, exactly
    while the residual norm exceeds [rtol * S + atol]; the norms are
    [sqrt(x . x)]; [S] starts as [atol] and each time step replaces it by
    the maximum of itself and the norm of the external force returned
    after the prediction.  So [S] is never below [atol], and it is never
    zero when [atol] is positive. *)
Theorem relative_scale_is_running_maximum :
  (forall old fuel st Jac res res_abs n_iter,
     ~ res_abs > rtol s * abs_f_ext st + atol s <->
     newton_loop s h old (S fuel) st Jac res res_abs n_iter =
       (Converged, st, n_iter, res_abs)) /\
  (forall x, norm_of_vector x = sqrt (dot x x)) /\
  abs_f_ext (initial_state s) = atol s /\
  (forall st e st1 n_iter res_abs,
     advance s h st = (e, st1, n_iter, res_abs) ->
     abs_f_ext st1 = Rmax (abs_f_ext st) (norm_of_vector (predicted_f_ext s h st)) /\
     (e = Converged -> ~ res_abs > rtol s * abs_f_ext st1 + atol s)) /\
  (forall time_range st,
     reached s h time_range st ->
     atol s <= abs_f_ext st /\
     forall e st1 n_iter res_abs,
       advance s h (fst (write_output time_range st)) = (e, st1, n_iter, res_abs) ->
       atol s <= abs_f_ext st1 /\ (0 < atol s -> abs_f_ext st1 <> 0)).
Proof.
  split; [intros; apply newton_loop_converged_at_once|].
  split; [reflexivity|].
  split; [reflexivity|].
  split.
  - intros st e st1 n_iter res_abs Ha. apply advance_spec in Ha.
    destruct Ha as (HS & _ & _ & _ & Hc & _). split; [exact HS|].
    intros He. apply Hc, He.
  - intros time_range st Hr.
    pose proof (reached_abs_f_ext _ _ Hr) as Hst.
    split; [exact Hst|].
    intros e st1 n_iter res_abs Ha. apply advance_spec in Ha.
    destruct Ha as (HS & _).
    pose proof (write_output_spec time_range st) as Hw. simpl in Hw.
    destruct Hw as (_ & _ & _ & _ & _ & _ & Hw & _).
    assert (Hge : atol s <= abs_f_ext st1).
    { rewrite HS, Hw.
      eapply Rle_trans; [exact Hst | apply Rmax_l]. }
    split; [exact Hge | lra].
Qed.

End RelativeScale.

(** The default [atol = 1.0E-6]: the scale of the first step is not zero. *)
Lemma relative_scale_is_running_maximum_witness :
  let s := DynamicsExample.solver 0 1.0E-9 1.0E-6 30 true in
  let h := DynamicsExample.hooks s in
  NonlinearDynamicsSolver.abs_f_ext
    (snd (fst (fst (NonlinearDynamicsSolver.advance s h
       (fst (NonlinearDynamicsSolver.write_output [0; 0.5]
               (NonlinearDynamicsSolver.initial_state s))))))) <> 0.
Proof.
  intros s h.
  destruct (NonlinearDynamicsSolver.advance s h _) as [[[e st1] n] r] eqn:Ea.
  simpl.
  apply (relative_scale_is_running_maximum s h) in Ea.
  - apply Ea. simpl. lra.
  - apply Dynamics.reached_initial.
Defined.

(** C2, as stated, fails: with [atol = 0] and no external force the scale
    [S] is zero at the start and still zero in the first time step. *)
Lemma relative_scale_zero :
  let s := DynamicsExample.solver 0 1.0E-9 0 30 true in
  let h := DynamicsExample.hooks s in
  NonlinearDynamicsSolver.abs_f_ext (NonlinearDynamicsSolver.initial_state s) = 0 /\
  NonlinearDynamicsSolver.abs_f_ext
    (snd (fst (fst (NonlinearDynamicsSolver.advance s h
                      (NonlinearDynamicsSolver.initial_state s))))) = 0.
Proof.
  intros s h. split; [reflexivity|].
  destruct (NonlinearDynamicsSolver.advance s h _) as [[[e st1] n] r] eqn:Ea.
  simpl. apply advance_spec in Ea. destruct Ea as (HS & _).
  rewrite HS. unfold Dynamics.predicted_f_ext. cbn -[norm_of_vector Rmax].
  rewrite norm_of_vector_singleton, Rabs_R0.
  unfold Rmax. destruct (Rle_dec 0 0); reflexivity.
Qed.

(** ** Recorded outputs *)

Lemma StronglySorted_snoc (l : list R) (a : R) :
  StronglySorted Rle l -> Forall (fun x => x <= a) l -> StronglySorted Rle (l ++ [a]).
Proof.
  induction 1 as [|x l Hs IH Hx]; intros Hle; simpl.
  - constructor; constructor.
  - inversion Hle as [|? ? Hxa Hla]; subst.
    constructor; [apply IH, Hla|].
    apply Forall_app. split; [exact Hx | constructor; [exact Hxa | constructor]].
Qed.

Section OutputTimes.

Import NonlinearDynamicsSolver Dynamics.

Variable s : solver.
Variable h : Hooks.
Variable time_range : list R.

Hypothesis Hwrite_iter : write_iter s = false.
Hypothesis Hkeeps : keeps_timesteps h.

Let log (st : State) : list (R * Vec) := MechanicalSystem.timesteps (ms st).

(** What holds of the record whenever the loop is left or out of fuel;
    the order needs a time step that is not negative. *)
Let recorded (st : State) : Prop :=
  Forall (accepted s h time_range) (log st) /\
  (0 <= dt s -> StronglySorted Rle (map fst (log st))).

(** What holds at the top of the loop. *)
Let at_top (st : State) : Prop :=
  reached s h time_range st /\
  accepted s h time_range (t st, q st) /\
  recorded st /\
  (0 <= dt s -> Forall (fun x => x <= t st) (map fst (log st))).

Lemma write_output_at_top (st : State) :
  at_top st ->
  let st1 := fst (write_output time_range st) in
  recorded st1 /\ (0 <= dt s -> Forall (fun x => x <= t st) (map fst (log st1))).
Proof.
  intros (Hr & Hacc & (Hall & Hsort) & Hle).
  pose proof (write_output_spec time_range st) as Hw. simpl in Hw.
  destruct Hw as (_ & _ & _ & _ & _ & _ & _ & Hlog).
  simpl. unfold recorded, log in *. rewrite Hlog.
  destruct (Rgeb _ _).
  - rewrite map_app. simpl. splits.
    + apply Forall_app. split; [exact Hall | constructor; [exact Hacc | constructor]].
    + intros Hdt. apply StronglySorted_snoc; auto.
    + intros Hdt. apply Forall_app.
      split; [exact (Hle Hdt) | constructor; [lra | constructor]].
  - rewrite app_nil_r. auto.
Qed.

Lemma time_step_at_top (st : State) (e : StepExit) (st1 : State) :
  at_top st ->
  (time_index st < List.length time_range)%nat ->
  time_step s h time_range st = (e, st1) ->
  recorded st1 /\ (e = Continue -> at_top st1) /\
  log st1 = log st ++
            (if Rgeb (t st + eps) (nth (time_index st) time_range 0)
             then [(t st, q st)] else []).
Proof.
  intros Htop Hidx Hstep.
  pose proof (write_output_at_top st Htop) as (Hrec0 & Hle0).
  pose proof (write_output_spec time_range st) as Hw. simpl in Hw.
  destruct Hw as (Ht0 & Hq0 & _ & _ & _ & _ & _ & Hlog0).
  fold (log (fst (write_output time_range st))) in Hlog0. fold (log st) in Hlog0.
  destruct Htop as (Hr & Hacc & _ & _).
  pose proof Hstep as Hstep'.
  unfold time_step in Hstep.
  destruct (write_output time_range st) as [st0 brk] eqn:Ew. simpl in *.
  destruct brk.
  - injection Hstep as <- <-. splits; [apply Hrec0 .. | discriminate | exact Hlog0].
  - destruct (advance s h st0) as [[[ex st2] n] r] eqn:Ea.
    pose proof (advance_spec s h _ _ _ _ _ Ea) as (_ & _ & _ & Hlog & Hconv & _ & Hroll & _).
    specialize (Hlog Hwrite_iter Hkeeps). fold (log st2) in Hlog. fold (log st0) in Hlog.
    assert (Hrec2 : recorded st2) by (unfold recorded; rewrite Hlog; exact Hrec0).
    assert (Hcont : forall x, st1 = track s st2 n r -> e = Continue ->
                    t st2 = x -> (0 <= dt s -> x >= t st) ->
                    accepted s h time_range (t st2, q st2) ->
                    recorded st1 /\ (e = Continue -> at_top st1) /\
                    log st1 = log st ++
                      (if Rgeb (t st + eps) (nth (time_index st) time_range 0)
                       then [(t st, q st)] else [])).
    { intros x -> -> Hx Hge Hacc2.
      assert (Hl : log (track s st2 n r) = log st2) by reflexivity.
      assert (Hrec : recorded (track s st2 n r)) by (unfold recorded; rewrite Hl; exact Hrec2).
      splits; try apply Hrec.
      - intros _. unfold at_top. splits; try apply Hrec.
        + apply (reached_next s h time_range st _ Hr Hidx Hstep').
        + exact Hacc2.
        + intros Hdt. rewrite Hl, Hlog. simpl. rewrite Hx.
          specialize (Hge Hdt).
          eapply Forall_impl; [|exact (Hle0 Hdt)]. simpl. intros a Ha. lra.
      - rewrite Hl, Hlog. exact Hlog0. }
    destruct ex.
    + injection Hstep as <- <-.
      destruct (Hconv eq_refl) as (Ht2 & _).
      apply (Hcont (t st0 + dt s)); try reflexivity; [exact Ht2 | intros; lra |].
      right. exists st, st2, n, r. rewrite Ew. auto.
    + injection Hstep as <- <-.
      destruct (Hroll eq_refl) as (Ht2 & Hq2 & _).
      apply (Hcont (t st0)); try reflexivity; [exact Ht2 | intros; lra |].
      rewrite Ht2, Hq2, Ht0, Hq0. exact Hacc.
    + injection Hstep as <- <-.
      splits; [apply Hrec2 .. | discriminate | rewrite Hlog; exact Hlog0].
    + injection Hstep as <- <-.
      splits; [apply Hrec2 .. | discriminate | rewrite Hlog; exact Hlog0].
Qed.

Lemma time_loop_recorded (fuel : nat) :
  forall st, at_top st -> recorded (snd (time_loop s h time_range fuel st)).
Proof.
  induction fuel as [|fuel IH]; intros st Htop; simpl.
  - destruct (_ <? _)%nat; apply Htop.
  - destruct (time_index st <? List.length time_range)%nat eqn:Hidx; [|apply Htop].
    apply Nat.ltb_lt in Hidx.
    destruct (time_step s h time_range st) as [e st1] eqn:Es.
    destruct (time_step_at_top st e st1 Htop Hidx Es) as (Hrec & Hcont & _).
    destruct e; simpl; try exact Hrec.
    apply IH, Hcont. reflexivity.
Qed.

Lemma initial_at_top : at_top (initial_state s).
Proof.
  unfold at_top, recorded, log. simpl. splits.
  - constructor.
  - left. reflexivity.
  - constructor.
  - intros _. constructor.
  - intros _. constructor.
Qed.

Lemma reached_at_top (st : State) : reached s h time_range st -> at_top st.
Proof.
  induction 1 as [|st st1 Hr IH Hidx Hstep].
  - apply initial_at_top.
  - destruct (time_step_at_top st Continue st1 IH Hidx Hstep) as (_ & Hc & _).
    apply Hc. reflexivity.
Qed.

(** Of the time step loop over any output grid. *)
Lemma time_loop_outputs (fuel : nat) :
  let st := snd (time_loop s h time_range fuel (initial_state s)) in
  (0 <= dt s -> Sorted Rle (map fst (MechanicalSystem.timesteps (ms st)))) /\
  Forall (accepted s h time_range) (MechanicalSystem.timesteps (ms st)) /\
  (forall st0 e st1,
     reached s h time_range st0 ->
     (time_index st0 < List.length time_range)%nat ->
     time_step s h time_range st0 = (e, st1) ->
     MechanicalSystem.timesteps (ms st1) =
       MechanicalSystem.timesteps (ms st0) ++
       (if Rgeb (t st0 + eps) (nth (time_index st0) time_range 0)
        then [(t st0, q st0)] else [])).
Proof.
  intros st.
  destruct (time_loop_recorded fuel _ initial_at_top) as (Hall & Hsort).
  splits.
  - intros Hdt. apply StronglySorted_Sorted, Hsort, Hdt.
  - exact Hall.
  - intros st0 e st1 Hr Hidx Hstep.
    apply (time_step_at_top st0 e st1 (reached_at_top st0 Hr) Hidx Hstep).
Qed.

End OutputTimes.

Lemma generalized_alpha_keeps_timesteps (p : GeneralizedAlpha.Params) (dt : R) :
  Dynamics.keeps_timesteps
    {| NonlinearDynamicsSolver.predict := GeneralizedAlpha.predict p dt;
       NonlinearDynamicsSolver.newton_raphson := GeneralizedAlpha.newton_raphson p dt;
       NonlinearDynamicsSolver.correct := GeneralizedAlpha.correct p dt |}.
Proof.
  unfold Dynamics.keeps_timesteps. intros m q dq v ddq t q_old dq_old v_old ddq_old t_old.
  simpl. unfold GeneralizedAlpha.newton_raphson.
  destruct (MechanicalSystem.K_and_f _ _ _) as [K_f f_f].
  destruct (MechanicalSystem.D_constr _); simpl;
    unfold MechanicalSystem.ensure_M; destruct (MechanicalSystem.M_constr m); reflexivity.
Qed.



(** * Further properties of the solvers *)

(** ** The statics solver: termination, columns and records *)

Section StaticsSolve.

Import NonlinearStaticsSolver StaticsNewton StaticsOutput.

Variable s : solver.

(** What the Newton loop of a load step returns. *)
Lemma statics_newton_loop_spec (du : Vec) (t : R) (fuel : nat) :
  forall x r x1,
    newton_loop s du t fuel x = Ok (r, x1) ->
    (n_iter x <= n_iter x1)%Z /\
    (r = LoopEnd -> continues s x1 = false) /\
    (r = AbortReturn -> conv_abort s = true /\ (n_max_iter s <= n_iter x1)%Z) /\
    (r = OutOfFuel -> continues s x1 = true) /\
    ((n_iter x <= Z.max 0 (n_max_iter s))%Z -> (n_iter x1 <= Z.max 0 (n_max_iter s))%Z) /\
    (conv_abort s = true -> (n_iter x < n_max_iter s)%Z -> r = LoopEnd -> ~ unconverged s x1) /\
    (write_iter s = false ->
     MechanicalSystem.timesteps (ms x1) = MechanicalSystem.timesteps (ms x)).
Proof.
  induction fuel as [|fuel IH]; intros x r x1; simpl.
  - destruct (continues s x) eqn:Hc; intros [= <- <-]; splits;
      try lia; try (intros; discriminate); try (intros; assumption); try reflexivity.
    intros _ Hlt _ Hu. apply andb_false_iff in Hc. destruct Hc as [Hc | Hc].
    + apply Rgtb_false_iff in Hc. apply Hc, Hu.
    + rewrite Z.gtb_ltb in Hc. apply Z.ltb_ge in Hc. lia.
  - destruct (continues s x) eqn:Hc.
    + destruct (newton_iteration s du t x) as [x2|] eqn:E2; simpl; [|discriminate].
      pose proof (newton_iteration_n_iter s du t _ _ E2) as Hn.
      assert (Hts : write_iter s = false ->
                    MechanicalSystem.timesteps (ms x2) = MechanicalSystem.timesteps (ms x)).
      { intros Hw. revert E2. unfold newton_iteration. rewrite Hw.
        destruct (smplfd_nwtn_itr s =? 0)%Z; [discriminate|].
        destruct (n_iter x mod smplfd_nwtn_itr s =? 0)%Z;
          [destruct (MechanicalSystem.K_and_f _ _ _)|]; intros [= <-]; reflexivity. }
      apply continues_true in Hc. destruct Hc as (_ & Hlt).
      destruct ((n_iter x2 >=? n_max_iter s)%Z && conv_abort s) eqn:Hab.
      * apply andb_true_iff in Hab. destruct Hab as (Hge & Hca).
        apply Z.geb_le in Hge.
        intros [= <- <-]. splits; try lia; try (intros; discriminate).
        -- intros _. split; [exact Hca | exact Hge].
        -- exact Hts.
      * intros Hrec. apply IH in Hrec.
        destruct Hrec as (H1 & H2 & H3 & H4 & H5 & H6 & H7).
        splits; try assumption; try lia.
        -- intros Hca Hlt' Hr. apply H6; try assumption.
           rewrite Hca, andb_true_r in Hab. rewrite Z.geb_leb in Hab.
           apply Z.leb_gt in Hab. exact Hab.
        -- intros Hw. rewrite (H7 Hw). apply Hts, Hw.
    + intros [= <- <-]. splits;
        try lia; try (intros; discriminate); try (intros; assumption); try reflexivity.
      intros _ Hlt _ Hu. apply andb_false_iff in Hc. destruct Hc as [Hc | Hc].
      * apply Rgtb_false_iff in Hc. apply Hc, Hu.
      * rewrite Z.gtb_ltb in Hc. apply Z.ltb_ge in Hc. lia.
Qed.

Lemma enter_step_n_iter (m : MechanicalSystem.system) (u0 du : Vec) (t : R) :
  n_iter (enter_step m u0 du t) = 0%Z /\ ms (enter_step m u0 du t) = m.
Proof.
  unfold enter_step. destruct (MechanicalSystem.K_and_f m (Some u0) t). split; reflexivity.
Qed.

(** What the load step loop returns. *)
Lemma load_steps_spec (du : Vec) (ts : list R) :
  forall m u0 out info o,
    load_steps s du ts m u0 out info = Ok o ->
    exit o <> Diverging /\
    (conv_abort s = false -> exit o = Finished) /\
    exists more,
      u_output o = out ++ more /\
      (exit o = Finished -> List.length more = List.length ts) /\
      (conv_abort s = true -> (0 < n_max_iter s)%Z ->
       Forall (converged_displacement s du) more) /\
      (save s = true -> write_iter s = false -> exit o = Finished ->
       MechanicalSystem.timesteps (final_system o) =
         MechanicalSystem.timesteps m ++ combine ts more).
Proof.
  induction ts as [|t ts IH]; intros m u0 out info o; simpl.
  - intros [= <-]. simpl. splits; try discriminate; try reflexivity.
    exists []. rewrite !app_nil_r. splits; auto.
  - destruct (newton_loop s du t _ _) as [[r x]|] eqn:E; simpl; [|discriminate].
    pose proof (statics_newton_loop_spec du t _ _ _ _ E) as (_ & HL & HA & HO & _ & HC & HT).
    destruct (enter_step_n_iter m u0 du t) as (Hn0 & Hm0).
    assert (Hf : (n_max_iter s - n_iter (enter_step m u0 du t) <=
                  Z.of_nat (Z.to_nat (n_max_iter s)))%Z) by (rewrite Hn0; lia).
    pose proof (newton_loop_fuel s du t _ _ _ _ Hf E) as Hfuel.
    rewrite Hn0 in HC. rewrite Hm0 in HT.
    destruct r; [| |contradiction].
    + intros Ho. apply IH in Ho. destruct Ho as (H1 & H2 & more & H3 & H4 & H5 & H6).
      splits; try assumption.
      exists (u x :: more). splits.
      * rewrite H3, <- app_assoc. reflexivity.
      * intros He. simpl. rewrite (H4 He). reflexivity.
      * intros Hca Hpos. constructor; [|apply H5; assumption].
        exists m, u0, t, x. splits; auto.
      * intros Hs Hw He. rewrite (H6 Hs Hw He), Hs. simpl.
        rewrite (HT Hw), <- app_assoc. reflexivity.
    + intros [= <-]. simpl. splits; try discriminate.
      * intros Hca. destruct (HA eq_refl) as (Hca' & _). congruence.
      * exists []. rewrite app_nil_r. splits; auto; try discriminate.
Qed.

(** [solve] raises nothing but [ZeroDivisionError]: for no load step at
    all or for [smplfd_nwtn_itr = 0]. *)
Lemma statics_newton_loop_raise (du : Vec) (t : R) (fuel : nat) :
  forall x e, newton_loop s du t fuel x = Raise e ->
              e = ZeroDivisionError /\ smplfd_nwtn_itr s = 0%Z.
Proof.
  induction fuel as [|fuel IH]; intros x e; simpl.
  - destruct (continues s x); discriminate.
  - destruct (continues s x); [|discriminate].
    destruct (newton_iteration s du t x) as [x1|e1] eqn:E1; simpl.
    + destruct (_ && _); [discriminate | apply IH].
    + intros [= <-]. revert E1. unfold newton_iteration.
      destruct (smplfd_nwtn_itr s =? 0)%Z eqn:E0.
      * intros [= <-]. split; [reflexivity | apply Z.eqb_eq, E0].
      * destruct (n_iter x mod smplfd_nwtn_itr s =? 0)%Z;
          [destruct (MechanicalSystem.K_and_f _ _ _)|]; discriminate.
Qed.

Lemma load_steps_raise (du : Vec) (ts : list R) :
  forall m u0 out info e, load_steps s du ts m u0 out info = Raise e ->
                          e = ZeroDivisionError /\ smplfd_nwtn_itr s = 0%Z.
Proof.
  induction ts as [|t ts IH]; intros m u0 out info e; simpl; [discriminate|].
  destruct (newton_loop s du t _ _) as [[r x]|e1] eqn:E; simpl.
  - destruct r; try discriminate. apply IH.
  - intros [= <-]. eapply statics_newton_loop_raise, E.
Qed.

End StaticsSolve.

Lemma map_fst_combine {A B : Type} (l : list A) (l' : list B) :
  List.length l = List.length l' -> map fst (combine l l') = l.
Proof.
  revert l'. induction l as [|a l IH]; intros [|b l']; simpl; try discriminate; auto.
  intros [= H]. rewrite (IH _ H). reflexivity.
Qed.

Lemma map_snd_combine {A B : Type} (l : list A) (l' : list B) :
  List.length l = List.length l' -> map snd (combine l l') = l'.
Proof.
  revert l'. induction l as [|a l IH]; intros [|b l']; simpl; try discriminate; auto.
  intros [= H]. rewrite (IH _ H). reflexivity.
Qed.

Section StaticsSolveResults.

Import NonlinearStaticsSolver StaticsNewton StaticsOutput.

Variable s : solver.

(** The number of degrees of freedom [solve] reads off the stiffness. *)
Let ndof : nat :=
  List.length (fst (MechanicalSystem.K_and_f
                      (MechanicalSystem.clear_timesteps (mechanical_system s)) None 0)).

Let load_factors : list R :=
  map (fun i => 1 / IZR (no_of_load_steps s) + INR i * (1 / IZR (no_of_load_steps s)))
      (seq 0 (Z.to_nat (no_of_load_steps s))).

Lemma statics_solve_unfold :
  no_of_load_steps s <> 0%Z ->
  solve s =
    load_steps s (zeros ndof) load_factors
      (MechanicalSystem.write_timestep
         (MechanicalSystem.clear_timesteps (mechanical_system s)) 0.0 (zeros ndof))
      (zeros ndof) [] [].
Proof.
  intros Hn. unfold solve, ndof.
  apply Z.eqb_neq in Hn. rewrite Hn. apply Z.eqb_neq in Hn.
  destruct (MechanicalSystem.K_and_f _ None 0) as [K0 f0]. simpl fst.
  rewrite (arange_load_factors _ Hn). reflexivity.
Qed.

(** X1: the Newton loop of a load step makes at most [n_max_iter]
    iterations and never runs out of the fuel [solve] gives it, so a
    [solve] that returns has finished or aborted. *)
Theorem statics_solve_terminates :
  (forall du t m u0 r x,
     newton_loop s du t (Z.to_nat (n_max_iter s)) (enter_step m u0 du t) = Ok (r, x) ->
     r <> OutOfFuel /\ (0 <= n_iter x <= Z.max 0 (n_max_iter s))%Z) /\
  (forall o, solve s = Ok o -> exit o <> Diverging).
Proof.
  split.
  - intros du t m u0 r x E.
    destruct (enter_step_n_iter m u0 du t) as (Hn0 & _).
    split.
    + eapply newton_loop_fuel; [|exact E]. rewrite Hn0. lia.
    + pose proof (statics_newton_loop_spec s du t _ _ _ _ E) as (H1 & _ & _ & _ & H5 & _).
      rewrite Hn0 in *. lia.
  - intros o. unfold solve.
    destruct (no_of_load_steps s =? 0)%Z; [discriminate|].
    destruct (MechanicalSystem.K_and_f _ None 0) as [K0 f0].
    destruct (arange _ _ _) as [ts|]; simpl; [|discriminate].
    intros Ho. apply load_steps_spec in Ho. apply Ho.
Qed.

Lemma statics_solve_raise_inv (e : exn) :
  solve s = Raise e ->
  e = ZeroDivisionError /\ (no_of_load_steps s = 0%Z \/ smplfd_nwtn_itr s = 0%Z).
Proof.
  destruct (Z.eq_dec (no_of_load_steps s) 0) as [H0 | H0].
  - unfold solve. rewrite H0. simpl. intros [= <-]. auto.
  - rewrite (statics_solve_unfold H0). intros He.
    apply load_steps_raise in He. tauto.
Qed.





(** [solve] returns whenever it has a load step count and a refresh
    period that are not zero. *)
Lemma statics_solve_returns :
  no_of_load_steps s <> 0%Z ->
  smplfd_nwtn_itr s <> 0%Z ->
  exists o, solve s = Ok o.
Proof.
  intros Hn HN. destruct (solve s) as [o|e] eqn:E; [exists o; reflexivity|].
  apply statics_solve_raise_inv in E. tauto.
Qed.

End StaticsSolveResults.

(** Three load steps on the linear example. *)
Lemma statics_solve_terminates_witness :
  let s := MoreExamples.statics_with_load_steps 3 (StaticsExample.solver 1000 1 true) in
  exists o, NonlinearStaticsSolver.solve s = Ok o /\
            NonlinearStaticsSolver.exit o <> NonlinearStaticsSolver.Diverging.
Proof.
  intros s.
  destruct (statics_solve_returns s) as [o Ho]; [discriminate | discriminate |].
  exists o. split; [exact Ho|].
  apply (statics_solve_terminates s). exact Ho.
Defined.





(** ** The load factors *)

Lemma INR_to_nat (n : Z) : (0 <= n)%Z -> INR (Z.to_nat n) = IZR n.
Proof. intros Hn. rewrite INR_IZR_INZ, Z2Nat.id by exact Hn. reflexivity. Qed.



(** ** The constructor of the dynamics solvers *)

Section DynamicsInit.

Import NonlinearDynamicsSolver.

Variable c : SolverClass.
Variable m : MechanicalSystem.system.
Variable P : LinSolver.
Variable o : Options.

Lemma initial_vector_length (n : nat) (given : option Vec) (x : Vec) :
  initial_vector n given = Ok x -> List.length x = n.
Proof.
  unfold initial_vector. destruct given as [y|].
  - destruct (List.length y =? n)%nat eqn:E; [|discriminate].
    intros [= <-]. apply Nat.eqb_eq, E.
  - intros [= <-]. apply zeros_length.
Qed.

Lemma initial_vector_raise (n : nat) (given : option Vec) (e : exn) :
  initial_vector n given = Raise e ->
  e = ValueError /\ exists y, given = Some y /\ List.length y <> n.
Proof.
  unfold initial_vector. destruct given as [y|]; [|discriminate].
  destruct (List.length y =? n)%nat eqn:E; [discriminate|].
  intros [= <-]. split; [reflexivity|]. exists y. split; [reflexivity|].
  apply Nat.eqb_neq, E.
Qed.

Lemma set_initial_conditions_Ok (q0 dq0 : Vec) :
  set_initial_conditions m o = Ok (q0, dq0) ->
  List.length q0 = MechanicalSystem.no_of_dofs m /\
  List.length dq0 = MechanicalSystem.no_of_dofs m /\
  (forall ic y, opt_initial_conditions o = Some ic -> ic_q0 ic = Some y -> q0 = y) /\
  (forall ic y, opt_initial_conditions o = Some ic -> ic_dq0 ic = Some y -> dq0 = y) /\
  ((forall ic, opt_initial_conditions o = Some ic -> ic_q0 ic = None) ->
   q0 = zeros (MechanicalSystem.no_of_dofs m)) /\
  ((forall ic, opt_initial_conditions o = Some ic -> ic_dq0 ic = None) ->
   dq0 = zeros (MechanicalSystem.no_of_dofs m)).
Proof.
  unfold set_initial_conditions.
  destruct (PyCall.call _ _ _); simpl; [|discriminate].
  destruct (initial_vector _ (ic_q0 _)) as [x|] eqn:Eq; simpl; [|discriminate].
  destruct (initial_vector _ (ic_dq0 _)) as [y|] eqn:Ed; simpl; [|discriminate].
  intros [= <- <-].
  pose proof (initial_vector_length _ _ _ Eq) as Hq.
  pose proof (initial_vector_length _ _ _ Ed) as Hd.
  splits; try assumption.
  - intros ic z Hic Hz. rewrite Hic in Eq. simpl in Eq. rewrite Hz in Eq.
    simpl in Eq. destruct (_ =? _)%nat; congruence.
  - intros ic z Hic Hz. rewrite Hic in Ed. simpl in Ed. rewrite Hz in Ed.
    simpl in Ed. destruct (_ =? _)%nat; congruence.
  - intros Hn. destruct (opt_initial_conditions o) as [ic|]; simpl in Eq.
    + rewrite (Hn ic eq_refl) in Eq. simpl in Eq. congruence.
    + simpl in Eq. congruence.
  - intros Hn. destruct (opt_initial_conditions o) as [ic|]; simpl in Ed.
    + rewrite (Hn ic eq_refl) in Ed. simpl in Ed. congruence.
    + simpl in Ed. congruence.
Qed.

(** X7: a constructed dynamics solver starts [solve] with vectors of the
    right size: [q], [dq], [ddq] and [f_ext] have [no_of_dofs] entries and
    [v] has [no_of_dofs] entries when the scheme uses it and none
    otherwise; given [q0] and [dq0] are taken over, missing ones are zero,
    the acceleration starts at zero, and [dt_output] defaults to [dt]. *)
Theorem constructed_solver_initial_state (s : solver) :
  init c m P o = Ok s ->
  let st := initial_state s in
  let n := MechanicalSystem.no_of_dofs m in
  List.length (q st) = n /\ List.length (dq st) = n /\
  ddq st = zeros n /\ f_ext st = zeros n /\
  List.length (v st) = (if class_use_v c then n else 0%nat) /\
  t st = get (opt_t0 o) 0.0 /\
  (forall ic y, opt_initial_conditions o = Some ic -> ic_q0 ic = Some y -> q st = y) /\
  (forall ic y, opt_initial_conditions o = Some ic -> ic_dq0 ic = Some y -> dq st = y) /\
  (opt_initial_conditions o = None -> q st = zeros n /\ dq st = zeros n) /\
  (opt_dt_output o = None -> dt_output s = dt s).
Proof.
  unfold init.
  destruct (PyCall.call _ _ _); simpl; [|discriminate].
  destruct (set_initial_conditions m o) as [[q0 dq0]|] eqn:Eic; simpl; [|discriminate].
  destruct (opt_dt o) as [dt0|]; [|discriminate].
  intros [= <-]. simpl.
  destruct (set_initial_conditions_Ok _ _ Eic) as (Hq & Hd & Hq0 & Hd0 & Hqz & Hdz).
  splits; try assumption; try reflexivity.
  - rewrite Hq. reflexivity.
  - rewrite Hq. reflexivity.
  - destruct (class_use_v c); [exact Hd | reflexivity].
  - intros Hn. split; [apply Hqz | apply Hdz]; intros ic Hic; congruence.
  - intros ->. reflexivity.
Qed.

(** X8: the constructor fails on a configuration error and on nothing
    else.  It raises only [TypeError] (a keyword that cannot be bound) and
    [ValueError]; it never succeeds without ['dt'], nor with a [q0] or
    [dq0] whose length is not [no_of_dofs]; and it succeeds when the
    keywords bind, given initial vectors fit and ['dt'] is present. *)
Theorem constructor_configuration_errors :
  (forall e, init c m P o = Raise e -> e = TypeError \/ e = ValueError) /\
  (opt_dt o = None -> forall s, init c m P o <> Ok s) /\
  (forall ic y, opt_initial_conditions o = Some ic ->
                (ic_q0 ic = Some y \/ ic_dq0 ic = Some y) ->
                List.length y <> MechanicalSystem.no_of_dofs m ->
                forall s, init c m P o <> Ok s) /\
  (PyCall.call Solver_init_sig 2 (keys o) = Ok tt ->
   PyCall.call set_initial_conditions_sig 1 (keys o) = Ok tt ->
   (forall ic y, opt_initial_conditions o = Some ic ->
                 (ic_q0 ic = Some y \/ ic_dq0 ic = Some y) ->
                 List.length y = MechanicalSystem.no_of_dofs m) ->
   opt_dt o <> None ->
   exists s, init c m P o = Ok s).
Proof.
  splits.
  - intros e. unfold init.
    destruct (PyCall.call _ _ _) eqn:E1; simpl;
      [|intros [= <-]; left; eapply call_raise, E1].
    destruct (set_initial_conditions m o) as [ic|e1] eqn:Eic; simpl.
    + destruct (opt_dt o); [discriminate | intros [= <-]; auto].
    + intros [= He]. subst e1. revert Eic. unfold set_initial_conditions.
      destruct (PyCall.call set_initial_conditions_sig 1 (keys o)) eqn:E2; simpl;
        [|intros [= <-]; left; eapply call_raise, E2].
      destruct (initial_vector _ (ic_q0 _)) eqn:Eq; simpl;
        [|intros [= <-]; right; eapply initial_vector_raise, Eq].
      destruct (initial_vector _ (ic_dq0 _)) eqn:Ed; simpl; [discriminate|].
      intros [= <-]. right. eapply initial_vector_raise, Ed.
  - intros Hdt s. unfold init.
    destruct (PyCall.call _ _ _); simpl; [|discriminate].
    destruct (set_initial_conditions m o); simpl; [|discriminate].
    rewrite Hdt. discriminate.
  - intros ic y Hic Hy Hlen s. unfold init.
    destruct (PyCall.call _ _ _); simpl; [|discriminate].
    destruct (set_initial_conditions m o) as [[q0 dq0]|] eqn:Eic; simpl; [|discriminate].
    exfalso.
    destruct (set_initial_conditions_Ok _ _ Eic) as (Hq & Hd & Hq0 & Hd0 & _).
    destruct Hy as [Hy | Hy].
    + rewrite (Hq0 ic y Hic Hy) in Hq. contradiction.
    + rewrite (Hd0 ic y Hic Hy) in Hd. contradiction.
  - intros H1 H2 Hfit Hdt. unfold init, set_initial_conditions.
    rewrite H1, H2. simpl.
    assert (Hv : forall given,
               (forall y, given = Some y -> List.length y = MechanicalSystem.no_of_dofs m) ->
               exists x, initial_vector (MechanicalSystem.no_of_dofs m) given = Ok x).
    { intros [y|] Hy; simpl; [|eexists; reflexivity].
      rewrite (Hy y eq_refl), Nat.eqb_refl. eexists; reflexivity. }
    destruct (Hv (ic_q0 (get (opt_initial_conditions o) {| ic_q0 := None; ic_dq0 := None |})))
      as [q0 Hq0].
    { intros y Hy. destruct (opt_initial_conditions o) as [ic|] eqn:Eo; simpl in Hy;
        [eapply Hfit; eauto | discriminate]. }
    destruct (Hv (ic_dq0 (get (opt_initial_conditions o) {| ic_q0 := None; ic_dq0 := None |})))
      as [dq0 Hdq0].
    { intros y Hy. destruct (opt_initial_conditions o) as [ic|] eqn:Eo; simpl in Hy;
        [eapply Hfit; eauto | discriminate]. }
    rewrite Hq0, Hdq0. simpl.
    destruct (opt_dt o); [eexists; reflexivity | contradiction].
Qed.

End DynamicsInit.

(** The generalized-alpha solver of the spring, no initial conditions given. *)
Lemma constructed_solver_initial_state_witness :
  match NonlinearDynamicsSolver.init GeneralizedAlphaNonlinearDynamicsSolver
          (Example.spring 1) Example.scalar_solver
          (Example.some_options (Some 0.01) None None None None None None) with
  | Ok s =>
      NonlinearDynamicsSolver.q (NonlinearDynamicsSolver.initial_state s) = zeros 1 /\
      NonlinearDynamicsSolver.dq (NonlinearDynamicsSolver.initial_state s) = zeros 1
  | Raise _ => False
  end.
Proof.
  destruct (NonlinearDynamicsSolver.init _ _ _ _) as [s|e] eqn:E.
  - apply (constructed_solver_initial_state _ _ _ _ s E). reflexivity.
  - cbn in E. discriminate E.
Defined.

(** The same options: the constructor succeeds. *)
Lemma constructor_configuration_errors_witness :
  exists s,
    NonlinearDynamicsSolver.init GeneralizedAlphaNonlinearDynamicsSolver
      (Example.spring 1) Example.scalar_solver
      (Example.some_options (Some 0.01) None None None None None None) = Ok s.
Proof.
  apply (constructor_configuration_errors GeneralizedAlphaNonlinearDynamicsSolver
           (Example.spring 1) Example.scalar_solver
           (Example.some_options (Some 0.01) None None None None None None)).
  - reflexivity.
  - reflexivity.
  - intros ic y Hic. discriminate Hic.
  - discriminate.
Defined.

(** ** The time step loop: counts, exits and records *)

Section DynamicsCounts.

Import NonlinearDynamicsSolver Dynamics.

Variable s : solver.
Variable h : Hooks.

Lemma newton_loop_count (old : Old) (fuel : nat) :
  forall st Jac res res_abs n_iter e st1 n1 r1,
    (0 <= n_iter <= Z.max 0 (n_iter_max s))%Z ->
    newton_loop s h old fuel st Jac res res_abs n_iter = (e, st1, n1, r1) ->
    (e = Converged -> (n_iter <= n1 <= Z.max 0 (n_iter_max s))%Z) /\
    (e = RolledBack \/ e = AbortReturn -> n1 = (Z.max 0 (n_iter_max s) + 1)%Z).
Proof.
  induction fuel as [|fuel IH]; intros st Jac res res_abs n_iter e st1 n1 r1 Hn; simpl.
  - destruct (Rgtb res_abs _); intros [= <- <- <- <-]; split;
      try (intros [H | H]; discriminate); intros; try discriminate; lia.
  - destruct (Rgtb res_abs _).
    + destruct (correct h _ _ _ _ _) as [[[q1 dq1] v1] ddq1].
      destruct (newton_raphson h _ _ _ _ _ _ _ _ _ _ _) as [ms1 [[Jac1 res1] f_ext1]].
      destruct (n_iter + 1 >? n_iter_max s)%Z eqn:Hcap.
      * apply Z.gtb_lt in Hcap.
        destruct (conv_abort s); intros [= <- <- <- <-]; split;
          try (intros; discriminate); intros _; lia.
      * rewrite Z.gtb_ltb in Hcap. apply Z.ltb_ge in Hcap.
        intros Hrec. apply IH in Hrec; [|lia].
        destruct Hrec as (H1 & H2). split; [intros He; specialize (H1 He); lia | exact H2].
    + intros [= <- <- <- <-]. split;
        try (intros [H | H]; discriminate); intros; lia.
Qed.

(** X9: a time step makes at most [max(0, n_iter_max) + 1] Newton
    iterations and its loop never runs out of the fuel [solve] gives it.
    When the loop converges, the count is at most [max(0, n_iter_max)];
    when the step is rolled back or the solve aborted it is exactly one
    more. *)
Theorem newton_iterations_bounded (st : State) (e : NewtonExit) (st1 : State)
    (n_iter : Z) (res_abs : R) :
  advance s h st = (e, st1, n_iter, res_abs) ->
  e <> OutOfFuel /\
  (e = Converged -> (0 <= n_iter <= Z.max 0 (n_iter_max s))%Z) /\
  (e = RolledBack \/ e = AbortReturn -> n_iter = (Z.max 0 (n_iter_max s) + 1)%Z).
Proof.
  intros Ha. split; [apply advance_spec in Ha; apply Ha|].
  unfold advance in Ha.
  destruct (predict h _ _ _ _) as [[[q1 dq1] v1] ddq1].
  destruct (newton_raphson h _ _ _ _ _ _ _ _ _ _ _) as [ms1 [[Jac res] f_ext1]].
  apply newton_loop_count in Ha; [|lia]. exact Ha.
Qed.

(** The ways through the body of the time step loop. *)
Lemma time_step_cases (time_range : list R) (st : State) (e : StepExit) (st1 : State) :
  time_step s h time_range st = (e, st1) ->
  let st0 := fst (write_output time_range st) in
  (snd (write_output time_range st) = true /\ e = Break /\ st1 = st0) \/
  (snd (write_output time_range st) = false /\
   exists ex st2 n r,
     advance s h st0 = (ex, st2, n, r) /\
     ((ex = AbortReturn /\ e = Return /\ st1 = st2) \/
      ((ex = Converged \/ ex = RolledBack) /\ e = Continue /\ st1 = track s st2 n r))).
Proof.
  unfold time_step.
  destruct (write_output time_range st) as [st0 brk]. simpl.
  destruct brk.
  - intros [= <- <-]. left. auto.
  - destruct (advance s h st0) as [[[ex st2] n] r] eqn:Ea.
    pose proof (advance_spec s h _ _ _ _ _ Ea) as (_ & _ & _ & _ & _ & _ & _ & Hf).
    destruct ex; intros [= <- <-]; try contradiction;
      right; (split; [reflexivity|]); eexists _, st2, n, r; (split; [reflexivity|]); auto.
Qed.

Lemma write_output_index (time_range : list R) (st : State) :
  time_index (fst (write_output time_range st)) =
    (if Rgeb (t st + eps) (nth (time_index st) time_range 0)
     then S (time_index st) else time_index st) /\
  (snd (write_output time_range st) = true ->
   Rgeb (t st + eps) (nth (time_index st) time_range 0) = true /\
   S (time_index st) = List.length time_range) /\
  (snd (write_output time_range st) = false ->
   Rgeb (t st + eps) (nth (time_index st) time_range 0) = true ->
   S (time_index st) <> List.length time_range).
Proof.
  unfold write_output. destruct (Rgeb _ _); cbn [fst snd time_index]; splits.
  - reflexivity.
  - intros H. split; [reflexivity | apply Nat.eqb_eq, H].
  - intros H _. apply Nat.eqb_neq, H.
  - reflexivity.
  - discriminate.
  - discriminate.
Qed.

(** What one pass through the body does to the clock, the output index
    and the record. *)
Lemma time_step_effect (time_range : list R) (st : State) (e : StepExit) (st1 : State) :
  time_step s h time_range st = (e, st1) ->
  e <> Stuck /\
  (e = Return -> conv_abort s = true) /\
  time_index st1 =
    (if Rgeb (t st + eps) (nth (time_index st) time_range 0)
     then S (time_index st) else time_index st) /\
  (e = Break -> time_index st1 = List.length time_range) /\
  (e <> Break -> time_index st < List.length time_range ->
   time_index st1 < List.length time_range)%nat /\
  (e = Continue ->
   t st1 = t st + dt s \/
   (conv_abort s = false /\ t st1 = t st /\ q st1 = q st /\ dq st1 = dq st /\
    v st1 = v st /\ f_ext st1 = f_ext st)) /\
  (write_iter s = false -> keeps_timesteps h ->
   MechanicalSystem.timesteps (ms st1) =
     MechanicalSystem.timesteps (ms st) ++
     (if Rgeb (t st + eps) (nth (time_index st) time_range 0)
      then [(t st, q st)] else [])).
Proof.
  intros Hstep. apply time_step_cases in Hstep. simpl in Hstep.
  pose proof (write_output_spec time_range st) as Hw. simpl in Hw.
  destruct Hw as (Ht & Hq & Hdq & Hv & _ & Hf & _ & Hlog).
  destruct (write_output_index time_range st) as (Hidx & Hbrk & Hnobrk).
  destruct Hstep as [(Hb & -> & ->) | (Hb & ex & st2 & n & r & Ha & Hex)].
  - destruct (Hbrk Hb) as (Hg & Hlen).
    splits; try discriminate; try (intros; discriminate); try (intros; contradiction); auto.
    intros _. rewrite Hidx, Hg. exact Hlen.
  - pose proof (advance_spec s h _ _ _ _ _ Ha)
      as (_ & Hi2 & _ & Hl2 & Hc & Hab & Hr & _).
    assert (Hi1 : time_index st1 = time_index (fst (write_output time_range st))).
    { destruct Hex as [(_ & _ & ->) | (_ & _ & ->)]; simpl; exact Hi2. }
    assert (Hl1 : write_iter s = false -> keeps_timesteps h ->
                  MechanicalSystem.timesteps (ms st1) =
                  MechanicalSystem.timesteps (ms (fst (write_output time_range st)))).
    { intros Hwi Hk. destruct Hex as [(_ & _ & ->) | (_ & _ & ->)]; simpl; apply Hl2; assumption. }
    splits.
    + destruct Hex as [(_ & -> & _) | (_ & -> & _)]; discriminate.
    + intros ->. destruct Hex as [(-> & _ & _) | (_ & He & _)]; [|discriminate].
      apply Hab. reflexivity.
    + rewrite Hi1. exact Hidx.
    + intros ->. destruct Hex as [(_ & He & _) | (_ & He & _)]; discriminate.
    + intros _ Hlt. rewrite Hi1, Hidx.
      destruct (Rgeb _ _) eqn:Hg; [|exact Hlt].
      specialize (Hnobrk Hb eq_refl). lia.
    + intros ->. destruct Hex as [(_ & He & _) | ([-> | ->] & _ & ->)]; [discriminate| |].
      * left. simpl. destruct (Hc eq_refl) as (Ht2 & _). rewrite Ht2, Ht. reflexivity.
      * right. simpl. destruct (Hr eq_refl) as (H1 & H2 & H3 & H4 & H5 & H6 & _).
        splits; congruence.
    + intros Hwi Hk. rewrite (Hl1 Hwi Hk). exact Hlog.
Qed.

End DynamicsCounts.

Section DynamicsLoop.

Import NonlinearDynamicsSolver Dynamics.

Variable s : solver.
Variable h : Hooks.
Variable time_range : list R.

Lemma time_loop_exit (fuel : nat) :
  forall st,
    fst (time_loop s h time_range fuel st) <> Diverging /\
    (fst (time_loop s h time_range fuel st) = Aborted -> conv_abort s = true).
Proof.
  induction fuel as [|fuel IH]; intros st; simpl.
  - destruct (_ <? _)%nat; simpl; split; discriminate.
  - destruct (_ <? _)%nat; [|simpl; split; discriminate].
    destruct (time_step s h time_range st) as [e st1] eqn:Es.
    pose proof (time_step_effect s h _ _ _ _ Es) as (Hstuck & Hret & _).
    destruct e; simpl; try (split; discriminate).
    + apply IH.
    + split; [discriminate | intros _; apply Hret; reflexivity].
    + contradiction.
Qed.

(** X10: the time step loop leaves only by its end, by the [break] after
    the last output or by the abort [return], and by the latter only when
    [conv_abort] is true.  A pass that goes on to the next one has either
    advanced the time by exactly [dt] or, with [conv_abort = false], has put
    [t], [q], [dq], [v] and [f_ext] back to what they were. *)
Theorem time_loop_exits_and_clock :
  (forall fuel st,
     fst (time_loop s h time_range fuel st) <> Diverging /\
     (fst (time_loop s h time_range fuel st) = Aborted -> conv_abort s = true)) /\
  (forall st st1,
     time_step s h time_range st = (Continue, st1) ->
     (conv_abort s = true -> t st1 = t st + dt s) /\
     (t st1 = t st + dt s \/
      (t st1 = t st /\ q st1 = q st /\ dq st1 = dq st /\ v st1 = v st /\
       f_ext st1 = f_ext st))).
Proof.
  split; [intros fuel st; apply time_loop_exit|].
  intros st st1 Es.
  pose proof (time_step_effect s h _ _ _ _ Es) as (_ & _ & _ & _ & _ & Hc & _).
  destruct (Hc eq_refl) as [Ht | (Hca & Hrest)].
  - split; [intros _; exact Ht | left; exact Ht].
  - split; [intros Hca'; congruence | right; exact Hrest].
Qed.

Hypothesis Hwrite_iter : write_iter s = false.
Hypothesis Hkeeps : keeps_timesteps h.

Let log (st : State) : list (R * Vec) := MechanicalSystem.timesteps (ms st).

Lemma time_loop_records (fuel : nat) :
  forall st,
    (time_index st <= List.length time_range)%nat ->
    List.length (log st) = time_index st ->
    let r := time_loop s h time_range fuel st in
    List.length (log (snd r)) = time_index (snd r) /\
    (time_index (snd r) <= List.length time_range)%nat /\
    (fst r = Finished -> time_index (snd r) = List.length time_range) /\
    (fst r = Running -> (time_index (snd r) < List.length time_range)%nat) /\
    exists more,
      log (snd r) = log st ++ more /\
      ((0 < fuel)%nat -> (time_index st < List.length time_range)%nat ->
       Rgeb (t st + eps) (nth (time_index st) time_range 0) = true ->
       exists more1, more = (t st, q st) :: more1).
Proof.
  induction fuel as [|fuel IH]; intros st Hle Hlen; simpl.
  - destruct (time_index st <? List.length time_range)%nat eqn:Hlt; simpl.
    + apply Nat.ltb_lt in Hlt. splits; auto; try discriminate.
      exists []. rewrite app_nil_r. split; [reflexivity | intros H; inversion H].
    + apply Nat.ltb_ge in Hlt. splits; auto; try discriminate; try lia.
      exists []. rewrite app_nil_r. split; [reflexivity | intros H; inversion H].
  - destruct (time_index st <? List.length time_range)%nat eqn:Hlt.
    + apply Nat.ltb_lt in Hlt.
      destruct (time_step s h time_range st) as [e st1] eqn:Es.
      pose proof (time_step_effect s h _ _ _ _ Es)
        as (Hstuck & _ & Hidx & Hbrk & Hnobrk & _ & Hlog).
      specialize (Hlog Hwrite_iter Hkeeps). fold (log st1) in Hlog. fold (log st) in Hlog.
      assert (Hlen1 : List.length (log st1) = time_index st1).
      { rewrite Hlog, Hidx, length_app, Hlen.
        destruct (Rgeb _ _); simpl; lia. }
      assert (Hle1 : (time_index st1 <= List.length time_range)%nat).
      { rewrite Hidx. destruct (Rgeb _ _); lia. }
      assert (Hfirst : forall more2,
                 exists more, log st ++
                   (if Rgeb (t st + eps) (nth (time_index st) time_range 0)
                    then [(t st, q st)] else []) ++ more2 = log st ++ more /\
                 ((0 < S fuel)%nat -> (time_index st < List.length time_range)%nat ->
                  Rgeb (t st + eps) (nth (time_index st) time_range 0) = true ->
                  exists more1, more = (t st, q st) :: more1)).
      { intros more2. eexists. split; [reflexivity|].
        intros _ _ ->. eexists. reflexivity. }
      destruct e; simpl.
      * destruct (IH st1 Hle1 Hlen1) as (H1 & H2 & H3 & H4 & more2 & H5 & _).
        splits; try assumption.
        rewrite H5, Hlog, <- app_assoc. apply Hfirst.
      * splits; try assumption; try discriminate.
        -- intros _. apply Hbrk. reflexivity.
        -- rewrite Hlog, <- (app_nil_r (if Rgeb _ _ then _ else _)). apply Hfirst.
      * splits; try assumption; try discriminate.
        rewrite Hlog, <- (app_nil_r (if Rgeb _ _ then _ else _)). apply Hfirst.
      * contradiction.
    + apply Nat.ltb_ge in Hlt. simpl. splits; auto; try discriminate; try lia.
      exists []. rewrite app_nil_r. split; [reflexivity|]. intros _ H. lia.
Qed.

End DynamicsLoop.

Lemma arange_first (start stop step : R) (time_range : list R) :
  arange start stop step = Ok time_range ->
  time_range <> [] ->
  nth 0 time_range 0 = start + 0 * step.
Proof.
  unfold arange. destruct (Req_dec_T step 0); [discriminate|].
  intros [= <-]. destruct (Z.to_nat _) as [|k]; [intros H; contradiction H; reflexivity|].
  intros _. reflexivity.
Qed.

(** X11: in a [solve] with [write_iter = false] whose methods do not
    write outputs themselves, the number of recorded outputs is the output
    index and never exceeds the number of grid points; a [solve] that
    finishes has recorded exactly one output per grid point; and when the
    grid is not empty the first output is the initial time and
    displacement. *)
Theorem outputs_counted
    (s : NonlinearDynamicsSolver.solver) (fuel : nat)
    (e : NonlinearDynamicsSolver.Exit) (st : NonlinearDynamicsSolver.State)
    (time_range : list R) :
  let h := NonlinearDynamicsSolver.set_parameters (NonlinearDynamicsSolver.cls s)
             (NonlinearDynamicsSolver.rho_inf s) (NonlinearDynamicsSolver.dt s) in
  NonlinearDynamicsSolver.write_iter s = false ->
  Dynamics.keeps_timesteps h ->
  arange (NonlinearDynamicsSolver.t0 s) (NonlinearDynamicsSolver.t_end s)
         (NonlinearDynamicsSolver.dt_output s) = Ok time_range ->
  NonlinearDynamicsSolver.solve s fuel = Ok (e, st) ->
  let outputs := MechanicalSystem.timesteps (NonlinearDynamicsSolver.ms st) in
  List.length outputs = NonlinearDynamicsSolver.time_index st /\
  (List.length outputs <= List.length time_range)%nat /\
  (e = NonlinearDynamicsSolver.Finished -> List.length outputs = List.length time_range) /\
  (e = NonlinearDynamicsSolver.Running ->
   (List.length outputs < List.length time_range)%nat) /\
  ((0 < fuel)%nat -> time_range <> [] ->
   exists rest,
     outputs = (NonlinearDynamicsSolver.t0 s,
                fst (NonlinearDynamicsSolver.initial_conditions s)) :: rest).
Proof.
  intros h Hw Hk Hgrid Hsolve outputs.
  unfold NonlinearDynamicsSolver.solve in Hsolve. rewrite Hgrid in Hsolve. simpl in Hsolve.
  destruct (PyCall.call _ _ _); simpl in Hsolve; [|discriminate].
  injection Hsolve as Hsolve. fold h in Hsolve.
  pose proof (time_loop_records s h time_range Hw Hk fuel
                (NonlinearDynamicsSolver.initial_state s)) as H.
  simpl in H. rewrite Hsolve in H. simpl in H.
  destruct H as (H1 & H2 & H3 & H4 & more & H5 & H6); [lia | reflexivity |].
  fold outputs in H1, H5. splits; try assumption; try (rewrite H1; assumption).
  intros Hfuel Hne. rewrite H5.
  destruct H6 as (more1 & ->); [exact Hfuel | | | eexists; reflexivity].
  - destruct time_range; [contradiction | simpl; lia].
  - apply Rgeb_true_iff. rewrite (arange_first _ _ _ _ Hgrid Hne).
    unfold NonlinearDynamicsSolver.eps. lra.
Qed.

Section DynamicsTermination.

Import NonlinearDynamicsSolver Dynamics.

Variable s : solver.
Variable h : Hooks.
Variable time_range : list R.
Variable B : nat.

Hypothesis Hconv_abort : conv_abort s = true.
Hypothesis Hdt : 0 < dt s.
Hypothesis Hgrid : forall x, In x time_range -> x <= t0 s + INR B * dt s.

(** With [conv_abort] and a positive [dt], each pass either writes an
    output or brings the time one step closer to the outputs still due. *)
Lemma time_loop_leaves (fuel : nat) :
  forall st k,
    t st = t0 s + INR k * dt s ->
    (List.length time_range - time_index st + (B - k) <= fuel)%nat ->
    fst (time_loop s h time_range fuel st) <> Running.
Proof.
  induction fuel as [|fuel IH]; intros st k Ht Hm; simpl.
  - destruct (time_index st <? List.length time_range)%nat eqn:Hlt; simpl;
      [|discriminate].
    apply Nat.ltb_lt in Hlt. lia.
  - destruct (time_index st <? List.length time_range)%nat eqn:Hlt; simpl;
      [|discriminate].
    apply Nat.ltb_lt in Hlt.
    destruct (time_step s h time_range st) as [e st1] eqn:Es.
    pose proof (time_step_effect s h _ _ _ _ Es) as (_ & _ & Hidx & _ & _ & Hc & _).
    destruct e; simpl; try discriminate.
    destruct (Hc eq_refl) as [Ht1 | (Hca & _)]; [|congruence].
    apply (IH st1 (S k)).
    + rewrite Ht1, Ht, S_INR. ring.
    + rewrite Hidx.
      destruct (Rgeb (t st + eps) (nth (time_index st) time_range 0)) eqn:Hg; [lia|].
      apply Rgeb_false_iff in Hg.
      assert (Hin : In (nth (time_index st) time_range 0) time_range)
        by (apply nth_In; exact Hlt).
      apply Hgrid in Hin.
      assert (Hk : INR k < INR B).
      { apply (Rmult_lt_reg_r (dt s)); [exact Hdt|].
        unfold eps in Hg. lra. }
      apply INR_lt in Hk. lia.
Qed.

End DynamicsTermination.



(** The spring, first time step. *)
Lemma newton_iterations_bounded_witness :
  let s := DynamicsExample.solver 1 1.0E-9 1.0E-6 30 true in
  match NonlinearDynamicsSolver.advance s (DynamicsExample.hooks s)
          (NonlinearDynamicsSolver.initial_state s) with
  | (e, _, n_iter, _) =>
      e <> NonlinearDynamicsSolver.OutOfFuel /\
      (e = NonlinearDynamicsSolver.Converged -> (0 <= n_iter <= 30)%Z) /\
      (e = NonlinearDynamicsSolver.RolledBack \/ e = NonlinearDynamicsSolver.AbortReturn ->
       n_iter = 31%Z)
  end.
Proof.
  intros s.
  destruct (NonlinearDynamicsSolver.advance s _ _) as [[[e st1] n] r] eqn:E.
  exact (newton_iterations_bounded s (DynamicsExample.hooks s) _ e st1 n r E).
Defined.

(** The spring, first pass through the time step loop. *)
Lemma time_loop_exits_and_clock_witness :
  let s := DynamicsExample.solver 1 1.0E-9 1.0E-6 30 true in
  match NonlinearDynamicsSolver.time_step s (DynamicsExample.hooks s) [0; 0.5]
          (NonlinearDynamicsSolver.initial_state s) with
  | (NonlinearDynamicsSolver.Continue, st1) => NonlinearDynamicsSolver.t st1 = 0 + 1
  | _ => True
  end.
Proof.
  intros s.
  destruct (NonlinearDynamicsSolver.time_step s _ _ _) as [e st1] eqn:E.
  destruct e; try exact I.
  exact (proj1 (proj2 (time_loop_exits_and_clock s (DynamicsExample.hooks s) [0; 0.5])
                  _ st1 E) eq_refl).
Defined.

(** The spring, two passes through the time step loop. *)
Lemma outputs_counted_witness :
  match NonlinearDynamicsSolver.solve (DynamicsExample.solver 1 1.0E-9 1.0E-6 30 true) 2 with
  | Ok (_, st) =>
      exists rest,
        MechanicalSystem.timesteps (NonlinearDynamicsSolver.ms st) = (0, [0]) :: rest
  | Raise _ => False
  end.
Proof.
  assert (Hgrid : arange 0 1 0.5 = Ok [0 + INR 0 * 0.5; 0 + INR 1 * 0.5]).
  { unfold arange. destruct (Req_dec_T 0.5 0) as [H|H]; [lra|].
    replace (Rceil ((1 - 0) / 0.5)) with 2%Z; [reflexivity|].
    unfold Rceil. replace (- ((1 - 0) / 0.5)) with (IZR (-2)) by (simpl; lra).
    replace (up (IZR (-2))) with (-1)%Z by (apply tech_up; simpl; lra).
    reflexivity. }
  destruct (NonlinearDynamicsSolver.solve _ 2) as [[e st]|err] eqn:E.
  - apply (outputs_counted
             (DynamicsExample.solver 1 1.0E-9 1.0E-6 30 true) 2 e st
             [0 + INR 0 * 0.5; 0 + INR 1 * 0.5]).
    + reflexivity.
    + apply generalized_alpha_keeps_timesteps.
    + exact Hgrid.
    + exact E.
    + lia.
    + discriminate.
  - unfold NonlinearDynamicsSolver.solve in E. simpl in E.
    rewrite Hgrid in E. discriminate E.
Defined.

(** ** Arrays, entry by entry *)

Section ArrayEntries.

Lemma zip_with_length (f : R -> R -> R) (x y : Vec) :
  List.length (zip_with f x y) = Nat.min (List.length x) (List.length y).
Proof.
  revert y. induction x as [|a x IH]; intros [|b y]; simpl; auto.
Qed.

Lemma vadd_length (x y : Vec) :
  List.length (vadd x y) = Nat.min (List.length x) (List.length y).
Proof. apply zip_with_length. Qed.

Lemma vsub_length (x y : Vec) :
  List.length (vsub x y) = Nat.min (List.length x) (List.length y).
Proof. apply zip_with_length. Qed.

Lemma vscale_length (c : R) (x : Vec) : List.length (vscale c x) = List.length x.
Proof. apply length_map. Qed.

Lemma vopp_length (x : Vec) : List.length (vopp x) = List.length x.
Proof. apply length_map. Qed.

Lemma nth_zip_with (f : R -> R -> R) (x y : Vec) (i : nat) :
  f 0 0 = 0 ->
  List.length x = List.length y ->
  nth i (zip_with f x y) 0 = f (nth i x 0) (nth i y 0).
Proof.
  intros Hf. revert y i.
  induction x as [|a x IH]; intros [|b y] [|i]; simpl; intros Hl;
    try discriminate; auto.
Qed.

Lemma nth_vadd (x y : Vec) (i : nat) :
  List.length x = List.length y ->
  nth i (vadd x y) 0 = nth i x 0 + nth i y 0.
Proof. apply nth_zip_with. ring. Qed.

Lemma nth_vsub (x y : Vec) (i : nat) :
  List.length x = List.length y ->
  nth i (vsub x y) 0 = nth i x 0 - nth i y 0.
Proof. apply nth_zip_with. ring. Qed.

Lemma nth_vscale (c : R) (x : Vec) (i : nat) :
  nth i (vscale c x) 0 = c * nth i x 0.
Proof.
  revert i. induction x as [|a x IH]; intros [|i]; simpl; auto; ring.
Qed.

Lemma nth_vopp (x : Vec) (i : nat) : nth i (vopp x) 0 = - nth i x 0.
Proof.
  revert i. induction x as [|a x IH]; intros [|i]; simpl; auto; ring.
Qed.

End ArrayEntries.

(** The length of an array expression, its entries, and equality of
    arrays entry by entry. *)
Ltac vec_length :=
  repeat (rewrite ?vadd_length, ?vsub_length, ?vscale_length, ?vopp_length in *);
  try lia.

Ltac vec_entries :=
  repeat first
    [ rewrite nth_vscale
    | rewrite nth_vopp
    | rewrite nth_vadd by vec_length
    | rewrite nth_vsub by vec_length ].

Ltac vec_ext i :=
  apply nth_ext with (d := 0) (d' := 0); [vec_length | intros i _; vec_entries].

(** ** The parameters of the schemes *)

Lemma generalized_alpha_closed_form (rho_inf : R) :
  rho_inf <> -1 ->
  GeneralizedAlpha.beta (GeneralizedAlpha.set_parameters rho_inf) = 1 / (1 + rho_inf) ^ 2 /\
  GeneralizedAlpha.gamma (GeneralizedAlpha.set_parameters rho_inf)
    = (3 - rho_inf) / (2 * (1 + rho_inf)).
Proof.
  intros H. unfold GeneralizedAlpha.set_parameters. cbn [GeneralizedAlpha.beta GeneralizedAlpha.gamma].
  replace 0.25 with (1 / 4) by lra. replace 0.5 with (1 / 2) by lra.
  split; field; lra.
Qed.

(** X13: for every [rho_inf] other than [-1], [set_parameters] of the
    generalized-alpha solver gives [beta = 1/(1 + rho_inf)^2 > 0] and
    [gamma = (3 - rho_inf)/(2 (1 + rho_inf))]; for [0 <= rho_inf <= 1] the
    parameters lie in the region where the scheme is unconditionally
    stable, [alpha_m <= alpha_f <= 1/2] and
    [beta >= 1/4 + (alpha_f - alpha_m)/2], with [gamma >= 1/2]. *)
Theorem generalized_alpha_parameters (rho_inf : R) :
  let p := GeneralizedAlpha.set_parameters rho_inf in
  (rho_inf <> -1 ->
   GeneralizedAlpha.beta p = 1 / (1 + rho_inf) ^ 2 /\
   0 < GeneralizedAlpha.beta p /\
   GeneralizedAlpha.gamma p = (3 - rho_inf) / (2 * (1 + rho_inf))) /\
  (0 <= rho_inf <= 1 ->
   GeneralizedAlpha.alpha_m p <= GeneralizedAlpha.alpha_f p <= 1 / 2 /\
   1 / 2 <= GeneralizedAlpha.gamma p /\
   1 / 4 + (GeneralizedAlpha.alpha_f p - GeneralizedAlpha.alpha_m p) / 2
     <= GeneralizedAlpha.beta p).
Proof.
  intros p. split.
  - intros H. destruct (generalized_alpha_closed_form rho_inf H) as [Hb Hg].
    fold p in Hb, Hg. splits; try assumption.
    rewrite Hb. apply Rdiv_lt_0_compat; [lra|].
    replace ((1 + rho_inf) ^ 2) with (Rsqr (1 + rho_inf)) by (unfold Rsqr; ring).
    apply Rsqr_pos_lt. lra.
  - intros [H0 H1].
    assert (Hne : rho_inf <> -1) by lra.
    destruct (generalized_alpha_closed_form rho_inf Hne) as [Hb Hg].
    fold p in Hb, Hg. rewrite Hb, Hg.
    unfold p, GeneralizedAlpha.set_parameters.
    cbn [GeneralizedAlpha.alpha_m GeneralizedAlpha.alpha_f].
    set (d := / (rho_inf + 1)).
    assert (Hd : d * (rho_inf + 1) = 1) by (unfold d; field; lra).
    assert (Hd0 : 0 < d) by (unfold d; apply Rinv_0_lt_compat; lra).
    replace ((2 * rho_inf - 1) / (rho_inf + 1)) with ((2 * rho_inf - 1) * d)
      by (unfold d, Rdiv; ring).
    replace (rho_inf / (rho_inf + 1)) with (rho_inf * d) by (unfold d, Rdiv; ring).
    replace ((3 - rho_inf) / (2 * (1 + rho_inf))) with ((3 - rho_inf) * d / 2)
      by (unfold d; field; lra).
    replace (1 / (1 + rho_inf) ^ 2) with (d * d) by (unfold d; field; lra).
    splits; nra.
Qed.

Lemma jwh_alpha_closed_form (rho_inf : R) :
  rho_inf <> -1 ->
  JWHAlpha.gamma (JWHAlpha.set_parameters rho_inf) = 1 / (1 + rho_inf).
Proof.
  intros H. unfold JWHAlpha.set_parameters. cbn [JWHAlpha.gamma].
  replace 0.5 with (1 / 2) by lra. field. lra.
Qed.

(** X14: for every [rho_inf] other than [-1], [set_parameters] of the
    JWH-alpha solver gives [gamma = alpha_f = 1/(1 + rho_inf)]; for
    [0 <= rho_inf <= 1] the parameters satisfy
    [alpha_m >= alpha_f >= 1/2], the region where the scheme is
    unconditionally stable, so that none of the divisors [alpha_m],
    [alpha_f] and [gamma] of [predict] and [correct] is zero. *)
Theorem jwh_alpha_parameters (rho_inf : R) :
  let p := JWHAlpha.set_parameters rho_inf in
  (rho_inf <> -1 ->
   JWHAlpha.gamma p = JWHAlpha.alpha_f p /\ JWHAlpha.alpha_f p = 1 / (1 + rho_inf)) /\
  (0 <= rho_inf <= 1 ->
   1 / 2 <= JWHAlpha.alpha_f p <= JWHAlpha.alpha_m p /\
   JWHAlpha.alpha_m p <= 3 / 2 /\ 1 / 2 <= JWHAlpha.gamma p <= 1).
Proof.
  intros p. split.
  - intros H. pose proof (jwh_alpha_closed_form rho_inf H) as Hg. fold p in Hg.
    rewrite Hg. split; reflexivity.
  - intros [H0 H1].
    assert (Hne : rho_inf <> -1) by lra.
    pose proof (jwh_alpha_closed_form rho_inf Hne) as Hg. fold p in Hg. rewrite Hg.
    unfold p, JWHAlpha.set_parameters. cbn [JWHAlpha.alpha_m JWHAlpha.alpha_f].
    set (d := / (1 + rho_inf)).
    assert (Hd : d * (1 + rho_inf) = 1) by (unfold d; field; lra).
    assert (Hd0 : 0 < d) by (unfold d; apply Rinv_0_lt_compat; lra).
    replace ((3 - rho_inf) / (2 * (1 + rho_inf))) with ((3 - rho_inf) * d / 2)
      by (unfold d; field; lra).
    replace (1 / (1 + rho_inf)) with d by (unfold d, Rdiv; ring).
    splits; nra.
Qed.

(** ** What the Newton-Raphson loop of a time step keeps *)

Section DynamicsInvariant.

Import NonlinearDynamicsSolver.

Variable s : solver.
Variable h : Hooks.
Variable I : Vec -> Vec -> Vec -> Vec -> Prop.

Hypothesis Hcorrect :
  forall q dq v ddq A b,
    I q dq v ddq ->
    match correct h q dq v ddq (vopp (linsolver s A b)) with
    | (q1, dq1, v1, ddq1) => I q1 dq1 v1 ddq1
    end.

(** A property of [q], [dq], [v], [ddq] that every [correct] keeps holds
    when the loop ends, unless the step was rolled back. *)
Lemma newton_loop_invariant (old : Old) (fuel : nat) :
  forall st Jac res res_abs n_iter e st1 n1 r1,
    I (q st) (dq st) (v st) (ddq st) ->
    newton_loop s h old fuel st Jac res res_abs n_iter = (e, st1, n1, r1) ->
    e <> RolledBack ->
    I (q st1) (dq st1) (v st1) (ddq st1).
Proof.
  induction fuel as [|fuel IH]; intros st Jac res res_abs n_iter e st1 n1 r1 HI; simpl.
  - destruct (Rgtb _ _); intros [= <- <- <- <-] _; exact HI.
  - destruct (Rgtb _ _); [|intros [= <- <- <- <-] _; exact HI].
    pose proof (Hcorrect _ _ _ _ Jac res HI) as HI1.
    destruct (correct h _ _ _ _ _) as [[[q1 dq1] v1] ddq1].
    destruct (newton_raphson h _ _ _ _ _ _ _ _ _ _ _) as [ms1 [[Jac1 res1] f_ext1]].
    destruct (_ >? _)%Z.
    + destruct (conv_abort s); intros [= <- <- <- <-] Hne;
        [exact HI1 | contradiction Hne; reflexivity].
    + intros Hl Hne. apply IH in Hl; [exact Hl | exact HI1 | exact Hne].
Qed.

Lemma advance_invariant (st : State) (e : NewtonExit) (st1 : State) (n : Z) (r : R) :
  match predict h (q st) (dq st) (v st) (ddq st) with
  | (q1, dq1, v1, ddq1) => I q1 dq1 v1 ddq1
  end ->
  advance s h st = (e, st1, n, r) ->
  e <> RolledBack ->
  I (q st1) (dq st1) (v st1) (ddq st1).
Proof.
  unfold advance.
  destruct (predict h _ _ _ _) as [[[q1 dq1] v1] ddq1].
  destruct (newton_raphson h _ _ _ _ _ _ _ _ _ _ _) as [ms1 [[Jac res] f_ext1]].
  intros HI Hl Hne.
  apply newton_loop_invariant in Hl; [exact Hl | exact HI | exact Hne].
Qed.

End DynamicsInvariant.

(** ** The update relations of the schemes *)

Section GeneralizedAlphaRelations.

Variable p : GeneralizedAlpha.Params.
Variable dt : R.
Variable k : nat.
Variables q_old dq_old ddq_old : Vec.

Hypothesis Hbeta : GeneralizedAlpha.beta p <> 0.
Hypothesis Hdt : dt <> 0.
Hypothesis Hq_old : List.length q_old = k.
Hypothesis Hdq_old : List.length dq_old = k.
Hypothesis Hddq_old : List.length ddq_old = k.

(** The relations together with the sizes of the arrays. *)
Let kept (v_old : Vec) (q dq v ddq : Vec) : Prop :=
  (List.length q = k /\ List.length dq = k /\ List.length ddq = k) /\
  v = v_old /\
  Schemes.newmark p dt q_old dq_old ddq_old q dq ddq.

Lemma generalized_alpha_predict_kept (v_old : Vec) :
  match GeneralizedAlpha.predict p dt q_old dq_old v_old ddq_old with
  | (q1, dq1, v1, ddq1) => kept v_old q1 dq1 v1 ddq1
  end.
Proof.
  unfold GeneralizedAlpha.predict, kept, Schemes.newmark.
  splits; try reflexivity; vec_length.
  - vec_ext i. replace 0.5 with (1 / 2) by lra. field.
  - vec_ext i. ring.
Qed.

Lemma generalized_alpha_correct_kept (v_old : Vec) (q dq v ddq delta_q : Vec) :
  List.length delta_q = k ->
  kept v_old q dq v ddq ->
  match GeneralizedAlpha.correct p dt q dq v ddq delta_q with
  | (q1, dq1, v1, ddq1) => kept v_old q1 dq1 v1 ddq1
  end.
Proof.
  intros Hdelta ((Hlq & Hldq & Hlddq) & Hv & Hq & Hdq).
  assert (Hqi : forall i, nth i q 0 =
            nth i q_old 0 + (dt * nth i dq_old 0 +
              dt ^ 2 * ((1 / 2 - GeneralizedAlpha.beta p) * nth i ddq_old 0 +
                        GeneralizedAlpha.beta p * nth i ddq 0))).
  { intros i. rewrite Hq at 1. vec_entries. reflexivity. }
  assert (Hdqi : forall i, nth i dq 0 =
            nth i dq_old 0 +
              dt * ((1 - GeneralizedAlpha.gamma p) * nth i ddq_old 0 +
                    GeneralizedAlpha.gamma p * nth i ddq 0)).
  { intros i. rewrite Hdq at 1. vec_entries. reflexivity. }
  unfold GeneralizedAlpha.correct, kept, Schemes.newmark.
  splits; try assumption; vec_length.
  - vec_ext i. rewrite Hqi. field. split; assumption.
  - vec_ext i. rewrite Hdqi. field. split; assumption.
Qed.

End GeneralizedAlphaRelations.

(** X15: a time step of the generalized-alpha solver that is not rolled
    back keeps the Newmark relations: at its end, converged or aborted,
    [q = q_old + dt dq_old + dt^2 ((1/2 - beta) ddq_old + beta ddq)] and
    [dq = dq_old + dt ((1 - gamma) ddq_old + gamma ddq)] hold for the
    variables [q_old], [dq_old], [ddq_old] the step started from; the
    arrays keep their size and [v] is left alone. *)
Theorem generalized_alpha_step_keeps_newmark
    (s : NonlinearDynamicsSolver.solver) (k : nat)
    (st : NonlinearDynamicsSolver.State) (e : NonlinearDynamicsSolver.NewtonExit)
    (st1 : NonlinearDynamicsSolver.State) (n_iter : Z) (res_abs : R) :
  let p := GeneralizedAlpha.set_parameters (NonlinearDynamicsSolver.rho_inf s) in
  let h := NonlinearDynamicsSolver.set_parameters GeneralizedAlphaNonlinearDynamicsSolver
             (NonlinearDynamicsSolver.rho_inf s) (NonlinearDynamicsSolver.dt s) in
  NonlinearDynamicsSolver.rho_inf s <> -1 ->
  NonlinearDynamicsSolver.dt s <> 0 ->
  List.length (NonlinearDynamicsSolver.q st) = k ->
  List.length (NonlinearDynamicsSolver.dq st) = k ->
  List.length (NonlinearDynamicsSolver.ddq st) = k ->
  (forall A b, List.length (NonlinearDynamicsSolver.linsolver s A b) = k) ->
  NonlinearDynamicsSolver.advance s h st = (e, st1, n_iter, res_abs) ->
  e <> NonlinearDynamicsSolver.RolledBack ->
  Schemes.newmark p (NonlinearDynamicsSolver.dt s)
    (NonlinearDynamicsSolver.q st) (NonlinearDynamicsSolver.dq st)
    (NonlinearDynamicsSolver.ddq st)
    (NonlinearDynamicsSolver.q st1) (NonlinearDynamicsSolver.dq st1)
    (NonlinearDynamicsSolver.ddq st1) /\
  NonlinearDynamicsSolver.v st1 = NonlinearDynamicsSolver.v st /\
  List.length (NonlinearDynamicsSolver.q st1) = k /\
  List.length (NonlinearDynamicsSolver.dq st1) = k /\
  List.length (NonlinearDynamicsSolver.ddq st1) = k.
Proof.
  intros p h Hrho Hdt Hq Hdq Hddq Hlin Ha Hne.
  assert (Hbeta : GeneralizedAlpha.beta p <> 0).
  { destruct (generalized_alpha_closed_form _ Hrho) as [Hb _]. fold p in Hb.
    rewrite Hb. intros H0.
    assert (Hpos : 0 < 1 / (1 + NonlinearDynamicsSolver.rho_inf s) ^ 2).
    { apply Rdiv_lt_0_compat; [lra|].
      replace ((1 + NonlinearDynamicsSolver.rho_inf s) ^ 2)
        with (Rsqr (1 + NonlinearDynamicsSolver.rho_inf s)) by (unfold Rsqr; ring).
      apply Rsqr_pos_lt. lra. }
    lra. }
  pose proof (advance_invariant s h
    (fun q dq v ddq =>
       (List.length q = k /\ List.length dq = k /\ List.length ddq = k) /\
       v = NonlinearDynamicsSolver.v st /\
       Schemes.newmark p (NonlinearDynamicsSolver.dt s)
         (NonlinearDynamicsSolver.q st) (NonlinearDynamicsSolver.dq st)
         (NonlinearDynamicsSolver.ddq st) q dq ddq)) as Hinv.
  cbv beta in Hinv.
  apply Hinv in Ha; [tauto | | | exact Hne].
  - intros q dq v ddq A b HI.
    apply (generalized_alpha_correct_kept p (NonlinearDynamicsSolver.dt s) k
             (NonlinearDynamicsSolver.q st) (NonlinearDynamicsSolver.dq st)
             (NonlinearDynamicsSolver.ddq st) Hbeta Hdt Hq Hdq Hddq
             (NonlinearDynamicsSolver.v st) q dq v ddq);
      [rewrite vopp_length; apply Hlin | exact HI].
  - apply (generalized_alpha_predict_kept p (NonlinearDynamicsSolver.dt s) k
             (NonlinearDynamicsSolver.q st) (NonlinearDynamicsSolver.dq st)
             (NonlinearDynamicsSolver.ddq st) Hq Hdq Hddq).
Qed.

(** The spring, first time step. *)
Lemma generalized_alpha_step_keeps_newmark_witness :
  let s := MoreDynamicsExamples.solver in
  let st := NonlinearDynamicsSolver.initial_state s in
  match NonlinearDynamicsSolver.advance s (DynamicsExample.hooks s) st with
  | (_, st1, _, _) =>
      Schemes.newmark (GeneralizedAlpha.set_parameters 1) 1 [0] [0] [0]
        (NonlinearDynamicsSolver.q st1) (NonlinearDynamicsSolver.dq st1)
        (NonlinearDynamicsSolver.ddq st1)
  end.
Proof.
  intros s st.
  destruct (NonlinearDynamicsSolver.advance s _ st) as [[[e st1] n] r] eqn:E.
  assert (Hne : e <> NonlinearDynamicsSolver.RolledBack).
  { intros ->.
    pose proof (advance_spec s _ _ _ _ _ _ E) as (_ & _ & _ & _ & _ & _ & Hr & _).
    destruct (Hr eq_refl) as (_ & _ & _ & _ & _ & Hca & _). discriminate Hca. }
  apply (generalized_alpha_step_keeps_newmark s 1 st e st1 n r).
  - simpl. lra.
  - simpl. lra.
  - reflexivity.
  - reflexivity.
  - reflexivity.
  - intros A b. reflexivity.
  - exact E.
  - exact Hne.
Defined.

Section JWHAlphaRelations.

Variable p : JWHAlpha.Params.
Variable dt : R.
Variable k : nat.
Variables q_old dq_old v_old ddq_old : Vec.

Hypothesis Halpha_m : JWHAlpha.alpha_m p <> 0.
Hypothesis Halpha_f : JWHAlpha.alpha_f p <> 0.
Hypothesis Hgamma : JWHAlpha.gamma p <> 0.
Hypothesis Hdt : dt <> 0.
Hypothesis Hq_old : List.length q_old = k.
Hypothesis Hdq_old : List.length dq_old = k.
Hypothesis Hv_old : List.length v_old = k.
Hypothesis Hddq_old : List.length ddq_old = k.

(** The relations together with the sizes of the arrays. *)
Let kept (q dq v ddq : Vec) : Prop :=
  (List.length q = k /\ List.length dq = k /\ List.length v = k /\
   List.length ddq = k) /\
  Schemes.jwh_relations p dt q_old dq_old v_old ddq_old q dq v ddq.

Lemma jwh_alpha_predict_kept :
  match JWHAlpha.predict p dt q_old dq_old v_old ddq_old with
  | (q1, dq1, v1, ddq1) => kept q1 dq1 v1 ddq1
  end.
Proof.
  unfold JWHAlpha.predict, kept, Schemes.jwh_relations.
  splits; vec_length.
  - vec_ext i. field. exact Halpha_m.
  - vec_ext i. ring.
  - vec_ext i. field. exact Halpha_m.
Qed.

Lemma jwh_alpha_correct_kept (q dq v ddq delta_q : Vec) :
  List.length delta_q = k ->
  kept q dq v ddq ->
  match JWHAlpha.correct p dt q dq v ddq delta_q with
  | (q1, dq1, v1, ddq1) => kept q1 dq1 v1 ddq1
  end.
Proof.
  intros Hdelta ((Hlq & Hldq & Hlv & Hlddq) & Hq & Hv & Hb).
  assert (Hqi : forall i, nth i q 0 =
            nth i q_old 0 +
              dt * ((1 - JWHAlpha.gamma p) * nth i dq_old 0 +
                    JWHAlpha.gamma p * nth i dq 0)).
  { intros i. rewrite Hq at 1. vec_entries. reflexivity. }
  assert (Hvi : forall i, nth i v 0 =
            nth i v_old 0 +
              dt * ((1 - JWHAlpha.gamma p) * nth i ddq_old 0 +
                    JWHAlpha.gamma p * nth i ddq 0)).
  { intros i. rewrite Hv at 1. vec_entries. reflexivity. }
  assert (Hbi : forall i,
            JWHAlpha.alpha_m p * nth i dq 0 + (1 - JWHAlpha.alpha_m p) * nth i dq_old 0 =
            JWHAlpha.alpha_f p * nth i v 0 + (1 - JWHAlpha.alpha_f p) * nth i v_old 0).
  { intros i. pose proof (f_equal (fun x => nth i x 0) Hb) as E. cbv beta in E.
    revert E. vec_entries. intros E; exact E. }
  unfold JWHAlpha.correct, kept, Schemes.jwh_relations.
  splits; try assumption; vec_length.
  - vec_ext i. rewrite Hqi. field. split; assumption.
  - vec_ext i. rewrite Hvi. field. splits; assumption.
  - vec_ext i. apply Rminus_diag_uniq.
    transitivity
      ((JWHAlpha.alpha_m p * nth i dq 0 + (1 - JWHAlpha.alpha_m p) * nth i dq_old 0) -
       (JWHAlpha.alpha_f p * nth i v 0 + (1 - JWHAlpha.alpha_f p) * nth i v_old 0)).
    + field. splits; assumption.
    + rewrite Hbi. ring.
Qed.

End JWHAlphaRelations.

(** X16: a time step of the JWH-alpha solver that is not rolled back
    keeps the relations of the scheme: at its end, converged or aborted,
    [q = q_old + dt ((1 - gamma) dq_old + gamma dq)],
    [v = v_old + dt ((1 - gamma) ddq_old + gamma ddq)] and
    [alpha_m dq + (1 - alpha_m) dq_old = alpha_f v + (1 - alpha_f) v_old]
    hold for the variables the step started from, and the arrays keep
    their size. *)
Theorem jwh_alpha_step_keeps_relations
    (s : NonlinearDynamicsSolver.solver) (k : nat)
    (st : NonlinearDynamicsSolver.State) (e : NonlinearDynamicsSolver.NewtonExit)
    (st1 : NonlinearDynamicsSolver.State) (n_iter : Z) (res_abs : R) :
  let p := JWHAlpha.set_parameters (NonlinearDynamicsSolver.rho_inf s) in
  let h := NonlinearDynamicsSolver.set_parameters JWHAlphaNonlinearDynamicsSolver
             (NonlinearDynamicsSolver.rho_inf s) (NonlinearDynamicsSolver.dt s) in
  NonlinearDynamicsSolver.rho_inf s <> -1 ->
  NonlinearDynamicsSolver.rho_inf s <> 3 ->
  NonlinearDynamicsSolver.dt s <> 0 ->
  List.length (NonlinearDynamicsSolver.q st) = k ->
  List.length (NonlinearDynamicsSolver.dq st) = k ->
  List.length (NonlinearDynamicsSolver.v st) = k ->
  List.length (NonlinearDynamicsSolver.ddq st) = k ->
  (forall A b, List.length (NonlinearDynamicsSolver.linsolver s A b) = k) ->
  NonlinearDynamicsSolver.advance s h st = (e, st1, n_iter, res_abs) ->
  e <> NonlinearDynamicsSolver.RolledBack ->
  Schemes.jwh_relations p (NonlinearDynamicsSolver.dt s)
    (NonlinearDynamicsSolver.q st) (NonlinearDynamicsSolver.dq st)
    (NonlinearDynamicsSolver.v st) (NonlinearDynamicsSolver.ddq st)
    (NonlinearDynamicsSolver.q st1) (NonlinearDynamicsSolver.dq st1)
    (NonlinearDynamicsSolver.v st1) (NonlinearDynamicsSolver.ddq st1) /\
  List.length (NonlinearDynamicsSolver.q st1) = k /\
  List.length (NonlinearDynamicsSolver.dq st1) = k /\
  List.length (NonlinearDynamicsSolver.v st1) = k /\
  List.length (NonlinearDynamicsSolver.ddq st1) = k.
Proof.
  intros p h Hrho Hrho3 Hdt Hq Hdq Hv Hddq Hlin Ha Hne.
  set (rho := NonlinearDynamicsSolver.rho_inf s) in *.
  assert (Hd : / (1 + rho) <> 0) by (apply Rinv_neq_0_compat; lra).
  assert (Hf : JWHAlpha.alpha_f p <> 0).
  { unfold p, JWHAlpha.set_parameters. cbn [JWHAlpha.alpha_f].
    unfold Rdiv. rewrite Rmult_1_l. exact Hd. }
  assert (Hg : JWHAlpha.gamma p <> 0).
  { pose proof (jwh_alpha_closed_form rho Hrho) as Hg. fold p in Hg. rewrite Hg.
    unfold Rdiv. rewrite Rmult_1_l. exact Hd. }
  assert (Hm : JWHAlpha.alpha_m p <> 0).
  { unfold p, JWHAlpha.set_parameters. cbn [JWHAlpha.alpha_m].
    unfold Rdiv. apply Rmult_integral_contrapositive_currified; [lra|].
    apply Rinv_neq_0_compat. lra. }
  pose proof (advance_invariant s h
    (fun q dq v ddq =>
       (List.length q = k /\ List.length dq = k /\ List.length v = k /\
        List.length ddq = k) /\
       Schemes.jwh_relations p (NonlinearDynamicsSolver.dt s)
         (NonlinearDynamicsSolver.q st) (NonlinearDynamicsSolver.dq st)
         (NonlinearDynamicsSolver.v st) (NonlinearDynamicsSolver.ddq st)
         q dq v ddq)) as Hinv.
  cbv beta in Hinv.
  apply Hinv in Ha; [tauto | | | exact Hne].
  - intros q dq v ddq A b HI.
    apply (jwh_alpha_correct_kept p (NonlinearDynamicsSolver.dt s) k
             (NonlinearDynamicsSolver.q st) (NonlinearDynamicsSolver.dq st)
             (NonlinearDynamicsSolver.v st) (NonlinearDynamicsSolver.ddq st)
             Hf Hg Hdt Hq Hdq Hv Hddq q dq v ddq);
      [rewrite vopp_length; apply Hlin | exact HI].
  - apply (jwh_alpha_predict_kept p (NonlinearDynamicsSolver.dt s) k
             (NonlinearDynamicsSolver.q st) (NonlinearDynamicsSolver.dq st)
             (NonlinearDynamicsSolver.v st) (NonlinearDynamicsSolver.ddq st)
             Hm Hq Hdq Hv Hddq).
Qed.

(** The spring with a velocity array, first time step. *)
Lemma jwh_alpha_step_keeps_relations_witness :
  let s := MoreDynamicsExamples.solver in
  let st := MoreDynamicsExamples.at_rest_with_v in
  let h := NonlinearDynamicsSolver.set_parameters JWHAlphaNonlinearDynamicsSolver 1 1 in
  match NonlinearDynamicsSolver.advance s h st with
  | (_, st1, _, _) =>
      Schemes.jwh_relations (JWHAlpha.set_parameters 1) 1 [0] [0] [0] [0]
        (NonlinearDynamicsSolver.q st1) (NonlinearDynamicsSolver.dq st1)
        (NonlinearDynamicsSolver.v st1) (NonlinearDynamicsSolver.ddq st1)
  end.
Proof.
  intros s st h.
  destruct (NonlinearDynamicsSolver.advance s h st) as [[[e st1] n] r] eqn:E.
  assert (Hne : e <> NonlinearDynamicsSolver.RolledBack).
  { intros ->.
    pose proof (advance_spec s _ _ _ _ _ _ E) as (_ & _ & _ & _ & _ & _ & Hr & _).
    destruct (Hr eq_refl) as (_ & _ & _ & _ & _ & Hca & _). discriminate Hca. }
  apply (jwh_alpha_step_keeps_relations s 1 st e st1 n r).
  - simpl. lra.
  - simpl. lra.
  - simpl. lra.
  - reflexivity.
  - reflexivity.
  - reflexivity.
  - reflexivity.
  - intros A b. reflexivity.
  - exact E.
  - exact Hne.
Defined.

(** ** Matrices, entry by entry *)

Section MatrixEntries.

Lemma nth_matvec (A : Mat) (x : Vec) (i : nat) :
  nth i (matvec A x) 0 = dot (nth i A []) x.
Proof.
  revert i. induction A as [|r A IH]; intros [|i]; simpl; auto.
Qed.

Lemma mzip_with_length (f : R -> R -> R) (A B : Mat) :
  List.length (mzip_with f A B) = Nat.min (List.length A) (List.length B).
Proof.
  revert B. induction A as [|r A IH]; intros [|r' B]; simpl; auto.
Qed.

Lemma nth_msub (A B : Mat) (i : nat) :
  List.length A = List.length B ->
  nth i (msub A B) [] = vsub (nth i A []) (nth i B []).
Proof.
  revert B i. induction A as [|r A IH]; intros [|r' B] [|i]; simpl; intros Hl;
    try discriminate; auto.
Qed.

Lemma nth_mscale (c : R) (A : Mat) (i : nat) :
  nth i (mscale c A) [] = vscale c (nth i A []).
Proof.
  revert i. induction A as [|r A IH]; intros [|i]; simpl; auto.
Qed.

Lemma mscale_length (c : R) (A : Mat) : List.length (mscale c A) = List.length A.
Proof. apply length_map. Qed.

Lemma msub_length (A B : Mat) :
  List.length (msub A B) = Nat.min (List.length A) (List.length B).
Proof. apply mzip_with_length. Qed.

Lemma square_row (n : nat) (A : Mat) (i : nat) :
  LinearSystems.square n A -> (i < n)%nat -> List.length (nth i A []) = n.
Proof.
  intros [Hl Hr] Hi. rewrite Forall_forall in Hr. apply Hr, nth_In. lia.
Qed.

Lemma dot_vadd_r (r x y : Vec) :
  List.length x = List.length y ->
  dot r (vadd x y) = dot r x + dot r y.
Proof.
  revert x y. induction r as [|a r IH]; intros [|b x] [|c y]; cbn [dot vadd zip_with List.length];
    intros Hl; try discriminate; try ring.
  fold (vadd x y). rewrite IH by lia. ring.
Qed.

Lemma dot_vscale_r (r : Vec) (c : R) (x : Vec) :
  dot r (vscale c x) = c * dot r x.
Proof.
  revert x. induction r as [|a r IH]; intros [|b x]; cbn [dot vscale map]; try ring.
  fold (vscale c x). rewrite IH. ring.
Qed.

Lemma dot_vscale_l (c : R) (r x : Vec) :
  dot (vscale c r) x = c * dot r x.
Proof.
  revert x. induction r as [|a r IH]; intros [|b x]; cbn [dot vscale map]; try ring.
  fold (vscale c r). rewrite IH. ring.
Qed.

Lemma dot_vsub_l (r r' x : Vec) :
  List.length r = List.length r' ->
  dot (vsub r r') x = dot r x - dot r' x.
Proof.
  revert r' x. induction r as [|a r IH]; intros [|a' r'] [|b x];
    cbn [dot vsub zip_with List.length]; intros Hl; try discriminate; try ring.
  fold (vsub r r'). rewrite IH by lia. ring.
Qed.

Lemma vadd_vopp_self (x : Vec) : vadd x (vopp x) = zeros (List.length x).
Proof.
  induction x as [|a x IH]; [reflexivity|].
  cbn [vadd vopp map zip_with List.length zeros repeat].
  fold (vopp x). fold (vadd x (vopp x)). fold (zeros (List.length x)).
  rewrite IH. f_equal. ring.
Qed.

Lemma K_and_f_ensure_M (ms : MechanicalSystem.system) :
  MechanicalSystem.K_and_f (MechanicalSystem.ensure_M ms) = MechanicalSystem.K_and_f ms.
Proof. unfold MechanicalSystem.ensure_M; destruct (MechanicalSystem.M_constr ms); reflexivity. Qed.

Lemma f_ext_ensure_M (ms : MechanicalSystem.system) :
  MechanicalSystem.f_ext (MechanicalSystem.ensure_M ms) = MechanicalSystem.f_ext ms.
Proof. unfold MechanicalSystem.ensure_M; destruct (MechanicalSystem.M_constr ms); reflexivity. Qed.

End MatrixEntries.

Ltac mat_length :=
  repeat (rewrite ?vadd_length, ?vsub_length, ?vscale_length, ?vopp_length,
            ?matvec_length, ?msub_length, ?mscale_length in *);
  try lia.

Ltac dot_entries :=
  repeat first
    [ rewrite dot_vscale_r
    | rewrite dot_vscale_l
    | rewrite dot_vadd_r by mat_length
    | rewrite dot_vsub_l by mat_length ].

Ltac mat_entries :=
  repeat first
    [ rewrite nth_vscale
    | rewrite nth_vopp
    | rewrite nth_matvec
    | rewrite nth_mscale
    | rewrite nth_vadd by mat_length
    | rewrite nth_vsub by mat_length
    | rewrite nth_msub by mat_length ].

(** ** The Jacobian is the derivative of the residual *)

Section JacobianConsistency.

Import LinearSystems.

Variable n : nat.
Variable ms : MechanicalSystem.system.
Variable K : Mat.
Variable fe : R -> Vec.

Hypothesis Hlinear : linear_system n ms K fe.

Variable dt : R.
Variables q dq v ddq q_old dq_old v_old ddq_old delta_q : Vec.
Variables t t_old : R.

Hypothesis Hdt : dt <> 0.
Hypothesis Hq : List.length q = n.
Hypothesis Hdq : List.length dq = n.
Hypothesis Hddq : List.length ddq = n.
Hypothesis Hq_old : List.length q_old = n.
Hypothesis Hdq_old : List.length dq_old = n.
Hypothesis Hddq_old : List.length ddq_old = n.
Hypothesis Hdelta : List.length delta_q = n.

Lemma generalized_alpha_residual_after_correct (p : GeneralizedAlpha.Params) :
  GeneralizedAlpha.beta p <> 0 ->
  match GeneralizedAlpha.newton_raphson p dt ms q dq v ddq t
          q_old dq_old v_old ddq_old t_old,
        GeneralizedAlpha.correct p dt q dq v ddq delta_q with
  | (_, (Jac, res, _)), (q1, dq1, v1, ddq1) =>
      match GeneralizedAlpha.newton_raphson p dt ms q1 dq1 v1 ddq1 t
              q_old dq_old v_old ddq_old t_old with
      | (_, (Jac1, res1, _)) =>
          Jac1 = Jac /\ List.length res = n /\ res1 = vadd res (matvec Jac delta_q)
      end
  end.
Proof.
  intros Hbeta.
  destruct Hlinear as (HM & HK & HD & HKf & Hfe & Hfel).
  unfold GeneralizedAlpha.correct, GeneralizedAlpha.newton_raphson.
  rewrite K_and_f_ensure_M, f_ext_ensure_M, D_constr_ensure_M.
  set (M := MechanicalSystem.the_M (MechanicalSystem.ensure_M ms)) in *.
  rewrite !HKf by vec_length. rewrite !Hfe. cbv beta iota zeta.
  set (t_f := (1 - GeneralizedAlpha.alpha_f p) * t + GeneralizedAlpha.alpha_f p * t_old).
  pose proof (Hfel t_f) as Hl.
  pose proof (proj1 HM) as HlM. pose proof (proj1 HK) as HlK.
  destruct (MechanicalSystem.D_constr ms) as [D|] eqn:ED.
  - pose proof (HD D eq_refl) as HDs. pose proof (proj1 HDs) as HlD.
    splits; [reflexivity | mat_length |].
    apply nth_ext with (d := 0) (d' := 0); [mat_length|].
    intros i Hi.
    assert (Hin : (i < n)%nat) by (revert Hi; mat_length).
    pose proof (square_row n M i HM Hin) as HrM.
    pose proof (square_row n K i HK Hin) as HrK.
    pose proof (square_row n D i HDs Hin) as HrD.
    mat_entries. dot_entries. field. split; assumption.
  - splits; [reflexivity | mat_length |].
    apply nth_ext with (d := 0) (d' := 0); [mat_length|].
    intros i Hi.
    assert (Hin : (i < n)%nat) by (revert Hi; mat_length).
    pose proof (square_row n M i HM Hin) as HrM.
    pose proof (square_row n K i HK Hin) as HrK.
    mat_entries. dot_entries. field. split; assumption.
Qed.

Hypothesis Hv : List.length v = n.
Hypothesis Hv_old : List.length v_old = n.

Lemma jwh_alpha_residual_after_correct (p : JWHAlpha.Params) :
  JWHAlpha.alpha_f p <> 0 ->
  JWHAlpha.gamma p <> 0 ->
  match JWHAlpha.newton_raphson p dt ms q dq v ddq t
          q_old dq_old v_old ddq_old t_old,
        JWHAlpha.correct p dt q dq v ddq delta_q with
  | (_, (Jac, res, _)), (q1, dq1, v1, ddq1) =>
      match JWHAlpha.newton_raphson p dt ms q1 dq1 v1 ddq1 t
              q_old dq_old v_old ddq_old t_old with
      | (_, (Jac1, res1, _)) =>
          Jac1 = Jac /\ List.length res = n /\ res1 = vadd res (matvec Jac delta_q)
      end
  end.
Proof.
  intros Halpha_f Hgamma.
  destruct Hlinear as (HM & HK & HD & HKf & Hfe & Hfel).
  unfold JWHAlpha.correct, JWHAlpha.newton_raphson.
  rewrite K_and_f_ensure_M, f_ext_ensure_M, D_constr_ensure_M.
  set (M := MechanicalSystem.the_M (MechanicalSystem.ensure_M ms)) in *.
  rewrite !HKf by vec_length. rewrite !Hfe. cbv beta iota zeta.
  set (t_f := JWHAlpha.alpha_f p * t + (1 - JWHAlpha.alpha_f p) * t_old).
  pose proof (Hfel t_f) as Hl.
  pose proof (proj1 HM) as HlM. pose proof (proj1 HK) as HlK.
  destruct (MechanicalSystem.D_constr ms) as [D|] eqn:ED.
  - pose proof (HD D eq_refl) as HDs. pose proof (proj1 HDs) as HlD.
    splits; [reflexivity | mat_length |].
    apply nth_ext with (d := 0) (d' := 0); [mat_length|].
    intros i Hi.
    assert (Hin : (i < n)%nat) by (revert Hi; mat_length).
    pose proof (square_row n M i HM Hin) as HrM.
    pose proof (square_row n K i HK Hin) as HrK.
    pose proof (square_row n D i HDs Hin) as HrD.
    mat_entries. dot_entries. field. splits; assumption.
  - splits; [reflexivity | mat_length |].
    apply nth_ext with (d := 0) (d' := 0); [mat_length|].
    intros i Hi.
    assert (Hin : (i < n)%nat) by (revert Hi; mat_length).
    pose proof (square_row n M i HM Hin) as HrM.
    pose proof (square_row n K i HK Hin) as HrK.
    mat_entries. dot_entries. field. splits; assumption.
Qed.

End JacobianConsistency.

Lemma spring_linear_system (force : R) :
  LinearSystems.linear_system 1 (Example.spring force) [[1]] (fun _ => [force]).
Proof.
  unfold LinearSystems.linear_system, LinearSystems.square. simpl.
  splits; try reflexivity.
  - repeat constructor.
  - repeat constructor.
  - intros D HD. discriminate HD.
  - intros [|a [|b u]] _ Hu; try discriminate Hu.
    simpl. replace (1 * a + 0) with a by ring. reflexivity.
Qed.

(** X17: for a linear mechanical system the Jacobian that
    [newton_raphson] of the generalized-alpha solver returns is the exact
    derivative of its residual along [correct]: after
    [correct(q, dq, v, ddq, delta_q)] the Jacobian is unchanged and the
    residual is [res + Jac delta_q].  Hence a correction that solves
    [Jac delta_q = -res] leaves a zero residual. *)
Theorem generalized_alpha_jacobian_consistent
    (n : nat) (ms : MechanicalSystem.system) (K : Mat) (fe : R -> Vec)
    (p : GeneralizedAlpha.Params) (dt : R)
    (q dq v ddq q_old dq_old v_old ddq_old delta_q : Vec) (t t_old : R) :
  LinearSystems.linear_system n ms K fe ->
  GeneralizedAlpha.beta p <> 0 ->
  dt <> 0 ->
  List.length q = n -> List.length dq = n -> List.length ddq = n ->
  List.length q_old = n -> List.length dq_old = n -> List.length ddq_old = n ->
  List.length delta_q = n ->
  match GeneralizedAlpha.newton_raphson p dt ms q dq v ddq t
          q_old dq_old v_old ddq_old t_old,
        GeneralizedAlpha.correct p dt q dq v ddq delta_q with
  | (_, (Jac, res, _)), (q1, dq1, v1, ddq1) =>
      match GeneralizedAlpha.newton_raphson p dt ms q1 dq1 v1 ddq1 t
              q_old dq_old v_old ddq_old t_old with
      | (_, (Jac1, res1, _)) =>
          Jac1 = Jac /\
          res1 = vadd res (matvec Jac delta_q) /\
          (matvec Jac delta_q = vopp res -> res1 = zeros n)
      end
  end.
Proof.
  intros Hlin Hbeta Hdt Hq Hdq Hddq Hq_old Hdq_old Hddq_old Hdelta.
  pose proof (generalized_alpha_residual_after_correct n ms K fe Hlin dt
                q dq v ddq q_old dq_old v_old ddq_old delta_q t t_old
                Hdt Hq Hdq Hddq Hq_old Hdq_old Hddq_old Hdelta p Hbeta) as H.
  destruct (GeneralizedAlpha.newton_raphson p dt ms q dq v ddq t _ _ _ _ _)
    as [ms1 [[Jac res] f_ext1]].
  destruct (GeneralizedAlpha.correct p dt q dq v ddq delta_q) as [[[q1 dq1] v1] ddq1].
  destruct (GeneralizedAlpha.newton_raphson p dt ms q1 dq1 v1 ddq1 t _ _ _ _ _)
    as [ms2 [[Jac1 res1] f_ext2]].
  destruct H as (HJ & Hl & Hres). splits; try assumption.
  intros Hsolve. rewrite Hres, Hsolve, vadd_vopp_self, Hl. reflexivity.
Qed.

(** The spring at rest, corrected by [[1]]. *)
Lemma generalized_alpha_jacobian_consistent_witness :
  let p := GeneralizedAlpha.set_parameters 1 in
  match GeneralizedAlpha.newton_raphson p 1 (Example.spring 1) [0] [0] [] [0] 1
          [0] [0] [] [0] 0,
        GeneralizedAlpha.correct p 1 [0] [0] [] [0] [1] with
  | (_, (Jac, res, _)), (q1, dq1, v1, ddq1) =>
      match GeneralizedAlpha.newton_raphson p 1 (Example.spring 1) q1 dq1 v1 ddq1 1
              [0] [0] [] [0] 0 with
      | (_, (Jac1, res1, _)) => res1 = vadd res (matvec Jac [1])
      end
  end.
Proof.
  intros p.
  assert (Hbeta : GeneralizedAlpha.beta p <> 0).
  { destruct (generalized_alpha_closed_form 1) as [Hb _]; [lra|].
    unfold p. rewrite Hb. lra. }
  pose proof (generalized_alpha_jacobian_consistent 1 (Example.spring 1) [[1]]
                (fun _ => [1]) p 1 [0] [0] [] [0] [0] [0] [] [0] [1] 1 0
                (spring_linear_system 1) Hbeta ltac:(lra)
                eq_refl eq_refl eq_refl eq_refl eq_refl eq_refl eq_refl) as H.
  destruct (GeneralizedAlpha.newton_raphson p 1 (Example.spring 1) [0] [0] [] [0] 1 _ _ _ _ _)
    as [ms1 [[Jac res] f_ext1]].
  destruct (GeneralizedAlpha.correct p 1 [0] [0] [] [0] [1]) as [[[q1 dq1] v1] ddq1].
  destruct (GeneralizedAlpha.newton_raphson p 1 (Example.spring 1) q1 dq1 v1 ddq1 1 _ _ _ _ _)
    as [ms2 [[Jac1 res1] f_ext2]].
  exact (proj1 (proj2 H)).
Defined.

(** X18: the same for the JWH-alpha solver: for a linear mechanical
    system, after [correct(q, dq, v, ddq, delta_q)] the Jacobian of
    [newton_raphson] is unchanged and its residual is [res + Jac delta_q],
    so that a correction solving [Jac delta_q = -res] leaves a zero
    residual. *)
Theorem jwh_alpha_jacobian_consistent
    (n : nat) (ms : MechanicalSystem.system) (K : Mat) (fe : R -> Vec)
    (p : JWHAlpha.Params) (dt : R)
    (q dq v ddq q_old dq_old v_old ddq_old delta_q : Vec) (t t_old : R) :
  LinearSystems.linear_system n ms K fe ->
  JWHAlpha.alpha_f p <> 0 ->
  JWHAlpha.gamma p <> 0 ->
  dt <> 0 ->
  List.length q = n -> List.length dq = n -> List.length v = n ->
  List.length ddq = n ->
  List.length q_old = n -> List.length dq_old = n -> List.length v_old = n ->
  List.length ddq_old = n ->
  List.length delta_q = n ->
  match JWHAlpha.newton_raphson p dt ms q dq v ddq t
          q_old dq_old v_old ddq_old t_old,
        JWHAlpha.correct p dt q dq v ddq delta_q with
  | (_, (Jac, res, _)), (q1, dq1, v1, ddq1) =>
      match JWHAlpha.newton_raphson p dt ms q1 dq1 v1 ddq1 t
              q_old dq_old v_old ddq_old t_old with
      | (_, (Jac1, res1, _)) =>
          Jac1 = Jac /\
          res1 = vadd res (matvec Jac delta_q) /\
          (matvec Jac delta_q = vopp res -> res1 = zeros n)
      end
  end.
Proof.
  intros Hlin Hf Hg Hdt Hq Hdq Hv Hddq Hq_old Hdq_old Hv_old Hddq_old Hdelta.
  pose proof (jwh_alpha_residual_after_correct n ms K fe Hlin dt
                q dq v ddq q_old dq_old v_old ddq_old delta_q t t_old
                Hdt Hq Hdq Hddq Hq_old Hdq_old Hddq_old Hdelta Hv Hv_old p Hf Hg) as H.
  destruct (JWHAlpha.newton_raphson p dt ms q dq v ddq t _ _ _ _ _)
    as [ms1 [[Jac res] f_ext1]].
  destruct (JWHAlpha.correct p dt q dq v ddq delta_q) as [[[q1 dq1] v1] ddq1].
  destruct (JWHAlpha.newton_raphson p dt ms q1 dq1 v1 ddq1 t _ _ _ _ _)
    as [ms2 [[Jac1 res1] f_ext2]].
  destruct H as (HJ & Hl & Hres). splits; try assumption.
  intros Hsolve. rewrite Hres, Hsolve, vadd_vopp_self, Hl. reflexivity.
Qed.

(** The spring at rest, corrected by [[1]]. *)
Lemma jwh_alpha_jacobian_consistent_witness :
  let p := JWHAlpha.set_parameters 1 in
  match JWHAlpha.newton_raphson p 1 (Example.spring 1) [0] [0] [0] [0] 1
          [0] [0] [0] [0] 0,
        JWHAlpha.correct p 1 [0] [0] [0] [0] [1] with
  | (_, (Jac, res, _)), (q1, dq1, v1, ddq1) =>
      match JWHAlpha.newton_raphson p 1 (Example.spring 1) q1 dq1 v1 ddq1 1
              [0] [0] [0] [0] 0 with
      | (_, (Jac1, res1, _)) => res1 = vadd res (matvec Jac [1])
      end
  end.
Proof.
  intros p.
  assert (Hg : JWHAlpha.gamma p <> 0).
  { unfold p. rewrite (jwh_alpha_closed_form 1) by lra. lra. }
  assert (Hf : JWHAlpha.alpha_f p <> 0).
  { unfold p, JWHAlpha.set_parameters. cbn [JWHAlpha.alpha_f]. lra. }
  pose proof (jwh_alpha_jacobian_consistent 1 (Example.spring 1) [[1]]
                (fun _ => [1]) p 1 [0] [0] [0] [0] [0] [0] [0] [0] [1] 1 0
                (spring_linear_system 1) Hf Hg ltac:(lra)
                eq_refl eq_refl eq_refl eq_refl eq_refl eq_refl eq_refl eq_refl eq_refl) as H.
  destruct (JWHAlpha.newton_raphson p 1 (Example.spring 1) [0] [0] [0] [0] 1 _ _ _ _ _)
    as [ms1 [[Jac res] f_ext1]].
  destruct (JWHAlpha.correct p 1 [0] [0] [0] [0] [1]) as [[[q1 dq1] v1] ddq1].
  destruct (JWHAlpha.newton_raphson p 1 (Example.spring 1) q1 dq1 v1 ddq1 1 _ _ _ _ _)
    as [ms2 [[Jac1 res1] f_ext2]].
  exact (proj1 (proj2 H)).
Defined.

(** [rho_inf = 0.9], the default. *)
Lemma generalized_alpha_parameters_witness :
  let p := GeneralizedAlpha.set_parameters 0.9 in
  GeneralizedAlpha.alpha_m p <= GeneralizedAlpha.alpha_f p <= 1 / 2 /\
  1 / 2 <= GeneralizedAlpha.gamma p /\
  1 / 4 + (GeneralizedAlpha.alpha_f p - GeneralizedAlpha.alpha_m p) / 2
    <= GeneralizedAlpha.beta p.
Proof.
  apply (proj2 (generalized_alpha_parameters 0.9)). lra.
Defined.

(** [rho_inf = 0.9], the default. *)
Lemma jwh_alpha_parameters_witness :
  let p := JWHAlpha.set_parameters 0.9 in
  1 / 2 <= JWHAlpha.alpha_f p <= JWHAlpha.alpha_m p /\
  JWHAlpha.alpha_m p <= 3 / 2 /\ 1 / 2 <= JWHAlpha.gamma p <= 1.
Proof.
  apply (proj2 (jwh_alpha_parameters 0.9)). lra.
Defined.

(** ** The norm *)

Section Norm.

Lemma dot_self_zero (x : Vec) : dot x x = 0 -> x = zeros (List.length x).
Proof.
  induction x as [|a x IH]; simpl; [reflexivity|].
  intros H. pose proof (dot_self_nonneg x) as Hx.
  assert (Ha : a = 0) by nra.
  assert (Hd : dot x x = 0) by nra.
  unfold zeros in *. simpl. rewrite <- (IH Hd), Ha. reflexivity.
Qed.

Lemma dot_self_entry (x : Vec) (a : R) : In a x -> a * a <= dot x x.
Proof.
  induction x as [|b x IH]; simpl; [intros []|].
  pose proof (dot_self_nonneg x) as Hx.
  intros [-> | Hin]; [lra|].
  specialize (IH Hin). nra.
Qed.


End Norm.

(** ** [choose_solver] never returns *)

Section ChooseSolverFacts.

Import PyCall.

Lemma bind_keywords_filled (sig : signature) (p : string) (kws : list string) :
  forall filled f,
    bind_keywords sig filled kws = Ok f ->
    mem p f = true ->
    mem p filled = true \/ In p kws.
Proof.
  induction kws as [|a kws IH]; intros filled f; simpl.
  - intros [= <-] H. left. exact H.
  - destruct (mem a (params sig)).
    + destruct (mem a filled); [discriminate|].
      intros Hb Hp. destruct (IH _ _ Hb Hp) as [H | H]; [|right; right; exact H].
      simpl in H. destruct (String.eqb p a) eqn:E.
      * apply String.eqb_eq in E. right. left. symmetry. exact E.
      * left. exact H.
    + destruct (var_keyword sig); [|discriminate].
      intros Hb Hp. destruct (IH _ _ Hb Hp) as [H | H]; [left | right; right]; exact H.
Qed.

(** A call that passes [self] alone positionally and no keyword
    [mechanical_system] cannot be bound to
    [__init__(self, mechanical_system, **options)]. *)
Lemma call_without_mechanical_system (kws : list string) :
  ~ In "mechanical_system" kws ->
  call Solver_init_sig 1 kws = Raise TypeError.
Proof.
  intros Hnot. unfold call. simpl.
  destruct (bind_keywords Solver_init_sig ["self"] kws) as [f|e] eqn:E; simpl.
  - destruct (mem "mechanical_system" f) eqn:Em.
    + destruct (bind_keywords_filled _ _ _ _ _ E Em) as [H | H];
        [discriminate H | contradiction].
    + rewrite Bool.andb_false_r. destruct (mem "self" f); reflexivity.
  - f_equal. eapply bind_keywords_raise, E.
Qed.

Lemma key_In {A : Type} (k name : string) (o : option A) :
  In k (key name o) -> k = name.
Proof.
  destruct o; simpl; [intros [H | []]; symmetry; exact H | intros []].
Qed.

Lemma keys_without_mechanical_system (o : Options) :
  ~ In "mechanical_system" (opt_other o) ->
  ~ In "mechanical_system" (keys o).
Proof.
  intros Hnot Hin. unfold keys in Hin.
  repeat (apply in_app_or in Hin; destruct Hin as [Hin | Hin];
          [apply key_In in Hin; discriminate Hin|]).
  contradiction.
Qed.

End ChooseSolverFacts.

(** X20: [choose_solver] never returns a solver.  When the mechanical
    system is not of the very type [MechanicalSystem] it raises
    [UnboundLocalError]; otherwise it raises [KeyError] when
    ['solvertype'] is missing or is no key of [solvers_available], and
    [TypeError] for each of the six keys, since the class is then called
    without its [mechanical_system] argument. *)
Theorem choose_solver_never_returns
    (Instance : Type) (construct : string -> Options -> result Instance)
    (type_is_MechanicalSystem : bool) (solvertype : option string) (o : Options) :
  ~ In "mechanical_system" (opt_other o) ->
  ChooseSolver.choose_solver Instance construct type_is_MechanicalSystem solvertype o =
    ChooseSolver.Raised
      (if type_is_MechanicalSystem then
         match solvertype with
         | Some name =>
             if PyCall.mem name ChooseSolver.solvers_available
             then ChooseSolver.Exception TypeError
             else ChooseSolver.Exception KeyError
         | None => ChooseSolver.Exception KeyError
         end
       else ChooseSolver.UnboundLocalError).
Proof.
  intros Hnot. unfold ChooseSolver.choose_solver.
  destruct type_is_MechanicalSystem; [|reflexivity].
  destruct solvertype as [name|]; [|reflexivity].
  destruct (PyCall.mem name ChooseSolver.solvers_available); [|reflexivity].
  rewrite call_without_mechanical_system; [reflexivity|].
  intros Hin. apply in_app_or in Hin. destruct Hin as [Hin | Hin].
  - apply key_In in Hin. discriminate Hin.
  - revert Hin. apply keys_without_mechanical_system, Hnot.
Qed.

(** The call [choose_solver(ms, solvertype='NonlinearStatics', dt=0.01)]. *)
Lemma choose_solver_never_returns_witness :
  ChooseSolver.choose_solver NonlinearStaticsSolver.solver
    (fun _ o => NonlinearStaticsSolver.init (Example.spring 1) Example.scalar_solver o)
    true (Some "NonlinearStatics")
    (Example.some_options (Some 0.01) None None None None None None) =
  ChooseSolver.Raised (ChooseSolver.Exception TypeError).
Proof.
  apply (choose_solver_never_returns NonlinearStaticsSolver.solver _ true
           (Some "NonlinearStatics")
           (Example.some_options (Some 0.01) None None None None None None)).
  simpl. intros [].
Defined.

(** ** The linear schemes and the nonlinear ones *)

Section LinearUpdate.

Variable dt : R.
Variable n : nat.
Variables q q_old dq_old v_old ddq_old : Vec.

Hypothesis Hdt : dt <> 0.
Hypothesis Hq : List.length q = n.
Hypothesis Hq_old : List.length q_old = n.
Hypothesis Hdq_old : List.length dq_old = n.
Hypothesis Hddq_old : List.length ddq_old = n.

(** X21: [update] of the linear generalized-alpha solver returns the
    velocity and acceleration that satisfy the Newmark relations with the
    displacement [q] it is given, the relations a time step of the
    nonlinear solver keeps; [v] is returned empty. *)
Theorem generalized_alpha_update_newmark (p : GeneralizedAlpha.Params) :
  GeneralizedAlpha.beta p <> 0 ->
  match GeneralizedAlphaLinear.update p dt q q_old dq_old v_old ddq_old with
  | (dq, v, ddq) =>
      Schemes.newmark p dt q_old dq_old ddq_old q dq ddq /\
      v = [] /\ List.length dq = n /\ List.length ddq = n
  end.
Proof.
  intros Hbeta.
  unfold GeneralizedAlphaLinear.update, Schemes.newmark.
  splits; try reflexivity; vec_length.
  vec_ext i. replace 0.5 with (1 / 2) by lra. field. split; assumption.
Qed.

Hypothesis Hv_old : List.length v_old = n.

(** X22: [update] of the linear JWH-alpha solver returns [dq], [v] and
    [ddq] that satisfy the three relations of the scheme with the
    displacement [q] it is given, the relations a time step of the
    nonlinear solver keeps. *)
Theorem jwh_alpha_update_relations (p : JWHAlpha.Params) :
  JWHAlpha.alpha_f p <> 0 ->
  JWHAlpha.gamma p <> 0 ->
  match JWHAlphaLinear.update p dt q q_old dq_old v_old ddq_old with
  | (dq, v, ddq) =>
      Schemes.jwh_relations p dt q_old dq_old v_old ddq_old q dq v ddq /\
      List.length dq = n /\ List.length v = n /\ List.length ddq = n
  end.
Proof.
  intros Hf Hg.
  unfold JWHAlphaLinear.update, Schemes.jwh_relations.
  splits; vec_length.
  - vec_ext i. field. splits; assumption.
  - vec_ext i. field. splits; assumption.
  - vec_ext i. field. splits; assumption.
Qed.

End LinearUpdate.

Section MoreMatrixEntries.

Import LinearSchemes.

Lemma madd_length (A B : Mat) :
  List.length (madd A B) = Nat.min (List.length A) (List.length B).
Proof. apply mzip_with_length. Qed.

Lemma mopp_length (A : Mat) : List.length (mopp A) = List.length A.
Proof. apply length_map. Qed.

Lemma nth_madd (A B : Mat) (i : nat) :
  List.length A = List.length B ->
  nth i (madd A B) [] = vadd (nth i A []) (nth i B []).
Proof.
  revert B i. induction A as [|r A IH]; intros [|r' B] [|i]; simpl; intros Hl;
    try discriminate; auto.
Qed.

Lemma nth_mopp (A : Mat) (i : nat) : nth i (mopp A) [] = vopp (nth i A []).
Proof.
  revert i. induction A as [|r A IH]; intros [|i]; simpl; auto.
Qed.

Lemma dot_vadd_l (r r' x : Vec) :
  List.length r = List.length r' ->
  dot (vadd r r') x = dot r x + dot r' x.
Proof.
  revert r' x. induction r as [|a r IH]; intros [|a' r'] [|b x];
    cbn [dot vadd zip_with List.length]; intros Hl; try discriminate; try ring.
  fold (vadd r r'). rewrite IH by lia. ring.
Qed.

Lemma dot_vsub_r (r x y : Vec) :
  List.length x = List.length y ->
  dot r (vsub x y) = dot r x - dot r y.
Proof.
  revert x y. induction r as [|a r IH]; intros [|b x] [|c y];
    cbn [dot vsub zip_with List.length]; intros Hl; try discriminate; try ring.
  fold (vsub x y). rewrite IH by lia. ring.
Qed.

Lemma vsub_self (x : Vec) : vsub x x = zeros (List.length x).
Proof.
  induction x as [|a x IH]; [reflexivity|].
  cbn [vsub zip_with List.length zeros repeat].
  fold (vsub x x). fold (zeros (List.length x)).
  rewrite IH. f_equal. ring.
Qed.

End MoreMatrixEntries.

Ltac lin_length :=
  repeat (rewrite ?vadd_length, ?vsub_length, ?vscale_length, ?vopp_length,
            ?matvec_length, ?msub_length, ?mscale_length, ?madd_length,
            ?mopp_length in *);
  try lia.

Ltac lin_entries :=
  repeat first
    [ rewrite nth_vscale
    | rewrite nth_vopp
    | rewrite nth_matvec
    | rewrite nth_mscale
    | rewrite nth_mopp
    | rewrite nth_vadd by lin_length
    | rewrite nth_vsub by lin_length
    | rewrite nth_msub by lin_length
    | rewrite nth_madd by lin_length ].

Ltac lin_dot :=
  repeat first
    [ rewrite dot_vscale_r
    | rewrite dot_vscale_l
    | rewrite dot_vadd_r by lin_length
    | rewrite dot_vadd_l by lin_length
    | rewrite dot_vsub_l by lin_length
    | rewrite dot_vsub_r by lin_length ].

Section LinearStep.

Import LinearSystems.

Variable n : nat.
Variable ms : MechanicalSystem.system.
Variables M D K : Mat.
Variable fe : R -> Vec.

Hypothesis Hlinear : linear_system n ms K fe.
Hypothesis HM : MechanicalSystem.the_M (MechanicalSystem.ensure_M ms) = M.
Hypothesis HD : MechanicalSystem.D_constr ms = Some D.

Variable p : JWHAlpha.Params.
Variable dt : R.
Variables q q_old dq_old v_old ddq_old : Vec.
Variables t t_old : R.

Hypothesis Halpha_f : JWHAlpha.alpha_f p <> 0.
Hypothesis Hgamma : JWHAlpha.gamma p <> 0.
Hypothesis Hdt : dt <> 0.
Hypothesis Hq : List.length q = n.
Hypothesis Hq_old : List.length q_old = n.
Hypothesis Hdq_old : List.length dq_old = n.
Hypothesis Hv_old : List.length v_old = n.
Hypothesis Hddq_old : List.length ddq_old = n.

Lemma jwh_alpha_effective_stiffness_Jacobian :
  match JWHAlphaLinear.update p dt q q_old dq_old v_old ddq_old with
  | (dq, v, ddq) =>
      match JWHAlpha.newton_raphson p dt ms q dq v ddq t
              q_old dq_old v_old ddq_old t_old with
      | (_, (Jac, _, _)) => JWHAlphaLinear.effective_stiffness p dt M D K = mopp Jac
      end
  end.
Proof.
  destruct Hlinear as (HMs & HK & HDs & HKf & Hfe & Hfel).
  specialize (HDs D HD). rewrite HM in HMs.
  unfold JWHAlphaLinear.update, JWHAlpha.newton_raphson,
    JWHAlphaLinear.effective_stiffness.
  rewrite K_and_f_ensure_M, f_ext_ensure_M, D_constr_ensure_M, HM, HD.
  rewrite !HKf by vec_length. cbv beta iota zeta.
  pose proof (proj1 HMs) as HlM. pose proof (proj1 HK) as HlK.
  pose proof (proj1 HDs) as HlD.
  apply nth_ext with (d := []) (d' := []); [lin_length|].
  intros i Hi.
  assert (Hin : (i < n)%nat) by (revert Hi; lin_length).
  pose proof (square_row n M i HMs Hin) as HrM.
  pose proof (square_row n K i HK Hin) as HrK.
  pose proof (square_row n D i HDs Hin) as HrD.
  lin_entries.
  apply nth_ext with (d := 0) (d' := 0); [lin_length|].
  intros j _. lin_entries. field. splits; assumption.
Qed.

Lemma jwh_alpha_effective_force_residual :
  match JWHAlphaLinear.update p dt q q_old dq_old v_old ddq_old with
  | (dq, v, ddq) =>
      match JWHAlpha.newton_raphson p dt ms q dq v ddq t
              q_old dq_old v_old ddq_old t_old with
      | (_, (_, res, _)) =>
          List.length res = n /\
          res = vsub (JWHAlphaLinear.effective_force p dt M D K fe
                        q_old dq_old v_old ddq_old t t_old)
                     (matvec (JWHAlphaLinear.effective_stiffness p dt M D K) q)
      end
  end.
Proof.
  destruct Hlinear as (HMs & HK & HDs & HKf & Hfe & Hfel).
  specialize (HDs D HD). rewrite HM in HMs.
  unfold JWHAlphaLinear.update, JWHAlpha.newton_raphson,
    JWHAlphaLinear.effective_stiffness, JWHAlphaLinear.effective_force.
  rewrite K_and_f_ensure_M, f_ext_ensure_M, D_constr_ensure_M, HM, HD.
  rewrite !HKf by vec_length. rewrite !Hfe. cbv beta iota zeta.
  set (t_f := JWHAlpha.alpha_f p * t + (1 - JWHAlpha.alpha_f p) * t_old).
  pose proof (Hfel t_f) as Hl.
  pose proof (proj1 HMs) as HlM. pose proof (proj1 HK) as HlK.
  pose proof (proj1 HDs) as HlD.
  split; [lin_length|].
  apply nth_ext with (d := 0) (d' := 0); [lin_length|].
  intros i Hi.
  assert (Hin : (i < n)%nat) by (revert Hi; lin_length).
  pose proof (square_row n M i HMs Hin) as HrM.
  pose proof (square_row n K i HK Hin) as HrK.
  pose proof (square_row n D i HDs Hin) as HrD.
  lin_entries. lin_dot. field. splits; assumption.
Qed.

End LinearStep.

Lemma damped_spring_linear_system (force : R) :
  LinearSystems.linear_system 1 (DampedExample.damped_spring force) [[1]]
    (fun _ => [force]).
Proof.
  unfold LinearSystems.linear_system, LinearSystems.square. simpl.
  splits; try reflexivity.
  - repeat constructor.
  - repeat constructor.
  - intros D [= <-]. split; [reflexivity | repeat constructor].
  - intros [|a [|b u]] _ Hu; try discriminate Hu.
    simpl. replace (1 * a + 0) with a by ring. reflexivity.
Qed.

(** X23: the linear JWH-alpha solver solves the equation of the nonlinear
    one.  For a linear damped system, with [dq], [v], [ddq] as [update]
    returns them for a displacement [q], the effective stiffness is minus
    the Jacobian of [newton_raphson] and its residual is
    [F_eff - K_eff q]; so the [q] with [K_eff q = F_eff] that a time step
    of the linear solver computes makes the residual of the nonlinear
    scheme zero. *)
Theorem jwh_alpha_linear_step_solves_residual
    (n : nat) (ms : MechanicalSystem.system) (M D K : Mat) (fe : R -> Vec)
    (p : JWHAlpha.Params) (dt : R) (q q_old dq_old v_old ddq_old : Vec) (t t_old : R) :
  LinearSystems.linear_system n ms K fe ->
  MechanicalSystem.the_M (MechanicalSystem.ensure_M ms) = M ->
  MechanicalSystem.D_constr ms = Some D ->
  JWHAlpha.alpha_f p <> 0 ->
  JWHAlpha.gamma p <> 0 ->
  dt <> 0 ->
  List.length q = n -> List.length q_old = n -> List.length dq_old = n ->
  List.length v_old = n -> List.length ddq_old = n ->
  let K_eff := JWHAlphaLinear.effective_stiffness p dt M D K in
  let F_eff := JWHAlphaLinear.effective_force p dt M D K fe
                 q_old dq_old v_old ddq_old t t_old in
  match JWHAlphaLinear.update p dt q q_old dq_old v_old ddq_old with
  | (dq, v, ddq) =>
      match JWHAlpha.newton_raphson p dt ms q dq v ddq t
              q_old dq_old v_old ddq_old t_old with
      | (_, (Jac, res, _)) =>
          K_eff = mopp Jac /\
          res = vsub F_eff (matvec K_eff q) /\
          (matvec K_eff q = F_eff -> res = zeros n)
      end
  end.
Proof.
  intros Hlin HM HD Hf Hg Hdt Hq Hq_old Hdq_old Hv_old Hddq_old K_eff F_eff.
  pose proof (jwh_alpha_effective_stiffness_Jacobian n ms M D K fe Hlin HM HD p dt
                q q_old dq_old v_old ddq_old t t_old Hf Hg Hdt
                Hq Hq_old Hdq_old Hv_old Hddq_old) as HJ.
  pose proof (jwh_alpha_effective_force_residual n ms M D K fe Hlin HM HD p dt
                q q_old dq_old v_old ddq_old t t_old Hf Hg Hdt
                Hq Hq_old Hdq_old Hv_old Hddq_old) as HR.
  destruct (JWHAlphaLinear.update p dt q q_old dq_old v_old ddq_old) as [[dq v] ddq].
  destruct (JWHAlpha.newton_raphson p dt ms q dq v ddq t _ _ _ _ _)
    as [ms1 [[Jac res] f_ext1]].
  destruct HR as (Hl & HR). fold K_eff in HJ, HR. fold F_eff in HR.
  splits; try assumption.
  intros Hsolve. rewrite Hsolve, vsub_self in HR.
  rewrite HR, zeros_length in Hl. rewrite HR, Hl. reflexivity.
Qed.

(** The spring moved from rest to [q = 1] in one step of size one. *)
Lemma generalized_alpha_update_newmark_witness :
  let p := GeneralizedAlpha.set_parameters 1 in
  match GeneralizedAlphaLinear.update p 1 [1] [0] [0] [] [0] with
  | (dq, v, ddq) =>
      Schemes.newmark p 1 [0] [0] [0] [1] dq ddq /\
      v = [] /\ List.length dq = 1%nat /\ List.length ddq = 1%nat
  end.
Proof.
  intros p.
  assert (Hbeta : GeneralizedAlpha.beta p <> 0).
  { destruct (generalized_alpha_closed_form 1) as [Hb _]; [lra|].
    unfold p. rewrite Hb. lra. }
  apply (generalized_alpha_update_newmark 1 1 [1] [0] [0] [] [0]
           ltac:(lra) eq_refl eq_refl eq_refl eq_refl p Hbeta).
Defined.

(** The same step with a velocity array. *)
Lemma jwh_alpha_update_relations_witness :
  let p := JWHAlpha.set_parameters 1 in
  match JWHAlphaLinear.update p 1 [1] [0] [0] [0] [0] with
  | (dq, v, ddq) =>
      Schemes.jwh_relations p 1 [0] [0] [0] [0] [1] dq v ddq /\
      List.length dq = 1%nat /\ List.length v = 1%nat /\ List.length ddq = 1%nat
  end.
Proof.
  intros p.
  assert (Hg : JWHAlpha.gamma p <> 0).
  { unfold p. rewrite (jwh_alpha_closed_form 1) by lra. lra. }
  assert (Hf : JWHAlpha.alpha_f p <> 0).
  { unfold p, JWHAlpha.set_parameters. cbn [JWHAlpha.alpha_f]. lra. }
  apply (jwh_alpha_update_relations 1 1 [1] [0] [0] [0] [0]
           ltac:(lra) eq_refl eq_refl eq_refl eq_refl eq_refl p Hf Hg).
Defined.

(** The damped spring, one step of size one from rest. *)
Lemma jwh_alpha_linear_step_solves_residual_witness :
  let p := JWHAlpha.set_parameters 1 in
  let ms := DampedExample.damped_spring 1 in
  match JWHAlphaLinear.update p 1 [1] [0] [0] [0] [0] with
  | (dq, v, ddq) =>
      match JWHAlpha.newton_raphson p 1 ms [1] dq v ddq 1 [0] [0] [0] [0] 0 with
      | (_, (Jac, res, _)) =>
          JWHAlphaLinear.effective_stiffness p 1 [[1]] [[1]] [[1]] = mopp Jac
      end
  end.
Proof.
  intros p ms.
  assert (Hg : JWHAlpha.gamma p <> 0).
  { unfold p. rewrite (jwh_alpha_closed_form 1) by lra. lra. }
  assert (Hf : JWHAlpha.alpha_f p <> 0).
  { unfold p, JWHAlpha.set_parameters. cbn [JWHAlpha.alpha_f]. lra. }
  pose proof (jwh_alpha_linear_step_solves_residual 1 ms [[1]] [[1]] [[1]]
                (fun _ => [1]) p 1 [1] [0] [0] [0] [0] 1 0
                (damped_spring_linear_system 1) eq_refl eq_refl Hf Hg ltac:(lra)
                eq_refl eq_refl eq_refl eq_refl eq_refl) as H.
  cbv zeta in H.
  destruct (JWHAlphaLinear.update p 1 [1] [0] [0] [0] [0]) as [[dq v] ddq].
  destruct (JWHAlpha.newton_raphson p 1 ms [1] dq v ddq 1 _ _ _ _ _)
    as [ms1 [[Jac res] f_ext1]].
  exact (proj1 H).
Defined.

(** X24: the effective stiffness of the linear generalized-alpha solver
    is minus the Jacobian that [newton_raphson] of the nonlinear
    generalized-alpha solver returns for a linear damped system with the
    same matrices, whatever the state it is evaluated at. *)
Theorem generalized_alpha_effective_stiffness_Jacobian
    (n : nat) (ms : MechanicalSystem.system) (M D K : Mat) (fe : R -> Vec)
    (p : GeneralizedAlpha.Params) (dt : R)
    (q dq v ddq q_old dq_old v_old ddq_old : Vec) (t t_old : R) :
  LinearSystems.linear_system n ms K fe ->
  MechanicalSystem.the_M (MechanicalSystem.ensure_M ms) = M ->
  MechanicalSystem.D_constr ms = Some D ->
  GeneralizedAlpha.beta p <> 0 ->
  dt <> 0 ->
  List.length q = n -> List.length q_old = n ->
  match GeneralizedAlpha.newton_raphson p dt ms q dq v ddq t
          q_old dq_old v_old ddq_old t_old with
  | (_, (Jac, _, _)) => GeneralizedAlphaLinear.effective_stiffness p dt M D K = mopp Jac
  end.
Proof.
  intros (HMs & HK & HDs & HKf & Hfe & Hfel) HM HD Hbeta Hdt Hq Hq_old.
  specialize (HDs D HD). rewrite HM in HMs.
  unfold GeneralizedAlpha.newton_raphson, GeneralizedAlphaLinear.effective_stiffness.
  rewrite K_and_f_ensure_M, f_ext_ensure_M, D_constr_ensure_M, HM, HD.
  rewrite !HKf by vec_length. cbv beta iota zeta.
  pose proof (proj1 HMs) as HlM. pose proof (proj1 HK) as HlK.
  pose proof (proj1 HDs) as HlD.
  apply nth_ext with (d := []) (d' := []); [lin_length|].
  intros i Hi.
  assert (Hin : (i < n)%nat) by (revert Hi; lin_length).
  pose proof (square_row n M i HMs Hin) as HrM.
  pose proof (square_row n K i HK Hin) as HrK.
  pose proof (square_row n D i HDs Hin) as HrD.
  lin_entries.
  apply nth_ext with (d := 0) (d' := 0); [lin_length|].
  intros j _. lin_entries. field. splits; assumption.
Qed.

(** The damped spring at rest. *)
Lemma generalized_alpha_effective_stiffness_Jacobian_witness :
  let p := GeneralizedAlpha.set_parameters 1 in
  match GeneralizedAlpha.newton_raphson p 1 (DampedExample.damped_spring 1)
          [0] [0] [] [0] 1 [0] [0] [] [0] 0 with
  | (_, (Jac, _, _)) =>
      GeneralizedAlphaLinear.effective_stiffness p 1 [[1]] [[1]] [[1]] = mopp Jac
  end.
Proof.
  intros p.
  assert (Hbeta : GeneralizedAlpha.beta p <> 0).
  { destruct (generalized_alpha_closed_form 1) as [Hb _]; [lra|].
    unfold p. rewrite Hb. lra. }
  apply (generalized_alpha_effective_stiffness_Jacobian 1
           (DampedExample.damped_spring 1) [[1]] [[1]] [[1]] (fun _ => [1]) p 1
           [0] [0] [] [0] [0] [0] [] [0] 1 0
           (damped_spring_linear_system 1) eq_refl eq_refl Hbeta ltac:(lra)
           eq_refl eq_refl).
Defined.

(** ** Linear systems need one Newton-Raphson iteration *)

Section OneIteration.

Import NonlinearDynamicsSolver.

Variable s : solver.
Variable h : Hooks.

(** When the residual after the first correction is zero, the loop ends
    converged after at most one iteration. *)
Lemma newton_loop_one_iteration (old : Old) (fuel : nat) (st : State)
    (Jac : Mat) (res : Vec) (res_abs : R) (n_iter : Z)
    (e : NewtonExit) (st1 : State) (n1 : Z) (r1 : R) :
  0 <= rtol s * abs_f_ext st + atol s ->
  (n_iter + 1 <= n_iter_max s)%Z ->
  match correct h (q st) (dq st) (v st) (ddq st) (vopp (linsolver s Jac res)) with
  | (q1, dq1, v1, ddq1) =>
      match newton_raphson h (ms st) q1 dq1 v1 ddq1 (t st)
              (q_old old) (dq_old old) (v_old old) (ddq_old old) (t_old old) with
      | (_, (_, res1, _)) => norm_of_vector res1 = 0
      end
  end ->
  newton_loop s h old (S fuel) st Jac res res_abs n_iter = (e, st1, n1, r1) ->
  e = Converged /\ (n_iter <= n1 <= n_iter + 1)%Z.
Proof.
  intros Htol Hcap Hzero. simpl.
  destruct (Rgtb res_abs _); [|intros [= <- <- <- <-]; split; [reflexivity | lia]].
  destruct (correct h _ _ _ _ _) as [[[q1 dq1] v1] ddq1].
  destruct (newton_raphson h _ _ _ _ _ _ _ _ _ _ _) as [ms1 [[Jac1 res1] f_ext1]].
  rewrite Hzero.
  assert (Hc : (n_iter + 1 >? n_iter_max s)%Z = false).
  { rewrite Z.gtb_ltb. apply Z.ltb_ge. exact Hcap. }
  rewrite Hc.
  assert (Hg : Rgtb 0 (rtol s * abs_f_ext st + atol s) = false).
  { apply Rgtb_false_iff. lra. }
  destruct fuel as [|fuel]; simpl; rewrite Hg;
    intros [= <- <- <- <-]; split; try reflexivity; lia.
Qed.

End OneIteration.

Section LinearSystemFacts.

Import LinearSystems.

Lemma ensure_M_idempotent (m : MechanicalSystem.system) :
  MechanicalSystem.ensure_M (MechanicalSystem.ensure_M m) = MechanicalSystem.ensure_M m.
Proof.
  unfold MechanicalSystem.ensure_M.
  destruct (MechanicalSystem.M_constr m) eqn:E; [rewrite E|]; reflexivity.
Qed.

Lemma linear_system_ensure_M (n : nat) (m : MechanicalSystem.system) (K : Mat)
    (fe : R -> Vec) :
  linear_system n m K fe -> linear_system n (MechanicalSystem.ensure_M m) K fe.
Proof.
  unfold linear_system.
  rewrite ensure_M_idempotent, K_and_f_ensure_M, f_ext_ensure_M, D_constr_ensure_M.
  tauto.
Qed.

Lemma matvec_vopp (A : Mat) (x : Vec) : matvec A (vopp x) = vopp (matvec A x).
Proof.
  apply nth_ext with (d := 0) (d' := 0); [lin_length|].
  intros i _. lin_entries.
  replace (vopp x) with (vscale (-1) x).
  - rewrite dot_vscale_r. ring.
  - unfold vscale, vopp. apply map_ext. intros a. ring.
Qed.

Lemma generalized_alpha_newton_raphson_ensure_M
    (p : GeneralizedAlpha.Params) (dt : R) (m : MechanicalSystem.system)
    (q dq v ddq : Vec) (t : R) (q_old dq_old v_old ddq_old : Vec) (t_old : R) :
  fst (GeneralizedAlpha.newton_raphson p dt m q dq v ddq t
         q_old dq_old v_old ddq_old t_old) = MechanicalSystem.ensure_M m /\
  snd (GeneralizedAlpha.newton_raphson p dt (MechanicalSystem.ensure_M m) q dq v ddq t
         q_old dq_old v_old ddq_old t_old) =
  snd (GeneralizedAlpha.newton_raphson p dt m q dq v ddq t
         q_old dq_old v_old ddq_old t_old).
Proof.
  unfold GeneralizedAlpha.newton_raphson.
  rewrite ensure_M_idempotent.
  destruct (MechanicalSystem.K_and_f _ _ _) as [K_f f_f].
  destruct (MechanicalSystem.D_constr _); split; reflexivity.
Qed.

Lemma jwh_alpha_newton_raphson_ensure_M
    (p : JWHAlpha.Params) (dt : R) (m : MechanicalSystem.system)
    (q dq v ddq : Vec) (t : R) (q_old dq_old v_old ddq_old : Vec) (t_old : R) :
  fst (JWHAlpha.newton_raphson p dt m q dq v ddq t
         q_old dq_old v_old ddq_old t_old) = MechanicalSystem.ensure_M m /\
  snd (JWHAlpha.newton_raphson p dt (MechanicalSystem.ensure_M m) q dq v ddq t
         q_old dq_old v_old ddq_old t_old) =
  snd (JWHAlpha.newton_raphson p dt m q dq v ddq t
         q_old dq_old v_old ddq_old t_old).
Proof.
  unfold JWHAlpha.newton_raphson.
  rewrite ensure_M_idempotent.
  destruct (MechanicalSystem.K_and_f _ _ _) as [K_f f_f].
  destruct (MechanicalSystem.D_constr _); split; reflexivity.
Qed.

End LinearSystemFacts.

(** A time step for a linear system, the linear solver being exact. *)
Lemma generalized_alpha_advance_linear
    (s : NonlinearDynamicsSolver.solver) (n : nat) (K : Mat) (fe : R -> Vec)
    (st : NonlinearDynamicsSolver.State) (e : NonlinearDynamicsSolver.NewtonExit)
    (st1 : NonlinearDynamicsSolver.State) (n_iter : Z) (res_abs : R) :
  let p := GeneralizedAlpha.set_parameters (NonlinearDynamicsSolver.rho_inf s) in
  let h := NonlinearDynamicsSolver.set_parameters GeneralizedAlphaNonlinearDynamicsSolver
             (NonlinearDynamicsSolver.rho_inf s) (NonlinearDynamicsSolver.dt s) in
  NonlinearDynamicsSolver.rho_inf s <> -1 ->
  NonlinearDynamicsSolver.dt s <> 0 ->
  0 <= NonlinearDynamicsSolver.rtol s ->
  0 <= NonlinearDynamicsSolver.atol s ->
  (1 <= NonlinearDynamicsSolver.n_iter_max s)%Z ->
  LinearSystems.linear_system n (NonlinearDynamicsSolver.ms st) K fe ->
  List.length (NonlinearDynamicsSolver.q st) = n ->
  List.length (NonlinearDynamicsSolver.dq st) = n ->
  List.length (NonlinearDynamicsSolver.ddq st) = n ->
  (forall q dq v ddq t q_old dq_old v_old ddq_old t_old,
     List.length q = n -> List.length q_old = n ->
     forall b,
     List.length b = n ->
     let Jac := fst (fst (snd (GeneralizedAlpha.newton_raphson p
                                 (NonlinearDynamicsSolver.dt s)
                                 (NonlinearDynamicsSolver.ms st)
                                 q dq v ddq t q_old dq_old v_old ddq_old t_old))) in
     List.length (NonlinearDynamicsSolver.linsolver s Jac b) = n /\
     matvec Jac (NonlinearDynamicsSolver.linsolver s Jac b) = b) ->
  NonlinearDynamicsSolver.advance s h st = (e, st1, n_iter, res_abs) ->
  e = NonlinearDynamicsSolver.Converged /\ (0 <= n_iter <= 1)%Z.
Proof.
  intros p h Hrho Hdt Hrtol Hatol Hcap Hlin Hq Hdq Hddq Hexact.
  assert (Hbeta : GeneralizedAlpha.beta p <> 0).
  { destruct (generalized_alpha_closed_form _ Hrho) as [Hb _]. fold p in Hb.
    rewrite Hb. intros H0.
    assert (Hpos : 0 < 1 / (1 + NonlinearDynamicsSolver.rho_inf s) ^ 2).
    { apply Rdiv_lt_0_compat; [lra|].
      replace ((1 + NonlinearDynamicsSolver.rho_inf s) ^ 2)
        with (Rsqr (1 + NonlinearDynamicsSolver.rho_inf s)) by (unfold Rsqr; ring).
      apply Rsqr_pos_lt. lra. }
    lra. }
  unfold NonlinearDynamicsSolver.advance.
  cbn [NonlinearDynamicsSolver.q_old NonlinearDynamicsSolver.dq_old
       NonlinearDynamicsSolver.v_old NonlinearDynamicsSolver.ddq_old
       NonlinearDynamicsSolver.t_old NonlinearDynamicsSolver.save_old].
  change (NonlinearDynamicsSolver.predict h)
    with (GeneralizedAlpha.predict p (NonlinearDynamicsSolver.dt s)).
  change (NonlinearDynamicsSolver.newton_raphson h)
    with (GeneralizedAlpha.newton_raphson p (NonlinearDynamicsSolver.dt s)).
  pose proof (generalized_alpha_predict_kept p (NonlinearDynamicsSolver.dt s) n
                _ _ _ Hq Hdq Hddq (NonlinearDynamicsSolver.v st)) as Hp.
  destruct (GeneralizedAlpha.predict p _ _ _ _ _) as [[[q1 dq1] v1] ddq1].
  destruct Hp as ((Hq1 & Hdq1 & Hddq1) & _ & _).
  set (t1 := NonlinearDynamicsSolver.t st + NonlinearDynamicsSolver.dt s).
  pose proof (generalized_alpha_newton_raphson_ensure_M p (NonlinearDynamicsSolver.dt s)
                (NonlinearDynamicsSolver.ms st) q1 dq1 v1 ddq1 t1
                (NonlinearDynamicsSolver.q st) (NonlinearDynamicsSolver.dq st)
                (NonlinearDynamicsSolver.v st) (NonlinearDynamicsSolver.ddq st)
                (NonlinearDynamicsSolver.t st)) as [Hfst Hsnd].
  pose proof (Hexact q1 dq1 v1 ddq1 t1
                (NonlinearDynamicsSolver.q st) (NonlinearDynamicsSolver.dq st)
                (NonlinearDynamicsSolver.v st) (NonlinearDynamicsSolver.ddq st)
                (NonlinearDynamicsSolver.t st) Hq1 Hq) as Hex.
  cbv zeta in Hex.
  destruct (GeneralizedAlpha.newton_raphson p _ (NonlinearDynamicsSolver.ms st) _ _ _ _ _ _ _ _ _ _)
    as [ms1 [[Jac res] f_ext1]].
  cbn [fst snd] in Hfst, Hsnd, Hex. subst ms1.
  apply linear_system_ensure_M in Hlin.
  set (m1 := MechanicalSystem.ensure_M (NonlinearDynamicsSolver.ms st)) in *.
  assert (Hres : List.length res = n).
  { pose proof (generalized_alpha_residual_after_correct n m1 K fe Hlin
                  (NonlinearDynamicsSolver.dt s) q1 dq1 v1 ddq1
                  (NonlinearDynamicsSolver.q st) (NonlinearDynamicsSolver.dq st)
                  (NonlinearDynamicsSolver.v st) (NonlinearDynamicsSolver.ddq st)
                  (zeros n) t1 (NonlinearDynamicsSolver.t st)
                  Hdt Hq1 Hdq1 Hddq1 Hq Hdq Hddq (zeros_length n) p Hbeta) as H.
    destruct (GeneralizedAlpha.newton_raphson p _ m1 q1 _ _ _ _ _ _ _ _ _)
      as [mx [[Jx rx] fx]].
    cbn [snd] in Hsnd. injection Hsnd as -> -> ->.
    destruct (GeneralizedAlpha.correct p _ _ _ _ _ _) as [[[q2 dq2] v2] ddq2].
    destruct (GeneralizedAlpha.newton_raphson p _ m1 q2 _ _ _ _ _ _ _ _ _)
      as [my [[Jy ry] fy]].
    tauto. }
  destruct (Hex res Hres) as [Hlen Hsolve].
  intros Ha.
  apply newton_loop_one_iteration in Ha.
  - destruct Ha as [He Hn]. split; [exact He | lia].
  - cbn [NonlinearDynamicsSolver.abs_f_ext].
    pose proof (norm_of_vector_nonneg f_ext1) as Hn.
    pose proof (Rmax_r (NonlinearDynamicsSolver.abs_f_ext st) (norm_of_vector f_ext1)) as Hm.
    nra.
  - lia.
  - cbn [NonlinearDynamicsSolver.q NonlinearDynamicsSolver.dq NonlinearDynamicsSolver.v
         NonlinearDynamicsSolver.ddq NonlinearDynamicsSolver.ms NonlinearDynamicsSolver.t
         NonlinearDynamicsSolver.q_old NonlinearDynamicsSolver.dq_old
         NonlinearDynamicsSolver.v_old NonlinearDynamicsSolver.ddq_old
         NonlinearDynamicsSolver.t_old NonlinearDynamicsSolver.save_old].
    change (NonlinearDynamicsSolver.correct h)
      with (GeneralizedAlpha.correct p (NonlinearDynamicsSolver.dt s)).
    change (NonlinearDynamicsSolver.newton_raphson h)
      with (GeneralizedAlpha.newton_raphson p (NonlinearDynamicsSolver.dt s)).
    pose proof (generalized_alpha_residual_after_correct n m1 K fe Hlin
                  (NonlinearDynamicsSolver.dt s) q1 dq1 v1 ddq1
                  (NonlinearDynamicsSolver.q st) (NonlinearDynamicsSolver.dq st)
                  (NonlinearDynamicsSolver.v st) (NonlinearDynamicsSolver.ddq st)
                  (vopp (NonlinearDynamicsSolver.linsolver s Jac res))
                  t1 (NonlinearDynamicsSolver.t st)
                  Hdt Hq1 Hdq1 Hddq1 Hq Hdq Hddq
                  ltac:(rewrite vopp_length; exact Hlen) p Hbeta) as H.
    destruct (GeneralizedAlpha.newton_raphson p _ m1 q1 _ _ _ _ _ _ _ _ _)
      as [mx [[Jx rx] fx]].
    cbn [snd] in Hsnd. injection Hsnd as -> -> ->.
    destruct (GeneralizedAlpha.correct p _ _ _ _ _ _) as [[[q2 dq2] v2] ddq2].
    destruct (GeneralizedAlpha.newton_raphson p _ m1 q2 _ _ _ _ _ _ _ _ _)
      as [my [[Jy ry] fy]].
    destruct H as (_ & _ & ->).
    rewrite matvec_vopp, Hsolve, vadd_vopp_self. apply norm_of_vector_zeros.
Qed.



(** A time step for a linear system, the linear solver being exact. *)
Lemma jwh_alpha_advance_linear
    (s : NonlinearDynamicsSolver.solver) (n : nat) (K : Mat) (fe : R -> Vec)
    (st : NonlinearDynamicsSolver.State) (e : NonlinearDynamicsSolver.NewtonExit)
    (st1 : NonlinearDynamicsSolver.State) (n_iter : Z) (res_abs : R) :
  let p := JWHAlpha.set_parameters (NonlinearDynamicsSolver.rho_inf s) in
  let h := NonlinearDynamicsSolver.set_parameters JWHAlphaNonlinearDynamicsSolver
             (NonlinearDynamicsSolver.rho_inf s) (NonlinearDynamicsSolver.dt s) in
  NonlinearDynamicsSolver.rho_inf s <> -1 ->
  NonlinearDynamicsSolver.rho_inf s <> 3 ->
  NonlinearDynamicsSolver.dt s <> 0 ->
  0 <= NonlinearDynamicsSolver.rtol s ->
  0 <= NonlinearDynamicsSolver.atol s ->
  (1 <= NonlinearDynamicsSolver.n_iter_max s)%Z ->
  LinearSystems.linear_system n (NonlinearDynamicsSolver.ms st) K fe ->
  List.length (NonlinearDynamicsSolver.q st) = n ->
  List.length (NonlinearDynamicsSolver.dq st) = n ->
  List.length (NonlinearDynamicsSolver.v st) = n ->
  List.length (NonlinearDynamicsSolver.ddq st) = n ->
  (forall q dq v ddq t q_old dq_old v_old ddq_old t_old,
     List.length q = n -> List.length q_old = n ->
     forall b,
     List.length b = n ->
     let Jac := fst (fst (snd (JWHAlpha.newton_raphson p
                                 (NonlinearDynamicsSolver.dt s)
                                 (NonlinearDynamicsSolver.ms st)
                                 q dq v ddq t q_old dq_old v_old ddq_old t_old))) in
     List.length (NonlinearDynamicsSolver.linsolver s Jac b) = n /\
     matvec Jac (NonlinearDynamicsSolver.linsolver s Jac b) = b) ->
  NonlinearDynamicsSolver.advance s h st = (e, st1, n_iter, res_abs) ->
  e = NonlinearDynamicsSolver.Converged /\ (0 <= n_iter <= 1)%Z.
Proof.
  intros p h Hrho Hrho3 Hdt Hrtol Hatol Hcap Hlin Hq Hdq Hv Hddq Hexact.
  set (rho := NonlinearDynamicsSolver.rho_inf s) in *.
  assert (Hd : / (1 + rho) <> 0) by (apply Rinv_neq_0_compat; lra).
  assert (Hf : JWHAlpha.alpha_f p <> 0).
  { unfold p, JWHAlpha.set_parameters. cbn [JWHAlpha.alpha_f].
    unfold Rdiv. rewrite Rmult_1_l. exact Hd. }
  assert (Hg : JWHAlpha.gamma p <> 0).
  { pose proof (jwh_alpha_closed_form rho Hrho) as Hg. fold p in Hg. rewrite Hg.
    unfold Rdiv. rewrite Rmult_1_l. exact Hd. }
  assert (Hm : JWHAlpha.alpha_m p <> 0).
  { unfold p, JWHAlpha.set_parameters. cbn [JWHAlpha.alpha_m].
    unfold Rdiv. apply Rmult_integral_contrapositive_currified; [lra|].
    apply Rinv_neq_0_compat. lra. }
  unfold NonlinearDynamicsSolver.advance.
  cbn [NonlinearDynamicsSolver.q_old NonlinearDynamicsSolver.dq_old
       NonlinearDynamicsSolver.v_old NonlinearDynamicsSolver.ddq_old
       NonlinearDynamicsSolver.t_old NonlinearDynamicsSolver.save_old].
  change (NonlinearDynamicsSolver.predict h)
    with (JWHAlpha.predict p (NonlinearDynamicsSolver.dt s)).
  change (NonlinearDynamicsSolver.newton_raphson h)
    with (JWHAlpha.newton_raphson p (NonlinearDynamicsSolver.dt s)).
  pose proof (jwh_alpha_predict_kept p (NonlinearDynamicsSolver.dt s) n
                _ _ _ _ Hm Hq Hdq Hv Hddq) as Hp.
  destruct (JWHAlpha.predict p _ _ _ _ _) as [[[q1 dq1] v1] ddq1].
  destruct Hp as ((Hq1 & Hdq1 & Hv1 & Hddq1) & _).
  set (t1 := NonlinearDynamicsSolver.t st + NonlinearDynamicsSolver.dt s).
  pose proof (jwh_alpha_newton_raphson_ensure_M p (NonlinearDynamicsSolver.dt s)
                (NonlinearDynamicsSolver.ms st) q1 dq1 v1 ddq1 t1
                (NonlinearDynamicsSolver.q st) (NonlinearDynamicsSolver.dq st)
                (NonlinearDynamicsSolver.v st) (NonlinearDynamicsSolver.ddq st)
                (NonlinearDynamicsSolver.t st)) as [Hfst Hsnd].
  pose proof (Hexact q1 dq1 v1 ddq1 t1
                (NonlinearDynamicsSolver.q st) (NonlinearDynamicsSolver.dq st)
                (NonlinearDynamicsSolver.v st) (NonlinearDynamicsSolver.ddq st)
                (NonlinearDynamicsSolver.t st) Hq1 Hq) as Hex.
  cbv zeta in Hex.
  destruct (JWHAlpha.newton_raphson p _ (NonlinearDynamicsSolver.ms st) _ _ _ _ _ _ _ _ _ _)
    as [ms1 [[Jac res] f_ext1]].
  cbn [fst snd] in Hfst, Hsnd, Hex. subst ms1.
  apply linear_system_ensure_M in Hlin.
  set (m1 := MechanicalSystem.ensure_M (NonlinearDynamicsSolver.ms st)) in *.
  assert (Hres : List.length res = n).
  { pose proof (jwh_alpha_residual_after_correct n m1 K fe Hlin
                  (NonlinearDynamicsSolver.dt s) q1 dq1 v1 ddq1
                  (NonlinearDynamicsSolver.q st) (NonlinearDynamicsSolver.dq st)
                  (NonlinearDynamicsSolver.v st) (NonlinearDynamicsSolver.ddq st)
                  (zeros n) t1 (NonlinearDynamicsSolver.t st)
                  Hdt Hq1 Hdq1 Hddq1 Hq Hdq Hddq (zeros_length n) Hv1 Hv p Hf Hg) as H.
    destruct (JWHAlpha.newton_raphson p _ m1 q1 _ _ _ _ _ _ _ _ _)
      as [mx [[Jx rx] fx]].
    cbn [snd] in Hsnd. injection Hsnd as -> -> ->.
    destruct (JWHAlpha.correct p _ _ _ _ _ _) as [[[q2 dq2] v2] ddq2].
    destruct (JWHAlpha.newton_raphson p _ m1 q2 _ _ _ _ _ _ _ _ _)
      as [my [[Jy ry] fy]].
    tauto. }
  destruct (Hex res Hres) as [Hlen Hsolve].
  intros Ha.
  apply newton_loop_one_iteration in Ha.
  - destruct Ha as [He Hn]. split; [exact He | lia].
  - cbn [NonlinearDynamicsSolver.abs_f_ext].
    pose proof (norm_of_vector_nonneg f_ext1) as Hn.
    pose proof (Rmax_r (NonlinearDynamicsSolver.abs_f_ext st) (norm_of_vector f_ext1)) as Hmax.
    nra.
  - lia.
  - cbn [NonlinearDynamicsSolver.q NonlinearDynamicsSolver.dq NonlinearDynamicsSolver.v
         NonlinearDynamicsSolver.ddq NonlinearDynamicsSolver.ms NonlinearDynamicsSolver.t
         NonlinearDynamicsSolver.q_old NonlinearDynamicsSolver.dq_old
         NonlinearDynamicsSolver.v_old NonlinearDynamicsSolver.ddq_old
         NonlinearDynamicsSolver.t_old NonlinearDynamicsSolver.save_old].
    change (NonlinearDynamicsSolver.correct h)
      with (JWHAlpha.correct p (NonlinearDynamicsSolver.dt s)).
    change (NonlinearDynamicsSolver.newton_raphson h)
      with (JWHAlpha.newton_raphson p (NonlinearDynamicsSolver.dt s)).
    pose proof (jwh_alpha_residual_after_correct n m1 K fe Hlin
                  (NonlinearDynamicsSolver.dt s) q1 dq1 v1 ddq1
                  (NonlinearDynamicsSolver.q st) (NonlinearDynamicsSolver.dq st)
                  (NonlinearDynamicsSolver.v st) (NonlinearDynamicsSolver.ddq st)
                  (vopp (NonlinearDynamicsSolver.linsolver s Jac res))
                  t1 (NonlinearDynamicsSolver.t st)
                  Hdt Hq1 Hdq1 Hddq1 Hq Hdq Hddq
                  ltac:(rewrite vopp_length; exact Hlen) Hv1 Hv p Hf Hg) as H.
    destruct (JWHAlpha.newton_raphson p _ m1 q1 _ _ _ _ _ _ _ _ _)
      as [mx [[Jx rx] fx]].
    cbn [snd] in Hsnd. injection Hsnd as -> -> ->.
    destruct (JWHAlpha.correct p _ _ _ _ _ _) as [[[q2 dq2] v2] ddq2].
    destruct (JWHAlpha.newton_raphson p _ m1 q2 _ _ _ _ _ _ _ _ _)
      as [my [[Jy ry] fy]].
    destruct H as (_ & _ & ->).
    rewrite matvec_vopp, Hsolve, vadd_vopp_self. apply norm_of_vector_zeros.
Qed.


Lemma jwh_alpha_parameters_1 :
  JWHAlpha.set_parameters 1 =
    {| JWHAlpha.alpha_m := 0.5; JWHAlpha.alpha_f := 0.5; JWHAlpha.gamma := 0.5 |}.
Proof. unfold JWHAlpha.set_parameters. f_equal; lra. Qed.


(** ** A whole solve of a linear system *)

Section SameSystemFacts.

Import SameSystem.

Lemma same_system_refl (m : MechanicalSystem.system) : same_system m m.
Proof. unfold same_system. tauto. Qed.

Lemma same_system_trans (m m1 m2 : MechanicalSystem.system) :
  same_system m m1 -> same_system m1 m2 -> same_system m m2.
Proof.
  unfold same_system. intros (H1 & H2 & H3 & H4) (G1 & G2 & G3 & G4).
  splits; congruence.
Qed.

Lemma same_system_ensure_M (m : MechanicalSystem.system) :
  same_system m (MechanicalSystem.ensure_M m).
Proof.
  unfold same_system.
  rewrite ensure_M_idempotent, K_and_f_ensure_M, f_ext_ensure_M, D_constr_ensure_M.
  tauto.
Qed.

Lemma same_system_set_timesteps (m : MechanicalSystem.system) (l : list (R * Vec)) :
  same_system m (MechanicalSystem.set_timesteps m l).
Proof.
  unfold same_system, MechanicalSystem.ensure_M, MechanicalSystem.the_M. simpl.
  splits; try reflexivity.
  destruct (MechanicalSystem.M_constr m) eqn:E; simpl; [rewrite E|]; reflexivity.
Qed.

Lemma same_system_linear (n : nat) (m m' : MechanicalSystem.system) (K : Mat)
    (fe : R -> Vec) :
  same_system m m' ->
  LinearSystems.linear_system n m K fe -> LinearSystems.linear_system n m' K fe.
Proof.
  unfold same_system, LinearSystems.linear_system.
  intros (H1 & H2 & H3 & H4). rewrite H1, H2, H3, H4. tauto.
Qed.

Lemma generalized_alpha_newton_raphson_same
    (p : GeneralizedAlpha.Params) (dt : R) (m m' : MechanicalSystem.system)
    (q dq v ddq : Vec) (t : R) (q_old dq_old v_old ddq_old : Vec) (t_old : R) :
  same_system m m' ->
  snd (GeneralizedAlpha.newton_raphson p dt m' q dq v ddq t
         q_old dq_old v_old ddq_old t_old) =
  snd (GeneralizedAlpha.newton_raphson p dt m q dq v ddq t
         q_old dq_old v_old ddq_old t_old).
Proof.
  intros (H1 & H2 & H3 & H4).
  unfold GeneralizedAlpha.newton_raphson.
  rewrite !K_and_f_ensure_M, !f_ext_ensure_M, !D_constr_ensure_M, H1, H2, H3, H4.
  destruct (MechanicalSystem.K_and_f m _ _) as [K_f f_f].
  destruct (MechanicalSystem.D_constr m); reflexivity.
Qed.

End SameSystemFacts.

Section SystemThroughStep.

Import NonlinearDynamicsSolver.

Variable s : solver.
Variable h : Hooks.
Variable J : MechanicalSystem.system -> Prop.

Hypothesis Hnewton_raphson :
  forall m q dq v ddq t q_old dq_old v_old ddq_old t_old,
    J m -> J (fst (newton_raphson h m q dq v ddq t q_old dq_old v_old ddq_old t_old)).
Hypothesis Hwrite : forall m t u, J m -> J (MechanicalSystem.write_timestep m t u).

(** What [newton_raphson] and [write_timestep] keep of the mechanical
    system holds at the end of the Newton-Raphson loop and of the step. *)
Lemma newton_loop_system (old : Old) (fuel : nat) :
  forall st Jac res res_abs n_iter e st1 n1 r1,
    J (ms st) ->
    newton_loop s h old fuel st Jac res res_abs n_iter = (e, st1, n1, r1) ->
    J (ms st1).
Proof.
  induction fuel as [|fuel IH]; intros st Jac res res_abs n_iter e st1 n1 r1 HJ; simpl.
  - destruct (Rgtb _ _); intros [= <- <- <- <-]; exact HJ.
  - destruct (Rgtb _ _); [|intros [= <- <- <- <-]; exact HJ].
    destruct (correct h _ _ _ _ _) as [[[q1 dq1] v1] ddq1].
    pose proof (Hnewton_raphson (ms st) q1 dq1 v1 ddq1 (t st)
                  (q_old old) (dq_old old) (v_old old) (ddq_old old) (t_old old) HJ) as HJ1.
    destruct (newton_raphson h _ _ _ _ _ _ _ _ _ _ _) as [ms1 [[Jac1 res1] f_ext1]].
    cbn [fst] in HJ1.
    assert (HJ2 : J (if write_iter s
                     then MechanicalSystem.write_timestep ms1
                            (t st + dt s / 1000000 * IZR (n_iter + 1)) q1
                     else ms1)).
    { destruct (write_iter s); [apply Hwrite|]; exact HJ1. }
    destruct (_ >? _)%Z.
    + destruct (conv_abort s); intros [= <- <- <- <-]; exact HJ2.
    + intros Hl. apply IH in Hl; [exact Hl | exact HJ2].
Qed.

Lemma advance_system (st : State) (e : NewtonExit) (st1 : State) (n : Z) (r : R) :
  J (ms st) ->
  advance s h st = (e, st1, n, r) ->
  J (ms st1).
Proof.
  unfold advance. intros HJ.
  destruct (predict h _ _ _ _) as [[[q1 dq1] v1] ddq1].
  pose proof (Hnewton_raphson (ms st) q1 dq1 v1 ddq1 (t st + dt s)
                (q st) (dq st) (v st) (ddq st) (t st) HJ) as HJ1.
  cbn [q_old dq_old v_old ddq_old t_old save_old].
  destruct (newton_raphson h _ _ _ _ _ _ _ _ _ _ _) as [ms1 [[Jac res] f_ext1]].
  intros Hl. apply newton_loop_system in Hl; [exact Hl | exact HJ1].
Qed.

End SystemThroughStep.

Section LinearSolve.

Import NonlinearDynamicsSolver SameSystem.

Variable s : solver.
Variable n : nat.
Variable K : Mat.
Variable fe : R -> Vec.

Let p := GeneralizedAlpha.set_parameters (rho_inf s).
Let h := set_parameters GeneralizedAlphaNonlinearDynamicsSolver (rho_inf s) (dt s).
Let m0 := mechanical_system s.

Hypothesis Hrho : rho_inf s <> -1.
Hypothesis Hdt : dt s <> 0.
Hypothesis Hrtol : 0 <= rtol s.
Hypothesis Hatol : 0 <= atol s.
Hypothesis Hcap : (1 <= n_iter_max s)%Z.
Hypothesis Hlin : LinearSystems.linear_system n m0 K fe.
Hypothesis Hlen : forall A b, List.length (linsolver s A b) = n.
Hypothesis Hexact :
  forall q dq v ddq t q_old dq_old v_old ddq_old t_old,
    List.length q = n -> List.length q_old = n ->
    forall b,
      List.length b = n ->
      let Jac := fst (fst (snd (GeneralizedAlpha.newton_raphson p (dt s) m0
                                  q dq v ddq t q_old dq_old v_old ddq_old t_old))) in
      matvec Jac (linsolver s Jac b) = b.

(** The system is the given one but for its records, and the arrays have
    its size. *)
Let sized (st : State) : Prop :=
  same_system m0 (ms st) /\
  List.length (q st) = n /\ List.length (dq st) = n /\ List.length (ddq st) = n.

Lemma generalized_alpha_beta_nonzero : GeneralizedAlpha.beta p <> 0.
Proof.
  destruct (generalized_alpha_closed_form _ Hrho) as [Hb _]. fold p in Hb.
  rewrite Hb. intros H0.
  assert (Hpos : 0 < 1 / (1 + rho_inf s) ^ 2).
  { apply Rdiv_lt_0_compat; [lra|].
    replace ((1 + rho_inf s) ^ 2) with (Rsqr (1 + rho_inf s)) by (unfold Rsqr; ring).
    apply Rsqr_pos_lt. lra. }
  lra.
Qed.

Lemma advance_linear_sized (st : State) (e : NewtonExit) (st1 : State)
    (n_iter : Z) (r : R) :
  sized st ->
  advance s h st = (e, st1, n_iter, r) ->
  e = Converged /\ sized st1.
Proof.
  intros (Hsame & Hq & Hdq & Hddq) Ha.
  pose proof generalized_alpha_beta_nonzero as Hbeta.
  assert (He : e = Converged).
  { apply (generalized_alpha_advance_linear s n K fe st e st1 n_iter r
             Hrho Hdt Hrtol Hatol Hcap
             (same_system_linear n m0 (ms st) K fe Hsame Hlin) Hq Hdq Hddq);
      [|exact Ha].
    intros q0 dq0 v0 ddq0 t0' q_old0 dq_old0 v_old0 ddq_old0 t_old0 Hq0 Hqo0 b Hb.
    cbv zeta.
    rewrite (generalized_alpha_newton_raphson_same _ _ m0 (ms st) _ _ _ _ _ _ _ _ _ _ Hsame).
    split; [apply Hlen|].
    apply (Hexact q0 dq0 v0 ddq0 t0' q_old0 dq_old0 v_old0 ddq_old0 t_old0 Hq0 Hqo0 b Hb). }
  split; [exact He|].
  split.
  - apply (advance_system s h (same_system m0)) with (st := st) (e := e) (n := n_iter) (r := r);
      [| |exact Hsame|exact Ha].
    + intros m q0 dq0 v0 ddq0 t0' q_old0 dq_old0 v_old0 ddq_old0 t_old0 Hm.
      change (newton_raphson h) with (GeneralizedAlpha.newton_raphson p (dt s)).
      rewrite (proj1 (generalized_alpha_newton_raphson_ensure_M _ _ m _ _ _ _ _ _ _ _ _ _)).
      apply (same_system_trans _ _ _ Hm), same_system_ensure_M.
    + intros m t0' u Hm.
      apply (same_system_trans _ _ _ Hm). apply same_system_set_timesteps.
  - pose proof (advance_invariant s h
      (fun q0 dq0 v0 ddq0 =>
         (List.length q0 = n /\ List.length dq0 = n /\ List.length ddq0 = n) /\
         v0 = v st /\
         Schemes.newmark p (dt s) (q st) (dq st) (ddq st) q0 dq0 ddq0)) as Hinv.
    cbv beta in Hinv.
    apply Hinv in Ha; [tauto | | | rewrite He; discriminate].
    + intros q0 dq0 v0 ddq0 A b HI.
      apply (generalized_alpha_correct_kept p (dt s) n (q st) (dq st) (ddq st)
               Hbeta Hdt Hq Hdq Hddq (v st) q0 dq0 v0 ddq0);
        [rewrite vopp_length; apply Hlen | exact HI].
    + apply (generalized_alpha_predict_kept p (dt s) n (q st) (dq st) (ddq st)
               Hq Hdq Hddq).
Qed.

Lemma write_output_sized (time_range : list R) (st : State) :
  sized st -> sized (fst (write_output time_range st)).
Proof.
  intros (Hsame & Hq & Hdq & Hddq). unfold write_output.
  destruct (Rgeb _ _); cbn [fst].
  - split; [|cbn [q dq ddq]; auto].
    cbn [ms]. apply (same_system_trans _ _ _ Hsame), same_system_set_timesteps.
  - split; [exact Hsame | auto].
Qed.

Lemma time_step_linear_sized (time_range : list R) (st : State) (e : StepExit)
    (st1 : State) :
  sized st ->
  time_step s h time_range st = (e, st1) ->
  e <> Return /\ sized st1.
Proof.
  intros Hs Hstep.
  pose proof (write_output_sized time_range st Hs) as Hs0.
  destruct (time_step_cases s h _ _ _ _ Hstep)
    as [(_ & -> & ->) | (_ & ex & st2 & k & r & Ha & Hex)].
  - split; [discriminate | exact Hs0].
  - destruct (advance_linear_sized _ _ _ _ _ Hs0 Ha) as [He Hs2].
    destruct Hex as [(Hab & _) | (_ & -> & ->)]; [congruence|].
    split; [discriminate|]. exact Hs2.
Qed.

Lemma time_loop_linear (time_range : list R) (fuel : nat) :
  forall st,
    sized st ->
    fst (time_loop s h time_range fuel st) <> Aborted.
Proof.
  induction fuel as [|fuel IH]; intros st Hs; simpl.
  - destruct (_ <? _)%nat; discriminate.
  - destruct (_ <? _)%nat; [|discriminate].
    destruct (time_step s h time_range st) as [e st1] eqn:Es.
    destruct (time_step_linear_sized _ _ _ _ Hs Es) as [Hne Hs1].
    destruct e; simpl; try discriminate; [apply IH, Hs1 | contradiction].
Qed.

End LinearSolve.



(** ** The iteration record *)

Section IterationInfo.

Import NonlinearDynamicsSolver.

Variable s : solver.
Variable h : Hooks.
Variable time_range : list R.

Lemma write_output_iteration_info (st : State) :
  iteration_info (fst (write_output time_range st)) = iteration_info st /\
  t (fst (write_output time_range st)) = t st.
Proof.
  unfold write_output. destruct (Rgeb _ _); split; reflexivity.
Qed.

Lemma time_step_iteration_info (st : State) (e : StepExit) (st1 : State) :
  time_step s h time_range st = (e, st1) ->
  (e <> Continue -> iteration_info st1 = iteration_info st) /\
  (e = Continue ->
   iteration_info st1 =
     iteration_info st ++
     (if track_niter s
      then match advance s h (fst (write_output time_range st)) with
           | (_, _, n_iter, res_abs) => [(t st1, n_iter, res_abs)]
           end
      else [])).
Proof.
  intros Hstep.
  destruct (write_output_iteration_info st) as [Hw _].
  destruct (time_step_cases s h _ _ _ _ Hstep)
    as [(_ & -> & ->) | (_ & ex & st2 & k & r & Ha & Hex)].
  - split; [intros _; exact Hw | discriminate].
  - pose proof (advance_spec s h _ _ _ _ _ Ha) as (_ & _ & Hi & _).
    rewrite Ha.
    destruct Hex as [(_ & -> & ->) | (_ & -> & ->)].
    + split; [intros _; congruence | discriminate].
    + split; [intros H; contradiction H; reflexivity|].
      intros _. unfold track. cbn [iteration_info t].
      rewrite Hi, Hw. destruct (track_niter s); [reflexivity|].
      rewrite app_nil_r. reflexivity.
Qed.


End IterationInfo.

